(** * The hierarchical injector (di/injector.js): a shallow embedding

    The injector resolves tokens to instances through a per-injector binding
    list and a per-injector instance slot list, with a synchronous and an
    asynchronous strategy sharing the slots, and delegation to the parent.

    The embedding threads one [World] (every injector, every future and the
    log of factory invocations) through the operations, because injectors
    are shared mutable objects: a child and its siblings alias the parent.

    Two more parts of the sources follow the injector: the generator of
    setters and getters (bind_generator/generator.dart) and [bootstrap]
    (core/application.js), which builds the injectors of an application. *)

From Stdlib Require Import Lia ZArith.
From stdpp Require Import base option list gmap strings.

Set Default Proof Using "Type".
Set Warnings "-register-all,-clear-no-such-hyp".

(** ** Tokens, keys, values, errors *)

(** A token is compared by identity; [key.token === Injector] singles out the
    [Injector] class itself. *)
Inductive Token :=
| InjectorToken
| Tok (n : nat).

#[global] Instance Token_eq_dec : EqDecision Token.
Proof. solve_decision. Defined.

Record Key := mkKey { key_id : nat; key_token : Token }.

#[global] Instance Key_eq_dec : EqDecision Key.
Proof. solve_decision. Defined.

(** Run-time values.  [VNull] stands for both [null] and [undefined]
    ([isPresent] does not tell them apart).  [VConstructing] is the private
    [_constructing] object and [VWaiting] an instance of the private class
    [_Waiting]; both live in the same untyped slots as ordinary values. *)
Inductive jsval :=
| VNull
| VConstructing
| VWaiting (future : nat)
| VObj (o : nat)
| VInjector (i : nat)
| VFuture (f : nat)
| VThunk (i : nat) (k : Key) (returnFuture : bool)
| VArray (l : list jsval).

Definition isPresent (v : jsval) : bool :=
  match v with VNull => false | _ => true end.

Definition isBlank (v : jsval) : bool := negb (isPresent v).

Definition _isWaiting (v : jsval) : bool :=
  match v with VWaiting _ => true | _ => false end.

Definition is_constructing (v : jsval) : bool :=
  match v with VConstructing => true | _ => false end.

(** Modelled from the spec: the error classes of di/exceptions.js, which is
    not part of the sources.  Every provider error carries the chain of keys
    it was annotated with; [InstantiationError] wraps what the factory
    threw. *)
Inductive exn :=
| NoProviderError (keys : list Key)
| AsyncBindingError (keys : list Key)
| CyclicDependencyError (keys : list Key)
| InstantiationError (cause : nat) (keys : list Key)
| InvalidBindingError
| UserError (n : nat).

Definition isProviderError (e : exn) : bool :=
  match e with
  | NoProviderError _ | AsyncBindingError _
  | CyclicDependencyError _ | InstantiationError _ _ => true
  | InvalidBindingError | UserError _ => false
  end.

Definition addKey (e : exn) (k : Key) : exn :=
  match e with
  | NoProviderError ks => NoProviderError (ks ++ [k])
  | AsyncBindingError ks => AsyncBindingError (ks ++ [k])
  | CyclicDependencyError ks => CyclicDependencyError (ks ++ [k])
  | InstantiationError c ks => InstantiationError c (ks ++ [k])
  | e => e
  end.

(** ** Bindings *)

(** What user code hands back.  A factory builds an object (known by its
    identity), returns [null], returns a future of its own with the outcome
    it will settle to (if ever), or throws. *)
Inductive uval :=
| UNull
| UObj (o : nat).

Definition of_uval (u : uval) : jsval :=
  match u with UNull => VNull | UObj o => VObj o end.

Inductive fresult :=
| Returns (v : uval)
| ReturnsFuture (outcome : option (uval + nat))
| Throws (e : nat).

Record Dependency := mkDependency {
  dep_key : Key;
  asFuture : bool;
  lazy : bool
}.

(** [factory n deps]: the factory applied to the dependency list; [n] is the
    number of factory invocations so far, a supply of fresh identities. *)
Record Binding := mkBinding {
  key : Key;
  factory : nat → list jsval → fresult;
  dependencies : list Dependency;
  providedAsFuture : bool
}.

(** ** Futures *)

(** Modelled from the spec: facade/async.js is not part of the sources.  A
    future is a cell that is pending, settled, or following the future its
    callback returned.  Its kind records which call created it, that is,
    which callback runs when its source settles. *)
Inductive fkind :=
| KValue
| KUser (outcome : option (uval + nat))
| KWait (deps : list jsval)
| KCatch (src : nat) (inj : nat) (k : Key)
| KFind (src : nat) (inj : nat) (k : Key) (b : Binding)
| KCache (src : nat) (inj : nat) (k : Key).

Inductive fstate :=
| Pending
| Resolved (v : jsval)
| Rejected (e : exn)
| Following (g : nat).

Record Future := mkFuture { kind : fkind; state : fstate }.

(** ** Injectors and the world *)

Record Injector := mkInjector {
  _bindings : list (option Binding);
  _instances : list jsval;
  _parent : option nat
}.

Record World := mkWorld {
  keys : list Token;            (* the key registry: a key's id is its index *)
  injectors : list Injector;
  futures : list Future;
  calls : list (nat * nat)       (* factory invocations: injector, key id *)
}.

(** [list[i] = x] on a JavaScript array: in range it overwrites, out of range
    it grows the array, the gap reading as [undefined]. *)
Definition list_set {A} (d : A) (l : list A) (i : nat) (x : A) : list A :=
  if decide (i < length l) then <[i := x]> l
  else l ++ replicate (i - length l) d ++ [x].

(** ** The lookup monad: state, exceptions, fuel *)

Inductive result (A : Type) :=
| Ok (a : A)
| Raise (e : exn).
Arguments Ok {A} a.
Arguments Raise {A} e.

(** [None] is "no answer": the fuel ran out, or an injector index dangles. *)
Definition M (A : Type) : Type := World → option (result A * World).

Definition ret {A} (a : A) : M A := λ w, Some (Ok a, w).
Definition throw {A} (e : exn) : M A := λ w, Some (Raise e, w).
Definition stuck {A} : M A := λ _, None.

Definition bind {A B} (m : M A) (k : A → M B) : M B := λ w,
  match m w with
  | Some (Ok a, w') => k a w'
  | Some (Raise e, w') => Some (Raise e, w')
  | None => None
  end.

Definition try_catch {A} (m : M A) (h : exn → M A) : M A := λ w,
  match m w with
  | Some (Raise e, w') => h e w'
  | r => r
  end.

Definition gets {A} (f : World → A) : M A := λ w, Some (Ok (f w), w).
Definition modify (f : World → World) : M unit := λ w, Some (Ok tt, f w).

Notation "'let*' x ':=' m 'in' k" := (bind m (λ x, k))
  (at level 10, x name, m at level 100, k at level 200).
Notation "m ';;' k" := (bind m (λ _, k))
  (at level 100, k at level 200, right associativity).

Fixpoint mapM {A B} (f : A → M B) (l : list A) : M (list B) :=
  match l with
  | [] => ret []
  | a :: l' => let* b := f a in let* bs := mapM f l' in ret (b :: bs)
  end.

(** ** Slot and binding access *)

Definition the_injector (w : World) (I : nat) : Injector :=
  default (mkInjector [] [] None) (injectors w !! I).

Definition getInstance (w : World) (I : nat) (k : Key) : jsval :=
  let l := _instances (the_injector w I) in
  if decide (length l ≤ key_id k) then VNull
  else default VNull (l !! key_id k).

Definition getBinding (w : World) (I : nat) (k : Key) : option Binding :=
  let l := _bindings (the_injector w I) in
  if decide (length l ≤ key_id k) then None
  else default None (l !! key_id k).

Definition set_instances (f : list jsval → list jsval) (inj : Injector) : Injector :=
  mkInjector (_bindings inj) (f (_instances inj)) (_parent inj).

Definition setInstance (I : nat) (k : Key) (obj : jsval) (w : World) : World :=
  mkWorld (keys w)
          (alter (set_instances (λ l, list_set VNull l (key_id k) obj)) I (injectors w))
          (futures w) (calls w).

Definition _getInstance (I : nat) (k : Key) : M jsval := gets (λ w, getInstance w I k).
Definition _getBinding (I : nat) (k : Key) : M (option Binding) := gets (λ w, getBinding w I k).
Definition _setInstance (I : nat) (k : Key) (obj : jsval) : M unit := modify (setInstance I k obj).
Definition _markAsConstructing (I : nat) (k : Key) : M unit := _setInstance I k VConstructing.
Definition _clear (I : nat) (k : Key) : M unit := _setInstance I k VNull.

(** ** Futures: creation *)

Definition add_future (c : Future) (w : World) : World :=
  mkWorld (keys w) (injectors w) (futures w ++ [c]) (calls w).

Definition new_future (c : Future) : M nat := λ w,
  Some (Ok (length (futures w)), add_future c w).

Definition FutureWrapper_value (v : jsval) : M jsval :=
  let* f := new_future (mkFuture KValue (Resolved v)) in ret (VFuture f).

Definition FutureWrapper_wait (deps : list jsval) : M nat :=
  new_future (mkFuture (KWait deps) Pending).

(** ** Calling a factory *)

Definition add_call (I : nat) (k : Key) (w : World) : World :=
  mkWorld (keys w) (injectors w) (futures w) ((I, key_id k) :: calls w).

Definition log_call (I : nat) (k : Key) : M nat := λ w,
  Some (Ok (length (calls w)), add_call I k w).

(** [binding.factory(deps)]: the instance, or what the factory threw. *)
Definition call_factory (I : nat) (k : Key) (b : Binding) (deps : list jsval)
  : M (jsval + nat) :=
  let* n := log_call I k in
  match factory b n deps with
  | Returns u => ret (inl (of_uval u))
  | ReturnsFuture o =>
      let* f := new_future (mkFuture (KUser o) Pending) in ret (inl (VFuture f))
  | Throws e => ret (inr e)
  end.

(** ** The two strategies *)

Section Strategies.
(** The recursive knot: [Injector._getByKey] on injector [I]. *)
Variable getByKey : nat → Key → bool → bool → M jsval.

Definition _resolveDependencies (I : nat) (k : Key) (b : Binding) (forceAsync : bool)
  : M (list jsval) :=
  try_catch
    (mapM (λ d, getByKey I (dep_key d) (forceAsync || asFuture d) (lazy d))
          (dependencies b))
    (λ e, _clear I k;;
          throw (if isProviderError e then addKey e k else e)).

Definition sync_readFromCache (I : nat) (k : Key) : M jsval :=
  if decide (key_token k = InjectorToken) then ret (VInjector I)
  else
    let* instance := _getInstance I k in
    if is_constructing instance then throw (CyclicDependencyError [k])
    else if isPresent instance && negb (_isWaiting instance) then ret instance
    else ret VNull.

Definition sync_createInstance (I : nat) (k : Key) (b : Binding) (deps : list jsval)
  : M jsval :=
  let* r := call_factory I k b deps in
  match r with
  | inl instance => _setInstance I k instance;; ret instance
  | inr e => _clear I k;; throw (InstantiationError e [k])
  end.

Definition sync_instantiate (I : nat) (k : Key) : M jsval :=
  let* binding := _getBinding I k in
  match binding with
  | None => ret VNull
  | Some b =>
      if providedAsFuture b then throw (AsyncBindingError [k])
      else
        _markAsConstructing I k;;
        let* deps := _resolveDependencies I k b false in
        sync_createInstance I k b deps
  end.

Definition async_readFromCache (I : nat) (k : Key) : M jsval :=
  if decide (key_token k = InjectorToken) then FutureWrapper_value (VInjector I)
  else
    let* instance := _getInstance I k in
    if is_constructing instance then throw (CyclicDependencyError [k])
    else match instance with
         | VWaiting future => ret (VFuture future)
         | _ => if isPresent instance then FutureWrapper_value instance
                else ret VNull
         end.

Definition async_instantiate (I : nat) (k : Key) : M jsval :=
  let* binding := _getBinding I k in
  match binding with
  | None => ret VNull
  | Some b =>
      _markAsConstructing I k;;
      let* deps := _resolveDependencies I k b true in
      let* depsFuture := FutureWrapper_wait deps in
      let* caught := new_future (mkFuture (KCatch depsFuture I k) Pending) in
      let* found := new_future (mkFuture (KFind caught I k b) Pending) in
      let* future := new_future (mkFuture (KCache found I k) Pending) in
      _setInstance I k (VWaiting future);;
      ret (VFuture future)
  end.
End Strategies.

(** ** [Injector._getByKey] *)

Fixpoint _getByKey (fuel : nat) (I : nat) (k : Key) (returnFuture returnLazy : bool)
  : M jsval :=
  match fuel with
  | 0 => stuck
  | S fuel' =>
      if returnLazy then ret (VThunk I k returnFuture)
      else
        let* this := gets (λ w, injectors w !! I) in
        match this with
        | None => stuck
        | Some _ =>
            let* instance :=
              (if returnFuture then async_readFromCache I k
               else sync_readFromCache I k) in
            if isPresent instance then ret instance
            else
              let* instance :=
                (if returnFuture then async_instantiate (_getByKey fuel') I k
                 else sync_instantiate (_getByKey fuel') I k) in
              if isPresent instance then ret instance
              else
                let* parent := gets (λ w, _parent (the_injector w I)) in
                match parent with
                | Some p => _getByKey fuel' p k returnFuture returnLazy
                | None => throw (NoProviderError [k])
                end
        end
  end.

(** ** The key registry and the public lookups *)

(** Modelled from the spec: di/key.js is not part of the sources.
    [Key.get(token)] gives the key of a token, allocating the next id the
    first time the token is seen; ids are never reused. *)
Fixpoint index_of (t : Token) (l : list Token) : option nat :=
  match l with
  | [] => None
  | t' :: l' => if decide (t' = t) then Some 0 else S <$> index_of t l'
  end.

Definition Key_get (t : Token) : M Key := λ w,
  match index_of t (keys w) with
  | Some i => Some (Ok (mkKey i t), w)
  | None => Some (Ok (mkKey (length (keys w)) t),
                  mkWorld (keys w ++ [t]) (injectors w) (futures w) (calls w))
  end.

Definition Key_numberOfKeys : M nat := gets (λ w, length (keys w)).

Definition get (fuel : nat) (I : nat) (t : Token) : M jsval :=
  let* k := Key_get t in _getByKey fuel I k false false.

Definition asyncGet (fuel : nat) (I : nat) (t : Token) : M jsval :=
  let* k := Key_get t in _getByKey fuel I k true false.

(** ** Building injectors *)

(** What a caller may put in a binding list. *)
Inductive raw :=
| RBinding (b : Binding)
| RType (t : nat)
| RList (l : list raw)
| RBuilder (t : Token)
| ROther (v : nat).

Section Flatten.
(** Modelled from the spec: [bind(b).toClass(b)] of di/binding.js, which is
    not part of the sources: the implicit descriptor of a bare type. *)
Variable toClass : nat → Binding.

Fixpoint flatten_one (b : raw) (res : gmap nat Binding) : exn + gmap nat Binding :=
  match b with
  | RBinding b => inr (<[key_id (key b) := b]> res)
  | RType t => let s := toClass t in inr (<[key_id (key s) := s]> res)
  | RList l =>
      (fix each (l : list raw) (res : gmap nat Binding) :=
         match l with
         | [] => inr res
         | b :: l' => match flatten_one b res with
                      | inl e => inl e
                      | inr res' => each l' res'
                      end
         end) l res
  | RBuilder _ => inl InvalidBindingError
  | ROther _ => inl InvalidBindingError
  end.

Definition _flattenBindings (bindings : list raw) (res : gmap nat Binding)
  : exn + gmap nat Binding :=
  flatten_one (RList bindings) res.

Definition _createListOfBindings (n : nat) (flattenBindings : gmap nat Binding)
  : list (option Binding) :=
  foldr (λ kv bindings, list_set None bindings kv.1 (Some kv.2))
        (replicate (n + 1) None) (map_to_list flattenBindings).

Definition _createInstances (n : nat) : list jsval := replicate (n + 1) VNull.

(** [new Injector(bindings, parent)]; the result is the new injector's
    index in the world. *)
Definition new_Injector (bindings : list raw) (parent : option nat) : M nat := λ w,
  match _flattenBindings bindings ∅ with
  | inl e => Some (Raise e, w)
  | inr flatten =>
      let n := length (keys w) in
      Some (Ok (length (injectors w)),
            mkWorld (keys w)
                    (injectors w ++ [mkInjector (_createListOfBindings n flatten)
                                                (_createInstances n) parent])
                    (futures w) (calls w))
  end.

Definition createChild (I : nat) (bindings : list raw) : M nat :=
  new_Injector bindings (Some I).
End Flatten.

(** ** Settling futures *)

Definition settled (w : World) (g : nat) : option (jsval + exn) :=
  match state <$> futures w !! g with
  | Some (Resolved v) => Some (inl v)
  | Some (Rejected e) => Some (inr e)
  | _ => None
  end.

Definition set_state (f : nat) (st : fstate) (w : World) : World :=
  mkWorld (keys w) (injectors w)
          (alter (λ c, mkFuture (kind c) st) f (futures w)) (calls w).

Definition settle (f : nat) (o : jsval + exn) : World → World :=
  set_state f (match o with inl v => Resolved v | inr e => Rejected e end).

(** [FutureWrapper.wait]: fails as soon as one awaited future has failed,
    succeeds with the list of values once all have succeeded. *)
Fixpoint wait_all (w : World) (deps : list jsval) : option (list jsval + exn) :=
  match deps with
  | [] => Some (inl [])
  | d :: deps' =>
      let here := match d with
                  | VFuture g => settled w g
                  | v => Some (inl v)
                  end in
      match here, wait_all w deps' with
      | Some (inr e), _ => Some (inr e)
      | _, Some (inr e) => Some (inr e)
      | Some (inl v), Some (inl vs) => Some (inl (v :: vs))
      | _, _ => None
      end
  end.

Definition as_list (v : jsval) : list jsval :=
  match v with VArray l => l | _ => [] end.

(** [_AsyncInjectorStrategy._findOrCreate]. *)
Definition _findOrCreate (I : nat) (k : Key) (b : Binding) (deps : list jsval) : M jsval :=
  let* instance := _getInstance I k in
  if negb (_isWaiting instance) then ret instance
  else
    let* r := call_factory I k b deps in
    match r with
    | inl v => ret v
    | inr e => _clear I k;; throw (InstantiationError e [k])
    end.

(** [_AsyncInjectorStrategy._cacheInstance]. *)
Definition _cacheInstance (I : nat) (k : Key) (instance : jsval) : M jsval :=
  _setInstance I k instance;; ret instance.

(** [_AsyncInjectorStrategy._errorHandler]: the failure it hands on. *)
Definition _errorHandler (k : Key) (e : exn) : exn :=
  if isProviderError e then addKey e k else e.

(** What a [then] callback produced decides the future it belongs to: a
    thrown error rejects it, a returned future is followed, anything else
    resolves it. *)
Definition conclude (f : nat) (r : option (result jsval * World)) : option World :=
  match r with
  | Some (Ok (VFuture g), w) => Some (set_state f (Following g) w)
  | Some (Ok v, w) => Some (set_state f (Resolved v) w)
  | Some (Raise e, w) => Some (set_state f (Rejected e) w)
  | None => None
  end.

(** One turn of the event loop for future [f]: run its callback if what it
    waits for has settled.  [None]: nothing to do for [f] yet (or ever). *)
Definition fire (f : nat) (w : World) : option World :=
  c ← futures w !! f;
  match state c with
  | Resolved _ | Rejected _ => None
  | Following g => o ← settled w g; Some (settle f o w)
  | Pending =>
      match kind c with
      | KValue => None
      | KUser outcome =>
          o ← outcome;
          Some (settle f (match o with
                          | inl u => inl (of_uval u)
                          | inr e => inr (UserError e)
                          end) w)
      | KWait deps =>
          o ← wait_all w deps;
          Some (settle f (match o with
                          | inl vs => inl (VArray vs)
                          | inr e => inr e
                          end) w)
      | KCatch src inj k =>
          o ← settled w src;
          Some (settle f (match o with
                          | inl v => inl v
                          | inr e => inr (_errorHandler k e)
                          end) w)
      | KFind src inj k b =>
          o ← settled w src;
          match o with
          | inl deps => conclude f (_findOrCreate inj k b (as_list deps) w)
          | inr e => Some (settle f (inr e) w)
          end
      | KCache src inj k =>
          o ← settled w src;
          match o with
          | inl instance => conclude f (_cacheInstance inj k instance w)
          | inr e => Some (settle f (inr e) w)
          end
      end
  end.

(** A schedule is the order in which futures get their turn; turns that
    have nothing to do are skipped. *)
Fixpoint run (schedule : list nat) (w : World) : World :=
  match schedule with
  | [] => w
  | f :: rest => run rest (default w (fire f w))
  end.

(** ** The lookup as a derivation

    [lookup I k rf rl w r w'] holds when [_getByKey] on injector [I] takes the
    world [w] to [w'] with answer [r]; [local] is what the injector finds on
    its own (cache, then binding), [Ok VNull] meaning nothing; [resolve] is
    the left-to-right pass over a dependency list.  The derivations give the
    induction principle the fuel hides. *)

Definition read_cache (rf : bool) (I : nat) (k : Key) : M jsval :=
  if rf then async_readFromCache I k else sync_readFromCache I k.

(** What [instantiate] does once the dependencies are there. *)
Definition finish (rf : bool) (I : nat) (k : Key) (b : Binding) (deps : list jsval)
  : M jsval :=
  if rf then
    let* depsFuture := FutureWrapper_wait deps in
    let* caught := new_future (mkFuture (KCatch depsFuture I k) Pending) in
    let* found := new_future (mkFuture (KFind caught I k b) Pending) in
    let* future := new_future (mkFuture (KCache found I k) Pending) in
    _setInstance I k (VWaiting future);;
    ret (VFuture future)
  else sync_createInstance I k b deps.

Definition annotate (e : exn) (k : Key) : exn :=
  if isProviderError e then addKey e k else e.

Definition cons_result (v : jsval) (r : result (list jsval)) : result (list jsval) :=
  match r with Ok vs => Ok (v :: vs) | Raise e => Raise e end.

Inductive lookup : nat → Key → bool → bool → World → result jsval → World → Prop :=
| lookup_lazy I k rf w :
    lookup I k rf true w (Ok (VThunk I k rf)) w
| lookup_local I k rf w r w1 :
    is_Some (injectors w !! I) →
    local I k rf w r w1 →
    r ≠ Ok VNull →
    lookup I k rf false w r w1
| lookup_orphan I k rf w w1 :
    is_Some (injectors w !! I) →
    local I k rf w (Ok VNull) w1 →
    _parent (the_injector w1 I) = None →
    lookup I k rf false w (Raise (NoProviderError [k])) w1
| lookup_parent I k rf w w1 p r w2 :
    is_Some (injectors w !! I) →
    local I k rf w (Ok VNull) w1 →
    _parent (the_injector w1 I) = Some p →
    lookup p k rf false w1 r w2 →
    lookup I k rf false w r w2
with local : nat → Key → bool → World → result jsval → World → Prop :=
| local_read I k rf w r w1 :
    read_cache rf I k w = Some (r, w1) →
    r ≠ Ok VNull →
    local I k rf w r w1
| local_unbound I k rf w :
    read_cache rf I k w = Some (Ok VNull, w) →
    getBinding w I k = None →
    local I k rf w (Ok VNull) w
| local_async_only I k w b :
    read_cache false I k w = Some (Ok VNull, w) →
    getBinding w I k = Some b →
    providedAsFuture b = true →
    local I k false w (Raise (AsyncBindingError [k])) w
| local_deps_fail I k rf w b e wd :
    read_cache rf I k w = Some (Ok VNull, w) →
    getBinding w I k = Some b →
    (rf = false → providedAsFuture b = false) →
    resolve I rf (dependencies b) (setInstance I k VConstructing w) (Raise e) wd →
    local I k rf w (Raise (annotate e k)) (setInstance I k VNull wd)
| local_built I k rf w b deps wd r w1 :
    read_cache rf I k w = Some (Ok VNull, w) →
    getBinding w I k = Some b →
    (rf = false → providedAsFuture b = false) →
    resolve I rf (dependencies b) (setInstance I k VConstructing w) (Ok deps) wd →
    finish rf I k b deps wd = Some (r, w1) →
    local I k rf w r w1
with resolve : nat → bool → list Dependency → World → result (list jsval) → World → Prop :=
| resolve_nil I fa w :
    resolve I fa [] w (Ok []) w
| resolve_fail I fa d ds w e w1 :
    lookup I (dep_key d) (fa || asFuture d) (lazy d) w (Raise e) w1 →
    resolve I fa (d :: ds) w (Raise e) w1
| resolve_cons I fa d ds w v w1 r w2 :
    lookup I (dep_key d) (fa || asFuture d) (lazy d) w (Ok v) w1 →
    resolve I fa ds w1 r w2 →
    resolve I fa (d :: ds) w (cons_result v r) w2.

Scheme lookup_mind := Minimality for lookup Sort Prop
  with local_mind := Minimality for local Sort Prop
  with resolve_mind := Minimality for resolve Sort Prop.
Combined Scheme lookup_mutind from lookup_mind, local_mind, resolve_mind.

(** ** Pieces of [_getByKey], named for the proofs *)

Definition instantiate (rec : nat → Key → bool → bool → M jsval) (rf : bool)
    (I : nat) (k : Key) : M jsval :=
  if rf then async_instantiate rec I k else sync_instantiate rec I k.

Definition ask_parent (rec : nat → Key → bool → bool → M jsval) (I : nat) (k : Key)
    (rf : bool) : M jsval := λ w,
  match _parent (the_injector w I) with
  | Some p => rec p k rf false w
  | None => Some (Raise (NoProviderError [k]), w)
  end.

Definition local_part (rec : nat → Key → bool → bool → M jsval) (rf : bool)
    (I : nat) (k : Key) : M jsval :=
  bind (read_cache rf I k) (λ instance,
    if isPresent instance then ret instance else instantiate rec rf I k).

Definition enough {A} (f : nat → option A) (x : A) : Prop :=
  ∃ n, ∀ m, n ≤ m → f m = Some x.

(** What the end of [instantiate] answers and leaves, by case: the factory
    of the synchronous strategy returns a value, returns a future or throws;
    the asynchronous strategy schedules its four futures. *)
Inductive finished (I : nat) (k : Key) (b : Binding) (deps : list jsval) (w : World)
  : bool → result jsval → World → Prop :=
| finished_value u :
    factory b (length (calls w)) deps = Returns u →
    finished I k b deps w false (Ok (of_uval u))
             (setInstance I k (of_uval u) (add_call I k w))
| finished_future o :
    factory b (length (calls w)) deps = ReturnsFuture o →
    finished I k b deps w false (Ok (VFuture (length (futures w))))
             (setInstance I k (VFuture (length (futures w)))
                (add_future (mkFuture (KUser o) Pending) (add_call I k w)))
| finished_throw e :
    factory b (length (calls w)) deps = Throws e →
    finished I k b deps w false (Raise (InstantiationError e [k]))
             (setInstance I k VNull (add_call I k w))
| finished_async :
    let n := length (futures w) in
    finished I k b deps w true (Ok (VFuture (n + 3)))
             (setInstance I k (VWaiting (n + 3))
                (add_future (mkFuture (KCache (n + 2) I k) Pending)
                   (add_future (mkFuture (KFind (n + 1) I k b) Pending)
                      (add_future (mkFuture (KCatch n I k) Pending)
                         (add_future (mkFuture (KWait deps) Pending) w))))).

(** ** Vocabulary of the statements *)

Fixpoint count_if {A} (f : A → bool) (l : list A) : nat :=
  match l with
  | [] => 0
  | x :: l' => (if f x then 1 else 0) + count_if f l'
  end.

(** How often the factory bound to key id [i] on injector [I] has run. *)
Definition invocations (w : World) (I i : nat) : nat :=
  count_if (λ c, bool_decide (c = (I, i))) (calls w).

Definition is_pending (st : fstate) : bool :=
  match st with Pending => true | _ => false end.

(** Injectors are created after their parent. *)
Definition wf_parents (w : World) : Prop :=
  ∀ I inj p, injectors w !! I = Some inj → _parent inj = Some p → p < I.

(** What no lookup changes: the registry, which injectors exist, their
    bindings and parents; futures and calls only accumulate. *)
Record extends (w w' : World) : Prop := mkExtends {
  ext_keys : keys w' = keys w;
  ext_length : length (injectors w') = length (injectors w);
  ext_bindings : ∀ J, _bindings (the_injector w' J) = _bindings (the_injector w J);
  ext_parent : ∀ J, _parent (the_injector w' J) = _parent (the_injector w J);
  ext_futures : ∃ l, futures w' = futures w ++ l;
  ext_calls : ∃ l, calls w' = l ++ calls w
}.

(** A future that reads or writes slot [i] of injector [I] when it fires. *)
Definition targets (I i : nat) (c : Future) : bool :=
  match kind c with
  | KFind _ J k _ | KCache _ J k => bool_decide (J = I ∧ key_id k = i)
  | _ => false
  end.

(** Slot [k0] of [I0] is left alone between [w] and [w']: it still holds the
    construction marker, its factory has not run, and no new future aims at
    it. *)
Definition kept (I0 : nat) (k0 : Key) (w w' : World) : Prop :=
  getInstance w' I0 k0 = VConstructing ∧
  invocations w' I0 (key_id k0) = invocations w I0 (key_id k0) ∧
  ∃ l, futures w' = futures w ++ l ∧ Forall (λ c, targets I0 (key_id k0) c = false) l.

(** Token [t] has been given key [k]. *)
Definition registered (w : World) (t : Token) (k : Key) : Prop :=
  index_of t (keys w) = Some (key_id k) ∧ key_token k = t.

(** A future that reads or writes a slot is aimed at a slot with a binding. *)
Definition aimed_at_bound (w : World) (c : Future) : Prop :=
  match kind c with
  | KFind _ J k _ | KCache _ J k => getBinding w J k ≠ None
  | _ => True
  end.

(** What the constructor, the lookups and the event loop maintain: a slot
    without a binding is empty, and no future is aimed at one. *)
Definition tidy (w : World) : Prop :=
  (∀ J k, getBinding w J k = None → getInstance w J k = VNull) ∧
  Forall (aimed_at_bound w) (futures w).

(** A lookup of [k] on [D] ends up on [R]: no injector from [D] up to, but
    not including, [R] has a binding for [k]. *)
Inductive passes (w : World) (k : Key) : nat → nat → Prop :=
| passes_here R : passes w k R R
| passes_up D P R :
    is_Some (injectors w !! D) →
    getBinding w D k = None →
    _parent (the_injector w D) = Some P →
    passes w k P R →
    passes w k D R.

(** ** Flattening, as the specification words it *)

(** The descriptors of a binding list in the order of a left-to-right,
    depth-first traversal; a bare type stands for its implicit descriptor. *)
Fixpoint descriptors (toClass : nat → Binding) (b : raw) : list Binding :=
  match b with
  | RBinding b => [b]
  | RType t => [toClass t]
  | RList l => flat_map (descriptors toClass) l
  | RBuilder _ | ROther _ => []
  end.

(** No unfinished builder and nothing unrecognised, at any depth. *)
Fixpoint well_formed (b : raw) : bool :=
  match b with
  | RBinding _ | RType _ => true
  | RList l => forallb well_formed l
  | RBuilder _ | ROther _ => false
  end.

(** The last descriptor for key id [i] in a traversal. *)
Definition last_bound (i : nat) (ds : list Binding) : option Binding :=
  last (filter (λ b, key_id (key b) = i) ds).

(** No injector from [I] up to the root has a binding for [k]. *)
Inductive orphaned (w : World) (k : Key) : nat → Prop :=
| orphaned_root I :
    is_Some (injectors w !! I) →
    getBinding w I k = None →
    _parent (the_injector w I) = None →
    orphaned w k I
| orphaned_up I P :
    is_Some (injectors w !! I) →
    getBinding w I k = None →
    _parent (the_injector w I) = Some P →
    orphaned w k P →
    orphaned w k I.

(** Nothing above [R] provides [k]. *)
Definition top_for (w : World) (k : Key) (R : nat) : Prop :=
  ∀ P, _parent (the_injector w R) = Some P → orphaned w k P.

(** ** Dependency cycles *)





(** ** The event loop *)


Definition user_future (c : Future) : Prop := ∃ o, kind c = KUser o.



(** A value that a lookup can answer: present, and neither of the private
    markers. *)
Definition ordinary (v : jsval) : Prop :=
  isPresent v = true ∧ is_constructing v = false ∧ _isWaiting v = false.

(** What firing future [g] does to the world, in one shape: the future gets
    a state that is not pending, and at most a future of user code is
    added. *)
Definition fire_shaped (g : nat) (w w' : World) : Prop :=
  ∃ c st wm l,
    futures w !! g = Some c ∧ is_pending st = false ∧
    w' = set_state g st wm ∧
    futures wm = futures w ++ l ∧ Forall user_future l ∧
    length (injectors wm) = length (injectors w) ∧
    ∀ J, _bindings (the_injector wm J) = _bindings (the_injector w J).

(** ** Worlds to run the code on *)

Module Sample.
Definition A : Key := mkKey 0 (Tok 0).
Definition B : Key := mkKey 1 (Tok 1).

(** Two tokens are registered, no injector exists yet. *)
Definition start : World := mkWorld [Tok 0; Tok 1] [] [] [].

Definition fresh : nat → list jsval → fresult := λ n _, Returns (UObj n).
Definition null : nat → list jsval → fresult := λ _ _, Returns UNull.
Definition failing : nat → list jsval → fresult := λ _ _, Throws 7.
Definition toClass (t : nat) : Binding := mkBinding (mkKey t (Tok t)) fresh [] false.

Definition eager (k : Key) : Dependency := mkDependency k false false.
Definition lazily (k : Key) : Dependency := mkDependency k false true.

Definition bind_to (k : Key) (f : nat → list jsval → fresult) (deps : list Dependency)
  : raw := RBinding (mkBinding k f deps false).

(** The world after [m], whatever [m] answered. *)
Definition after {X} (m : M X) (w : World) : World :=
  match m w with Some (_, w') => w' | None => w end.

Definition answer {X} (m : M X) (w : World) : option (result X) :=
  fst <$> m w.

Definition slots (w : World) : list (list jsval) := _instances <$> injectors w.
Definition states (w : World) : list fstate := state <$> futures w.

(** A root binding [A] to a factory that returns [null]. *)
Definition null_root : World :=
  after (new_Injector toClass [bind_to A null []] None) start.

(** A root binding [A] to a fresh object, and a child of it that binds [A]
    again, to a factory that returns [null]. *)
Definition null_child : World :=
  after (createChild toClass 0 [bind_to A null []])
        (after (new_Injector toClass [bind_to A fresh []] None) start).

(** A root where [A] needs [B] and [B] is provided as a future only. *)
Definition async_only : World :=
  after (new_Injector toClass
           [bind_to A fresh [eager B]; RBinding (mkBinding B fresh [] true)] None) start.

(** A root where [A] needs [B]. *)
Definition pair : World :=
  after (new_Injector toClass [bind_to A fresh [eager B]; bind_to B fresh []] None) start.

(** The same, with a future for [A] pending. *)
Definition pending_A : World := after (asyncGet 3 0 (Tok 0)) pair.

(** A root where [A] needs [B], and nothing provides [B]. *)
Definition missing_dep : World :=
  after (new_Injector toClass [bind_to A fresh [eager B]] None) start.

(** A root binding [B] only, with two children that bind nothing. *)
Definition family : World :=
  after (createChild toClass 0 [])
        (after (createChild toClass 0 [])
               (after (new_Injector toClass [bind_to B fresh []] None) start)).

(** A root where [A] needs [B] (after a lazy reference to itself) and [B]
    needs [A]. *)
Definition cycle : World :=
  after (new_Injector toClass
           [bind_to A fresh [lazily A; eager B]; bind_to B fresh [eager A]] None) start.

(** A root where [A] depends on itself, lazily. *)
Definition lazy_self : World :=
  after (new_Injector toClass [bind_to A fresh [lazily A]] None) start.


(** A root where [A] needs [B] and the factory of [B] throws. *)
Definition failing_dep : World :=
  after (new_Injector toClass [bind_to A fresh [eager B]; bind_to B failing []] None)
        start.
End Sample.

(** ** Vocabulary of the further properties *)

(** [J] is [I] or one of its ancestors. *)
Inductive on_chain (w : World) : nat → nat → Prop :=
| on_chain_here I : on_chain w I I
| on_chain_up I P J :
    _parent (the_injector w I) = Some P → on_chain w P J → on_chain w I J.

(** What a dependency of a binding of [I] resolves to on the spot in a
    synchronous construction, nothing being built for it: a lazy one to a
    thunk, the injector's own token to the injector, an instance that is
    cached on [I] to that instance. *)
Definition ready (w : World) (I : nat) (d : Dependency) : option jsval :=
  if lazy d then Some (VThunk I (dep_key d) (asFuture d))
  else if asFuture d then None
  else if decide (key_token (dep_key d) = InjectorToken) then Some (VInjector I)
  else
    let v := getInstance w I (dep_key d) in
    if isPresent v && negb (is_constructing v) && negb (_isWaiting v) then Some v
    else None.

(** ** A measure for the lookups

    A bound slot is open while it does not hold the construction marker.
    Marking a slot closes it, and a lookup that has returned leaves the
    markers as they were: the number of open slots of the injectors up to
    [I], plus [I], bounds the depth of a lookup on [I]. *)
Definition open_slot (w : World) (J i : nat) : bool :=
  bool_decide (getBinding w J (mkKey i InjectorToken) ≠ None)
  && negb (is_constructing (getInstance w J (mkKey i InjectorToken))).

Definition open_slots (w : World) (J : nat) : nat :=
  count_if (open_slot w J) (seq 0 (length (_bindings (the_injector w J)))).

Fixpoint open_upto (w : World) (I : nat) : nat :=
  open_slots w I + match I with 0 => 0 | S I' => open_upto w I' end.

(** ** The worlds a program gets to

    A program starts with a registry and no injector; it builds injectors,
    each under a parent that exists or under none, looks tokens up, and lets
    the event loop fire futures. *)
Inductive reachable (toClass : nat → Binding) : World → Prop :=
| reach_start ks : reachable toClass (mkWorld ks [] [] [])
| reach_new bindings parent w r w' :
    reachable toClass w →
    (∀ p, parent = Some p → is_Some (injectors w !! p)) →
    new_Injector toClass bindings parent w = Some (r, w') →
    reachable toClass w'
| reach_get n I t w r w' :
    reachable toClass w → get n I t w = Some (r, w') → reachable toClass w'
| reach_asyncGet n I t w r w' :
    reachable toClass w → asyncGet n I t w = Some (r, w') → reachable toClass w'
| reach_fire g w w' :
    reachable toClass w → fire g w = Some w' → reachable toClass w'.

(** Calling the function that a lazy lookup answers,
    [() => this._getByKey(key, returnFuture, false)]. *)
Definition call_thunk (fuel : nat) (thunk : jsval) : M jsval :=
  match thunk with
  | VThunk inj k returnFuture => _getByKey fuel inj k returnFuture false
  | _ => stuck
  end.

(* ------------------------------------------------------------------ *)
(** * The setter and getter generator (bind_generator/generator.dart)

    The transformer reads the properties, events and query fields that the
    registered types of a library declare, and writes the setters and
    getters for them into the code of the library, behind the registration
    of the last type.

    Not part of the sources, and parameters or data here: [String.trim] of
    dart:core, the functions of common/property_utils.dart, and what the
    visitors collect from the syntax trees of the analyzer package (the
    [bindConfig] of an [ExtractNamedExpressionVisitor], the [queryFields] of
    the two visitors of this file). *)

Module Generator.

(** A Dart string, as the sequence of its characters. *)
Definition str : Type := list Ascii.ascii.

Definition lit (s : string) : str := String.list_ascii_of_string s.

(** The character of a one-character literal. *)
Definition char (s : string) : Ascii.ascii :=
  match s with
  | String.String c _ => c
  | String.EmptyString => Ascii.zero
  end.

(** [String.indexOf] for a one-character pattern: the index of the first
    occurrence, [-1] when there is none. *)
Fixpoint indexOf_from (c : Ascii.ascii) (s : str) (i : Z) : Z :=
  match s with
  | [] => (-1)%Z
  | x :: s' => if decide (x = c) then i else indexOf_from c s' (i + 1)%Z
  end.

Definition indexOf (s : str) (c : Ascii.ascii) : Z := indexOf_from c s 0%Z.

(** [String.split] for a one-character pattern; the result is never
    empty. *)
Fixpoint split (s : str) (c : Ascii.ascii) : list str :=
  match s with
  | [] => [[]]
  | x :: s' =>
      if decide (x = c) then [] :: split s' c
      else match split s' c with
           | part :: parts => (x :: part) :: parts
           | [] => [[x]]
           end
  end.

(** [Iterable.join]. *)
Fixpoint join (l : list str) (sep : str) : str :=
  match l with
  | [] => []
  | x :: l' => match l' with [] => x | _ => x ++ sep ++ join l' sep end
  end.

(** A map literal of Dart is a [LinkedHashMap]: the entries are kept in the
    order of insertion, and an assignment to a key that is there keeps the
    key's place. *)
Definition DartMap : Type := list (str * str).

Definition containsKey (m : DartMap) (k : str) : bool := bool_decide (k ∈ m.*1).

Fixpoint put (m : DartMap) (k v : str) : DartMap :=
  match m with
  | [] => [(k, v)]
  | (k', v') :: m' => if decide (k' = k) then (k', v) :: m' else (k', v') :: put m' k v
  end.

(** [m[k]], for the statements. *)
Fixpoint entry (m : DartMap) (k : str) : option str :=
  match m with
  | [] => None
  | (k', v) :: m' => if decide (k' = k) then Some v else entry m' k
  end.

(** A registered type, with what the visitors collect from its annotations
    and property metadata: [bindConfig name] is the [bindConfig] of an
    [ExtractNamedExpressionVisitor(name)] after [t.annotations.accept];
    [queryFieldsFromAnnotation] the [queryFields] of an
    [_ExtractQueryFieldsFromAnnotation], [None] when it threw its
    [FormatException]; [queryFieldsFromPropMetadata] those of an
    [_ExtractQueryFieldsFromPropMetadata], empty when [t.propMetadata] is
    [null]. *)
Record RegisteredType := mkRegisteredType {
  typeName : str;
  bindConfig : str → list str;
  queryFieldsFromAnnotation : option (list str);
  queryFieldsFromPropMetadata : list str;
  registerMethod_end : nat
}.

Record NgDeps := mkNgDeps {
  code : str;
  registeredTypes : list RegisteredType
}.

Inductive failure :=
| FormatException
| StateError
| RangeError.

Section Functions.
Variable trim : str → str.
Variable isValid : str → bool.
Variable sanitize : str → str.
Variable lazyInvalidSetter : str → str.
Variable lazyInvalidGetter : str → str.

(** The property a [properties] entry configures: what stands before the
    first colon, trimmed, when the colon is not at the very start; the
    whole entry as it is otherwise. *)
Definition property_of (config : str) : str :=
  let idx := indexOf config (char ":") in
  if decide (idx > 0)%Z then trim (take (Z.to_nat idx) config) else config.

Definition _createPropertiesMap (ngDeps : NgDeps) : DartMap :=
  foldl (λ bindMap t,
           foldl (λ bindMap config,
                    let prop := property_of config in
                    if containsKey bindMap prop then put bindMap prop []
                    else put bindMap prop (typeName t))
                 bindMap (bindConfig t (lit "properties")))
        [] (registeredTypes ngDeps).

(** The property an [events] entry names: what stands before the first
    colon, trimmed. *)
Definition event_of (config : str) : str :=
  trim (default [] (head (split config (char ":")))).

Definition _createEventPropertiesList (ngDeps : NgDeps) : list str :=
  foldl (λ propertyNames t,
           foldl (λ propertyNames config, propertyNames ++ [event_of config])
                 propertyNames (bindConfig t (lit "events")))
        [] (registeredTypes ngDeps).

Definition _generateSetters (bindMap : DartMap) : list str :=
  foldl (λ setters kv,
           let setterName := kv.1 in
           if negb (isValid setterName) then setters ++ [lazyInvalidSetter setterName]
           else setters ++ [lit " '" ++ sanitize setterName ++ lit "': "
                            ++ lit " (o, v) => o." ++ setterName ++ lit " = v "])
        [] bindMap.

Definition _generateGetters (eventProperties : list str) : list str :=
  foldl (λ getters property,
           if negb (isValid property) then getters ++ [lazyInvalidGetter property]
           else getters ++ [lit " '" ++ sanitize property ++ lit "': (o) => o."
                            ++ property])
        [] eventProperties.

(** [asMap] of the two visitors: [Map.fromIterable(queryFields, value: (_) =>
    'Object')]. *)
Definition asMap (queryFields : list str) : DartMap :=
  foldl (λ m field, put m field (lit "Object")) [] queryFields.

(** The loop of [createNgSettersAndGetters] over the registered types. *)
Fixpoint add_query_setters (types : list RegisteredType) (setters : list str)
  : failure + list str :=
  match types with
  | [] => inr setters
  | t :: rest =>
      match queryFieldsFromAnnotation t with
      | None => inl FormatException
      | Some fromAnnotation =>
          add_query_setters rest
            ((setters ++ _generateSetters (asMap fromAnnotation))
             ++ _generateSetters (asMap (queryFieldsFromPropMetadata t)))
      end
  end.

(** [createNgSettersAndGetters], from the parsed [NgDeps] on. *)
Definition createNgSettersAndGetters (ngDeps : NgDeps) : failure + str :=
  let setters := _generateSetters (_createPropertiesMap ngDeps) in
  let getters := _generateGetters (_createEventPropertiesList ngDeps) in
  match add_query_setters (registeredTypes ngDeps) setters with
  | inl e => inl e
  | inr setters =>
      if bool_decide (setters = []) && bool_decide (getters = []) then inr (code ngDeps)
      else
        match last (registeredTypes ngDeps) with
        | None => inl StateError
        | Some t =>
            let codeInjectIdx := registerMethod_end t in
            if decide (codeInjectIdx ≤ length (code ngDeps)) then
              inr (take codeInjectIdx (code ngDeps)
                   ++ (if bool_decide (setters = []) then []
                       else lit "..registerSetters({" ++ join setters (lit ", ")
                            ++ lit "})")
                   ++ (if bool_decide (getters = []) then []
                       else lit "..registerGetters({" ++ join getters (lit ", ")
                            ++ lit "})")
                   ++ drop codeInjectIdx (code ngDeps))
            else inl RangeError
        end
  end.
End Functions.

(** The occurrences of properties in the [properties] of the registered
    types, in order, each with the name of its type. *)
Definition property_occurrences (trim : str → str) (ngDeps : NgDeps) : list (str * str) :=
  t ← registeredTypes ngDeps;
  (λ config, (property_of trim config, typeName t)) <$> bindConfig t (lit "properties").

(** What the occurrences say a property is mapped to: nothing when it does
    not occur, the name of the type of its one occurrence, the empty string
    when it occurs more than once. *)
Definition by_occurrences (occ : list (str * str)) (p : str) : option str :=
  match filter (λ o, o.1 = p) occ with
  | [] => None
  | [o] => Some o.2
  | _ => Some []
  end.

End Generator.

(* ------------------------------------------------------------------ *)
(** * Bootstrapping an application (core/application.js)

    [bootstrap] builds the root injector the first time it is called, a
    child of the root for the application, a child of that for the bindings
    of the caller if there are any, and asks the application injector for
    the change detector.

    Data here, since they are built with di/binding.js, the reflection and
    the DOM modules, which are not part of the sources: the binding lists
    and the token of [ChangeDetector].  The module variable [_rootInjector]
    is passed in and handed back.  The model stops at the future that
    [asyncGet] answers; the callback that [bootstrap] chains to it calls
    into the change detector. *)

Section Bootstrap.
Variable toClass : nat → Binding.
Variable _rootBindings : list raw.
Variable _injectorBindings : nat → list raw.
Variable ChangeDetector : Token.

Definition bootstrap (fuel : nat) (_rootInjector : option nat) (appComponentType : nat)
    (bindings : option (list raw)) : M (nat * nat * jsval) :=
  let* _rootInjector :=
    (match _rootInjector with
     | None => new_Injector toClass _rootBindings None
     | Some root => ret root
     end) in
  let* appInjector :=
    createChild toClass _rootInjector (_injectorBindings appComponentType) in
  let* appInjector :=
    (match bindings with
     | Some bindings => createChild toClass appInjector bindings
     | None => ret appInjector
     end) in
  let* future := asyncGet fuel appInjector ChangeDetector in
  ret (_rootInjector, appInjector, future).
End Bootstrap.

(** Two applications on the sample bindings: the root provides [B], every
    application injector binds [A], which needs [B] and stands in for the
    change detector; the second application brings an empty binding list of
    its own. *)
Module Apps.
Definition boot : nat → option nat → nat → option (list raw) → M (nat * nat * jsval) :=
  bootstrap Sample.toClass [Sample.bind_to Sample.B Sample.fresh []]
            (λ _, [Sample.bind_to Sample.A Sample.fresh [Sample.eager Sample.B]]) (Tok 0).

Definition first : World := Sample.after (boot 5 None 0 None) Sample.start.
Definition second : World := Sample.after (boot 5 (Some 0) 0 (Some [])) first.
End Apps.

(* ------------------------------------------------------------------ *)
(** * Basic facts *)

(** ** Arrays *)

Lemma list_set_lookup {A} (d : A) (l : list A) (i j : nat) (x : A) :
  default d (list_set d l i x !! j) = if decide (i = j) then x else default d (l !! j).
Proof.
  unfold list_set. destruct (decide (i < length l)) as [Hi|Hi].
  - destruct (decide (i = j)) as [->|Hne].
    + by rewrite list_lookup_insert_eq.
    + by rewrite list_lookup_insert_ne.
  - destruct (decide (j < length l)) as [Hj|Hj].
    + rewrite lookup_app_l by done. destruct (decide (i = j)); [lia|done].
    + rewrite lookup_app_r by lia.
      rewrite (lookup_ge_None_2 l j) by lia. simpl.
      destruct (decide (j - length l < i - length l)) as [Hlt|Hge].
      * rewrite lookup_app_l by (rewrite length_replicate; lia).
        rewrite lookup_replicate_2 by done. simpl.
        destruct (decide (i = j)); [lia|done].
      * rewrite lookup_app_r by (rewrite length_replicate; lia).
        rewrite length_replicate.
        destruct (decide (i = j)) as [->|Hne].
        -- by replace (j - length l - (j - length l)) with 0 by lia.
        -- replace (j - length l - (i - length l)) with (S (j - i - 1)) by lia.
           done.
Qed.

Lemma list_set_length_le {A} (d : A) (l : list A) (i : nat) (x : A) :
  length l ≤ length (list_set d l i x).
Proof.
  unfold list_set. destruct (decide (i < length l)).
  - by rewrite length_insert.
  - rewrite length_app. lia.
Qed.

(** ** Slots *)

Lemma getInstance_lookup w I k :
  getInstance w I k = default VNull (_instances (the_injector w I) !! key_id k).
Proof.
  unfold getInstance. simpl. destruct (decide _) as [Hle|]; [|done].
  by rewrite lookup_ge_None_2.
Qed.

Lemma getBinding_lookup w I k :
  getBinding w I k = default None (_bindings (the_injector w I) !! key_id k).
Proof.
  unfold getBinding. simpl. destruct (decide _) as [Hle|]; [|done].
  by rewrite lookup_ge_None_2.
Qed.

Lemma the_injector_setInstance w I k v J :
  is_Some (injectors w !! I) →
  the_injector (setInstance I k v w) J =
  if decide (I = J)
  then set_instances (λ l, list_set VNull l (key_id k) v) (the_injector w J)
  else the_injector w J.
Proof.
  intros [inj Hinj]. unfold the_injector, setInstance. simpl.
  destruct (decide (I = J)) as [<-|Hne].
  - rewrite list_lookup_alter_eq, Hinj. done.
  - by rewrite list_lookup_alter_ne.
Qed.

Lemma the_injector_setInstance_ne w I k v J :
  I ≠ J → the_injector (setInstance I k v w) J = the_injector w J.
Proof.
  intros Hne. unfold the_injector, setInstance. simpl.
  by rewrite list_lookup_alter_ne.
Qed.

Lemma the_injector_same w w0 I :
  injectors w0 = injectors w → the_injector w0 I = the_injector w I.
Proof. intros E. unfold the_injector. by rewrite E. Qed.

Lemma getInstance_setInstance w I k v J k' :
  is_Some (injectors w !! I) →
  getInstance (setInstance I k v w) J k' =
  if decide (I = J ∧ key_id k = key_id k') then v else getInstance w J k'.
Proof.
  intros HI. rewrite !getInstance_lookup, the_injector_setInstance by done.
  destruct (decide (I = J)) as [->|Hne].
  - simpl. rewrite list_set_lookup.
    destruct (decide (key_id k = key_id k')); destruct (decide (_ ∧ _)); naive_solver.
  - destruct (decide (_ ∧ _)); naive_solver.
Qed.

Lemma getInstance_setInstance_eq w I k v :
  is_Some (injectors w !! I) → getInstance (setInstance I k v w) I k = v.
Proof.
  intros HI. rewrite getInstance_setInstance by done.
  destruct (decide _); naive_solver.
Qed.

Lemma getInstance_setInstance_ne w I k v J k' :
  ¬ (I = J ∧ key_id k = key_id k') →
  getInstance (setInstance I k v w) J k' = getInstance w J k'.
Proof.
  intros Hne. destruct (injectors w !! I) as [inj|] eqn:Hinj.
  - rewrite getInstance_setInstance by (by rewrite Hinj).
    destruct (decide _); naive_solver.
  - rewrite !getInstance_lookup. unfold the_injector, setInstance. simpl.
    destruct (decide (I = J)) as [<-|HIJ].
    + by rewrite list_lookup_alter_eq, Hinj.
    + by rewrite list_lookup_alter_ne.
Qed.

Lemma bindings_setInstance w I k v J :
  _bindings (the_injector (setInstance I k v w) J) = _bindings (the_injector w J).
Proof.
  unfold the_injector, setInstance. simpl.
  destruct (decide (I = J)) as [<-|HIJ].
  - rewrite list_lookup_alter_eq. by destruct (injectors w !! I).
  - by rewrite list_lookup_alter_ne.
Qed.

Lemma getBinding_setInstance w I k v J k' :
  getBinding (setInstance I k v w) J k' = getBinding w J k'.
Proof. by rewrite !getBinding_lookup, bindings_setInstance. Qed.

Lemma parent_setInstance w I k v J :
  _parent (the_injector (setInstance I k v w) J) = _parent (the_injector w J).
Proof.
  unfold the_injector, setInstance. simpl.
  destruct (decide (I = J)) as [<-|HIJ].
  - rewrite list_lookup_alter_eq. by destruct (injectors w !! I).
  - by rewrite list_lookup_alter_ne.
Qed.

Lemma injectors_setInstance_is_Some w I k v J :
  is_Some (injectors (setInstance I k v w) !! J) ↔ is_Some (injectors w !! J).
Proof.
  unfold setInstance. simpl. rewrite !lookup_lt_is_Some, length_alter. done.
Qed.

Lemma injectors_setInstance_ne w I k v J :
  I ≠ J → injectors (setInstance I k v w) !! J = injectors w !! J.
Proof. intros. unfold setInstance. simpl. by rewrite list_lookup_alter_ne. Qed.

(** ** The cache reads *)

Lemma read_cache_miss rf I k w w1 :
  read_cache rf I k w = Some (Ok VNull, w1) →
  w1 = w ∧ key_token k ≠ InjectorToken ∧
  (getInstance w I k = VNull ∨ (rf = false ∧ ∃ f, getInstance w I k = VWaiting f)).
Proof.
  unfold read_cache, sync_readFromCache, async_readFromCache, FutureWrapper_value.
  destruct rf; destruct (decide (key_token k = InjectorToken)); try discriminate;
    cbv [bind _getInstance gets ret throw new_future];
    destruct (getInstance w I k) eqn:Hslot; simpl; intros [= <-]; eauto 8.
Qed.

Lemma read_cache_miss_intro rf I k w :
  key_token k ≠ InjectorToken →
  getInstance w I k = VNull →
  read_cache rf I k w = Some (Ok VNull, w).
Proof.
  intros Htok Hslot.
  unfold read_cache, sync_readFromCache, async_readFromCache.
  destruct rf; destruct (decide (key_token k = InjectorToken)); try done;
    cbv [bind _getInstance gets ret]; by rewrite Hslot.
Qed.

Lemma read_cache_total rf I k w : ∃ r w1, read_cache rf I k w = Some (r, w1).
Proof.
  unfold read_cache, sync_readFromCache, async_readFromCache, FutureWrapper_value.
  destruct rf; destruct (decide (key_token k = InjectorToken));
    cbv [bind _getInstance gets ret throw new_future];
    destruct (getInstance w I k); simpl; eauto.
Qed.

(** ** Unfolding the lookup *)

Lemma _resolveDependencies_eq rec I k b fa w :
  _resolveDependencies rec I k b fa w =
  match mapM (λ d, rec I (dep_key d) (fa || asFuture d) (lazy d)) (dependencies b) w with
  | Some (Raise e, w') => Some (Raise (annotate e k), setInstance I k VNull w')
  | r => r
  end.
Proof. reflexivity. Qed.

Lemma instantiate_eq rec rf I k w :
  instantiate rec rf I k w =
  match getBinding w I k with
  | None => Some (Ok VNull, w)
  | Some b =>
      if negb rf && providedAsFuture b then Some (Raise (AsyncBindingError [k]), w)
      else bind (_resolveDependencies rec I k b rf) (finish rf I k b)
                (setInstance I k VConstructing w)
  end.
Proof.
  unfold instantiate, sync_instantiate, async_instantiate.
  cbv [bind _getBinding gets _markAsConstructing _setInstance modify].
  destruct rf; destruct (getBinding w I k) as [b|]; try reflexivity.
  simpl. destruct (providedAsFuture b); reflexivity.
Qed.

Lemma bind_ext {A B} (m : M A) (k k' : A → M B) w :
  (∀ a w1, k a w1 = k' a w1) → bind m k w = bind m k' w.
Proof. intros H. unfold bind. destruct (m w) as [[[a|e] w1]|]; auto. Qed.

Lemma _getByKey_S n I k rf rl w :
  _getByKey (S n) I k rf rl w =
  if rl then Some (Ok (VThunk I k rf), w)
  else match injectors w !! I with
       | None => None
       | Some _ =>
           bind (read_cache rf I k) (λ instance,
             if isPresent instance then ret instance
             else bind (instantiate (_getByKey n) rf I k) (λ instance,
               if isPresent instance then ret instance
               else ask_parent (_getByKey n) I k rf)) w
       end.
Proof.
  destruct rl; [reflexivity|].
  assert (∀ w1, bind (gets (λ w, _parent (the_injector w I)))
                  (λ parent, match parent with
                             | Some p => _getByKey n p k rf false
                             | None => throw (NoProviderError [k])
                             end) w1 = ask_parent (_getByKey n) I k rf w1) as Hpar.
  { intros w1. unfold ask_parent. cbv [bind gets].
    by destruct (_parent (the_injector w1 I)). }
  simpl. unfold bind at 1. unfold gets at 1.
  destruct (injectors w !! I); [|reflexivity].
  unfold read_cache, instantiate.
  destruct rf; apply bind_ext; intros v w1;
    (destruct (isPresent v); [reflexivity|]);
    apply bind_ext; intros v' w2;
    (destruct (isPresent v'); [reflexivity|]); apply Hpar.
Qed.

Lemma isPresent_false v : isPresent v = false → v = VNull.
Proof. by destruct v. Qed.

Lemma isPresent_true v : isPresent v = true → Ok v ≠ @Ok jsval VNull.
Proof. by destruct v. Qed.

(** ** From the function to the derivation *)

Lemma mapM_resolve (rec : nat → Key → bool → bool → M jsval) I fa :
  (∀ k rf rl w r w', rec I k rf rl w = Some (r, w') → lookup I k rf rl w r w') →
  ∀ ds w r w',
    mapM (λ d, rec I (dep_key d) (fa || asFuture d) (lazy d)) ds w = Some (r, w') →
    resolve I fa ds w r w'.
Proof.
  intros Hrec ds. induction ds as [|d ds IH]; intros w r w'; simpl.
  - intros [= <- <-]. constructor.
  - unfold bind at 1.
    destruct (rec I (dep_key d) _ _ w) as [[[v|e] w1]|] eqn:Hd; [| |done].
    + apply Hrec in Hd. unfold bind at 1.
      destruct (mapM _ ds w1) as [[[vs|e] w2]|] eqn:Hds; [| |done].
      * intros [= <- <-]. apply IH in Hds.
        by apply (resolve_cons _ _ _ _ _ _ _ (Ok vs) _ Hd).
      * intros [= <- <-]. apply IH in Hds.
        by apply (resolve_cons _ _ _ _ _ _ _ (Raise e) _ Hd).
    + intros [= <- <-]. apply Hrec in Hd. by constructor.
Qed.

Lemma _getByKey_lookup n : ∀ I k rf rl w r w',
  _getByKey n I k rf rl w = Some (r, w') → lookup I k rf rl w r w'.
Proof.
  induction n as [|n IH]; intros I k rf rl w r w'; [done|].
  rewrite _getByKey_S. destruct rl.
  { intros [= <- <-]. constructor. }
  destruct (injectors w !! I) as [inj|] eqn:HI; [|done].
  assert (is_Some (injectors w !! I)) as HI' by (by rewrite HI).
  unfold bind at 1.
  destruct (read_cache rf I k w) as [[[instance|e] w1]|] eqn:Hread; [| |done].
  2:{ intros [= <- <-]. apply lookup_local; [done| |done].
      by apply local_read. }
  destruct (isPresent instance) eqn:Hpres.
  { intros [= <- <-]. apply isPresent_true in Hpres.
    apply lookup_local; [done| |done]. by apply local_read. }
  apply isPresent_false in Hpres as ->.
  destruct (read_cache_miss _ _ _ _ _ Hread) as (-> & Htok & Hslot).
  unfold bind at 1. rewrite instantiate_eq.
  destruct (getBinding w I k) as [b|] eqn:Hb.
  2:{ simpl. unfold ask_parent.
      destruct (_parent (the_injector w I)) as [p|] eqn:Hp.
      - intros Hrec. apply IH in Hrec.
        eapply lookup_parent; [done| |done|done]. by apply local_unbound.
      - intros [= <- <-]. apply lookup_orphan; [done| |done].
        by apply local_unbound. }
  destruct (negb rf && providedAsFuture b) eqn:Hmode.
  { apply andb_true_iff in Hmode as [Hrf Hasync].
    apply negb_true_iff in Hrf as ->.
    intros [= <- <-]. apply lookup_local; [done| |done].
    by eapply local_async_only. }
  assert (rf = false → providedAsFuture b = false) as Hmode'.
  { intros ->. by destruct (providedAsFuture b). }
  unfold bind at 1. rewrite _resolveDependencies_eq.
  destruct (mapM _ (dependencies b) _) as [[[deps|e] wd]|] eqn:Hdeps; [| |done].
  2:{ intros [= <- <-]. apply mapM_resolve in Hdeps; [|by intros; apply IH].
      apply lookup_local; [done| |done]. by eapply local_deps_fail. }
  apply mapM_resolve in Hdeps; [|by intros; apply IH].
  destruct (finish rf I k b deps wd) as [[[v|e] w1]|] eqn:Hfin; [| |done].
  2:{ intros [= <- <-]. apply lookup_local; [done| |done]. by eapply local_built. }
  destruct (isPresent v) eqn:Hpres.
  { intros [= <- <-]. apply isPresent_true in Hpres.
    apply lookup_local; [done| |done]. by eapply local_built. }
  apply isPresent_false in Hpres as ->. unfold ask_parent.
  destruct (_parent (the_injector w1 I)) as [p|] eqn:Hp.
  - intros Hrec. apply IH in Hrec.
    eapply lookup_parent; [done| |done|done]. by eapply local_built.
  - intros [= <- <-]. apply lookup_orphan; [done| |done]. by eapply local_built.
Qed.

(** ** From the derivation to the function, with enough fuel *)

Lemma _getByKey_local_part n I k rf w :
  _getByKey (S n) I k rf false w =
  match injectors w !! I with
  | None => None
  | Some _ =>
      bind (local_part (_getByKey n) rf I k) (λ instance,
        if isPresent instance then ret instance
        else ask_parent (_getByKey n) I k rf) w
  end.
Proof.
  rewrite _getByKey_S. destruct (injectors w !! I); [|done].
  unfold local_part, bind.
  destruct (read_cache rf I k w) as [[[v|e] w1]|]; [|done|done].
  destruct (isPresent v) eqn:Hv; [|done]. simpl. by rewrite Hv.
Qed.

Lemma enough_max {A B} (f : nat → option A) (g : nat → option B) x y :
  enough f x → enough g y → ∃ n, ∀ m, n ≤ m → f m = Some x ∧ g m = Some y.
Proof.
  intros [n1 H1] [n2 H2]. exists (n1 `max` n2). intros m Hm.
  split; [apply H1|apply H2]; lia.
Qed.

Lemma lookup_complete :
  (∀ I k rf rl w r w', lookup I k rf rl w r w' →
     enough (λ m, _getByKey m I k rf rl w) (r, w')) ∧
  (∀ I k rf w r w', local I k rf w r w' →
     enough (λ m, local_part (_getByKey m) rf I k w) (r, w')) ∧
  (∀ I fa ds w r w', resolve I fa ds w r w' →
     enough (λ m, mapM (λ d, _getByKey m I (dep_key d) (fa || asFuture d) (lazy d)) ds w)
            (r, w')).
Proof.
  apply lookup_mutind.
  - intros I k rf w. exists 1. intros [|m] Hm; [lia|]. by rewrite _getByKey_S.
  - intros I k rf w r w1 [inj HI] _ [n IH] Hr. exists (S n).
    intros [|m] Hm; [lia|]. rewrite _getByKey_local_part, HI.
    unfold bind. rewrite IH by lia.
    destruct r as [v|e]; [|done]. destruct v; done.
  - intros I k rf w w1 [inj HI] _ [n IH] Hp. exists (S n).
    intros [|m] Hm; [lia|]. rewrite _getByKey_local_part, HI.
    unfold bind. rewrite IH by lia. simpl. unfold ask_parent. by rewrite Hp.
  - intros I k rf w w1 p r w2 [inj HI] _ Hloc Hp _ Hpar.
    destruct (enough_max _ _ _ _ Hloc Hpar) as [n Hn]. exists (S n).
    intros [|m] Hm; [lia|]. rewrite _getByKey_local_part, HI.
    destruct (Hn m) as [H1 H2]; [lia|].
    unfold bind. rewrite H1. simpl. unfold ask_parent. by rewrite Hp.
  - intros I k rf w r w1 Hread Hr. exists 0. intros m _.
    unfold local_part, bind. rewrite Hread.
    destruct r as [v|e]; [|done]. destruct v; done.
  - intros I k rf w Hread Hb. exists 0. intros m _.
    unfold local_part, bind. rewrite Hread. cbn [isPresent].
    by rewrite instantiate_eq, Hb.
  - intros I k w b Hread Hb Hasync. exists 0. intros m _.
    unfold local_part, bind. rewrite Hread. cbn [isPresent].
    by rewrite instantiate_eq, Hb, Hasync.
  - intros I k rf w b e wd Hread Hb Hmode _ [n IH]. exists n. intros m Hm.
    unfold local_part, bind. rewrite Hread. cbn [isPresent].
    rewrite instantiate_eq, Hb.
    replace (negb rf && providedAsFuture b) with false
      by (destruct rf; [done|by rewrite Hmode]).
    unfold bind. by rewrite _resolveDependencies_eq, IH.
  - intros I k rf w b deps wd r w1 Hread Hb Hmode _ [n IH] Hfin. exists n.
    intros m Hm. unfold local_part, bind. rewrite Hread. cbn [isPresent].
    rewrite instantiate_eq, Hb.
    replace (negb rf && providedAsFuture b) with false
      by (destruct rf; [done|by rewrite Hmode]).
    unfold bind. by rewrite _resolveDependencies_eq, IH.
  - intros I fa w. by exists 0.
  - intros I fa d ds w e w1 _ [n IH]. exists n. intros m Hm. simpl.
    unfold bind. by rewrite IH.
  - intros I fa d ds w v w1 r w2 _ Hd _ Hds.
    destruct (enough_max _ _ _ _ Hd Hds) as [n Hn]. exists n. intros m Hm.
    destruct (Hn m Hm) as [H1 H2]. simpl. unfold bind at 1. rewrite H1.
    unfold bind. rewrite H2. by destruct r.
Qed.

Lemma lookup_enough I k rf rl w r w' :
  lookup I k rf rl w r w' → ∃ n, ∀ m, n ≤ m → _getByKey m I k rf rl w = Some (r, w').
Proof. apply lookup_complete. Qed.

(** The answer does not depend on the fuel, once there is enough. *)
Lemma _getByKey_mono n m I k rf rl w x :
  _getByKey n I k rf rl w = Some x → n ≤ m → _getByKey m I k rf rl w = Some x.
Proof.
  intros Hn Hnm.
  enough (Hall : ∀ a b, a ≤ b → ∀ I k rf rl w x,
            _getByKey a I k rf rl w = Some x → _getByKey b I k rf rl w = Some x)
    by (by apply (Hall n m)).
  clear. intros a. induction a as [|a IH]; intros b Hab I k rf rl w x; [done|].
  destruct b as [|b]; [lia|]. rewrite !_getByKey_S.
  destruct rl; [done|]. destruct (injectors w !! I); [|done].
  assert (∀ rf I k w x, instantiate (_getByKey a) rf I k w = Some x →
                         instantiate (_getByKey b) rf I k w = Some x) as Hinst.
  { clear -IH Hab. intros rf I k w x. rewrite !instantiate_eq.
    destruct (getBinding w I k) as [bd|]; [|done].
    destruct (negb rf && providedAsFuture bd); [done|].
    unfold bind. rewrite !_resolveDependencies_eq.
    assert (∀ ds w x,
      mapM (λ d, _getByKey a I (dep_key d) (rf || asFuture d) (lazy d)) ds w = Some x →
      mapM (λ d, _getByKey b I (dep_key d) (rf || asFuture d) (lazy d)) ds w = Some x)
      as Hmap.
    { intros ds. induction ds as [|d ds IHds]; intros w0 x0; [done|]. simpl.
      unfold bind at 1 3.
      destruct (_getByKey a I (dep_key d) _ _ w0) as [[[v|e] w1]|] eqn:Hd; [| |done].
      - rewrite (IH b ltac:(lia) _ _ _ _ _ _ Hd). unfold bind.
        destruct (mapM _ ds w1) as [y|] eqn:Hds; [|done].
        by rewrite (IHds _ _ Hds).
      - by rewrite (IH b ltac:(lia) _ _ _ _ _ _ Hd). }
    destruct (mapM _ (dependencies bd) _) as [y|] eqn:Hds; [|done].
    by rewrite (Hmap _ _ _ Hds). }
  unfold bind at 1 3.
  destruct (read_cache rf I k w) as [[[v|e] w1]|]; [|done|done].
  destruct (isPresent v); [done|]. unfold bind.
  destruct (instantiate (_getByKey a) rf I k w1) as [y|] eqn:Hi; [|done].
  rewrite (Hinst _ _ _ _ _ Hi). destruct y as [[v'|e] w2]; [|done].
  destruct (isPresent v'); [done|]. unfold ask_parent.
  destruct (_parent (the_injector w2 I)); [|done]. apply IH. lia.
Qed.

(** ** What the primitives change *)

Lemma count_if_app {A} (f : A → bool) (l1 l2 : list A) :
  count_if f (l1 ++ l2) = count_if f l1 + count_if f l2.
Proof. induction l1 as [|x l1 IH]; simpl; [done|]. rewrite IH. lia. Qed.

Lemma extends_refl w : extends w w.
Proof. split; try done; [exists []; by rewrite app_nil_r|by exists []]. Qed.

Lemma extends_trans w1 w2 w3 : extends w1 w2 → extends w2 w3 → extends w1 w3.
Proof.
  intros [K1 L1 B1 P1 [f1 F1] [c1 C1]] [K2 L2 B2 P2 [f2 F2] [c2 C2]]. split.
  - congruence.
  - congruence.
  - intros J. by rewrite B2.
  - intros J. by rewrite P2.
  - exists (f1 ++ f2). by rewrite F2, F1, app_assoc.
  - exists (c2 ++ c1). by rewrite C2, C1, app_assoc.
Qed.

Lemma extends_setInstance I k v w : extends w (setInstance I k v w).
Proof.
  split; simpl.
  - done.
  - by rewrite length_alter.
  - intros J. apply bindings_setInstance.
  - intros J. apply parent_setInstance.
  - exists []. by rewrite app_nil_r.
  - by exists [].
Qed.

Lemma extends_add_future c w : extends w (add_future c w).
Proof. split; simpl; try done; [by exists [c]|by exists []]. Qed.

Lemma extends_add_call I k w : extends w (add_call I k w).
Proof.
  split; simpl; try done; [exists []; by rewrite app_nil_r|by exists [(I, key_id k)]].
Qed.

Lemma extends_is_Some w w' J :
  extends w w' → is_Some (injectors w' !! J) ↔ is_Some (injectors w !! J).
Proof. intros E. rewrite !lookup_lt_is_Some. by rewrite (ext_length _ _ E). Qed.

Lemma extends_getBinding w w' J k :
  extends w w' → getBinding w' J k = getBinding w J k.
Proof. intros E. by rewrite !getBinding_lookup, (ext_bindings _ _ E). Qed.

Lemma extends_wf_parents w w' : extends w w' → wf_parents w → wf_parents w'.
Proof.
  intros E Hwf J inj p HJ Hp.
  assert (is_Some (injectors w !! J)) as [inj0 HJ0].
  { apply (extends_is_Some _ _ _ E). by rewrite HJ. }
  apply (Hwf J inj0 p HJ0).
  pose proof (ext_parent _ _ E J) as HP. unfold the_injector in HP.
  rewrite HJ, HJ0 in HP. simpl in HP. congruence.
Qed.

(** ** What a cache read and the end of [instantiate] do to the world *)

Lemma read_cache_inv rf I k w r w1 :
  read_cache rf I k w = Some (r, w1) →
  w1 = w ∨
  (rf = true ∧ ∃ v, r = Ok (VFuture (length (futures w))) ∧
                    w1 = add_future (mkFuture KValue (Resolved v)) w).
Proof.
  unfold read_cache, sync_readFromCache, async_readFromCache, FutureWrapper_value.
  destruct rf; destruct (decide (key_token k = InjectorToken));
    cbv [bind _getInstance gets ret throw new_future];
    destruct (getInstance w I k); simpl; intros [= <- <-]; eauto 8.
Qed.

Lemma finish_inv rf I k b deps w r w1 :
  finish rf I k b deps w = Some (r, w1) ↔ finished I k b deps w rf r w1.
Proof.
  split.
  - destruct rf.
    + unfold finish, FutureWrapper_wait.
      cbv [bind new_future _setInstance modify ret]. simpl.
      rewrite !length_app. simpl.
      replace (length (futures w) + 1 + 1 + 1) with (length (futures w) + 3) by lia.
      replace (length (futures w) + 1 + 1) with (length (futures w) + 2) by lia.
      intros [= <- <-]. apply finished_async.
    + unfold finish, sync_createInstance, call_factory.
      cbv [bind log_call new_future _setInstance _clear modify ret throw]. simpl.
      destruct (factory b (length (calls w)) deps) eqn:Hf; simpl;
        intros [= <- <-]; by constructor.
  - destruct 1.
    + unfold finish, sync_createInstance, call_factory.
      cbv [bind log_call new_future _setInstance _clear modify ret throw]. simpl.
      by rewrite H.
    + unfold finish, sync_createInstance, call_factory.
      cbv [bind log_call new_future _setInstance _clear modify ret throw]. simpl.
      by rewrite H.
    + unfold finish, sync_createInstance, call_factory.
      cbv [bind log_call new_future _setInstance _clear modify ret throw]. simpl.
      by rewrite H.
    + unfold finish, FutureWrapper_wait.
      cbv [bind new_future _setInstance modify ret]. simpl.
      rewrite !length_app. simpl. subst n.
      replace (length (futures w) + 1 + 1 + 1) with (length (futures w) + 3) by lia.
      replace (length (futures w) + 1 + 1) with (length (futures w) + 2) by lia.
      done.
Qed.

Lemma read_cache_extends rf I k w r w1 :
  read_cache rf I k w = Some (r, w1) → extends w w1.
Proof.
  intros H. destruct (read_cache_inv _ _ _ _ _ _ H) as [->|(_ & v & _ & ->)].
  - apply extends_refl.
  - apply extends_add_future.
Qed.

Lemma finished_extends I k b deps w rf r w1 :
  finished I k b deps w rf r w1 → extends w w1.
Proof.
  destruct 1;
    repeat first [ apply extends_refl
                 | (eapply extends_trans; [|apply extends_setInstance])
                 | (eapply extends_trans; [|apply extends_add_future])
                 | (eapply extends_trans; [|apply extends_add_call]) ].
Qed.

Lemma lookup_extends :
  (∀ I k rf rl w r w', lookup I k rf rl w r w' → extends w w') ∧
  (∀ I k rf w r w', local I k rf w r w' → extends w w') ∧
  (∀ I fa ds w r w', resolve I fa ds w r w' → extends w w').
Proof.
  apply lookup_mutind; intros; eauto using extends_refl, extends_trans,
    read_cache_extends, extends_setInstance.
  eapply extends_trans; [apply extends_setInstance|].
  eapply extends_trans; [done|].
  eapply finished_extends. by apply finish_inv.
Qed.

Lemma lookup_extends_world I k rf rl w r w' : lookup I k rf rl w r w' → extends w w'.
Proof. apply lookup_extends. Qed.

Lemma local_extends I k rf w r w' : local I k rf w r w' → extends w w'.
Proof. apply lookup_extends. Qed.

Lemma resolve_extends I fa ds w r w' : resolve I fa ds w r w' → extends w w'.
Proof. apply lookup_extends. Qed.

(** ** Lookups leave the descendants alone *)

Lemma wf_parents_lt w I p :
  wf_parents w → _parent (the_injector w I) = Some p → p < I.
Proof.
  intros Hwf Hp. unfold the_injector in Hp.
  destruct (injectors w !! I) as [inj|] eqn:HI; [|done]. by eapply Hwf.
Qed.

Lemma finished_injectors_ne I k b deps w rf r w1 J :
  finished I k b deps w rf r w1 → I ≠ J → injectors w1 !! J = injectors w !! J.
Proof. destruct 1; intros Hne; by rewrite injectors_setInstance_ne. Qed.

Lemma read_cache_injectors rf I k w r w1 :
  read_cache rf I k w = Some (r, w1) → injectors w1 = injectors w.
Proof.
  intros H. by destruct (read_cache_inv _ _ _ _ _ _ H) as [->|(_ & v & _ & ->)].
Qed.

Lemma lookup_frame :
  (∀ I k rf rl w r w', lookup I k rf rl w r w' →
     wf_parents w → ∀ J, I < J → injectors w' !! J = injectors w !! J) ∧
  (∀ I k rf w r w', local I k rf w r w' →
     wf_parents w → ∀ J, I < J → injectors w' !! J = injectors w !! J) ∧
  (∀ I fa ds w r w', resolve I fa ds w r w' →
     wf_parents w → ∀ J, I < J → injectors w' !! J = injectors w !! J).
Proof.
  apply lookup_mutind.
  - done.
  - auto.
  - auto.
  - intros I k rf w w1 p r w2 _ Hloc IHloc Hp _ IHpar Hwf J HJ.
    assert (wf_parents w1) as Hwf1.
    { eapply extends_wf_parents; [|done]. by eapply local_extends. }
    rewrite IHpar; [by apply IHloc|done|].
    pose proof (wf_parents_lt _ _ _ Hwf1 Hp). lia.
  - intros I k rf w r w1 Hread _ _ J _. by rewrite (read_cache_injectors _ _ _ _ _ _ Hread).
  - done.
  - done.
  - intros I k rf w b e wd _ _ _ _ IH Hwf J HJ.
    rewrite injectors_setInstance_ne by lia.
    rewrite IH; [|by eapply extends_wf_parents; [apply extends_setInstance|]|done].
    apply injectors_setInstance_ne. lia.
  - intros I k rf w b deps wd r w1 _ _ _ _ IH Hfin Hwf J HJ.
    apply finish_inv in Hfin.
    rewrite (finished_injectors_ne _ _ _ _ _ _ _ _ J Hfin) by lia.
    rewrite IH; [|by eapply extends_wf_parents; [apply extends_setInstance|]|done].
    apply injectors_setInstance_ne. lia.
  - done.
  - auto.
  - intros I fa d ds w v w1 r w2 Hd IHd _ IHds Hwf J HJ.
    rewrite IHds; [by apply IHd| |done].
    eapply extends_wf_parents; [|done]. by eapply lookup_extends_world.
Qed.

(** ** A slot under construction is not touched by a lookup that succeeds *)

Lemma kept_refl I0 k0 w : getInstance w I0 k0 = VConstructing → kept I0 k0 w w.
Proof. intros H. split; [done|split; [done|]]. exists []. by rewrite app_nil_r. Qed.

Lemma kept_trans I0 k0 w1 w2 w3 : kept I0 k0 w1 w2 → kept I0 k0 w2 w3 → kept I0 k0 w1 w3.
Proof.
  intros (_ & C1 & l1 & F1 & T1) (M2 & C2 & l2 & F2 & T2).
  split; [done|split; [congruence|]]. exists (l1 ++ l2).
  split; [by rewrite F2, F1, app_assoc|by apply Forall_app].
Qed.

Lemma getInstance_same_id w I k k' :
  key_id k = key_id k' → getInstance w I k = getInstance w I k'.
Proof. intros E. by rewrite !getInstance_lookup, E. Qed.

Lemma invocations_add_call_ne I k w I0 i0 :
  ¬ (I = I0 ∧ key_id k = i0) →
  invocations (add_call I k w) I0 i0 = invocations w I0 i0.
Proof.
  intros Hne. unfold invocations. simpl.
  rewrite bool_decide_eq_false_2; [done|]. intros [= ? ?]. by apply Hne.
Qed.

Lemma invocations_add_call_eq I k w :
  invocations (add_call I k w) I (key_id k) = S (invocations w I (key_id k)).
Proof. unfold invocations. simpl. by rewrite bool_decide_eq_true_2. Qed.

Lemma miss_not_constructing rf I k w I0 k0 :
  read_cache rf I k w = Some (Ok VNull, w) →
  getInstance w I0 k0 = VConstructing →
  ¬ (I = I0 ∧ key_id k = key_id k0).
Proof.
  intros Hread Hm [-> E]. apply read_cache_miss in Hread as (_ & _ & Hslot).
  rewrite (getInstance_same_id _ _ _ _ E) in Hslot.
  destruct Hslot as [?|(_ & f & ?)]; congruence.
Qed.

Lemma finished_kept I k b deps w rf v w1 I0 k0 :
  finished I k b deps w rf (Ok v) w1 →
  ¬ (I = I0 ∧ key_id k = key_id k0) →
  getInstance w I0 k0 = VConstructing →
  kept I0 k0 w w1.
Proof.
  intros Hfin Hne Hm. unfold kept.
  inversion Hfin; subst; rewrite getInstance_setInstance_ne by done; simpl.
  - split; [done|]. split; [by apply invocations_add_call_ne|].
    exists []. by rewrite app_nil_r.
  - split; [done|]. split; [by apply invocations_add_call_ne|].
    eexists. split; [done|]. by repeat constructor.
  - split; [done|]. split; [done|]. eexists. rewrite <- !app_assoc.
    split; [done|]. repeat constructor; simpl.
    apply bool_decide_eq_false_2. naive_solver.
    apply bool_decide_eq_false_2. naive_solver.
Qed.

Lemma lookup_keeps_marker I0 k0 :
  (∀ I k rf rl w r w', lookup I k rf rl w r w' →
     getInstance w I0 k0 = VConstructing → ∀ v, r = Ok v → kept I0 k0 w w') ∧
  (∀ I k rf w r w', local I k rf w r w' →
     getInstance w I0 k0 = VConstructing → ∀ v, r = Ok v → kept I0 k0 w w') ∧
  (∀ I fa ds w r w', resolve I fa ds w r w' →
     getInstance w I0 k0 = VConstructing → ∀ vs, r = Ok vs → kept I0 k0 w w').
Proof.
  apply lookup_mutind.
  - intros. by apply kept_refl.
  - eauto.
  - done.
  - intros I k rf w w1 p r w2 _ _ IHloc _ _ IHpar Hm v ->.
    pose proof (IHloc Hm _ eq_refl) as K1.
    eapply kept_trans; [apply K1|]. eapply IHpar; [apply K1|done].
  - intros I k rf w r w1 Hread _ Hm v ->.
    destruct (read_cache_inv _ _ _ _ _ _ Hread) as [->|(_ & v' & _ & ->)].
    + by apply kept_refl.
    + split; [exact Hm|split; [reflexivity|]]. eexists. split; [reflexivity|].
      by repeat constructor.
  - intros. by apply kept_refl.
  - done.
  - done.
  - intros I k rf w b deps wd r w1 Hread _ _ _ IH Hfin Hm v ->.
    pose proof (miss_not_constructing _ _ _ _ _ _ Hread Hm) as Hne.
    assert (getInstance (setInstance I k VConstructing w) I0 k0 = VConstructing) as Hm'.
    { by rewrite getInstance_setInstance_ne. }
    pose proof (IH Hm' _ eq_refl) as K1.
    assert (kept I0 k0 w (setInstance I k VConstructing w)) as K0.
    { split; [exact Hm'|split; [reflexivity|]]. exists []. by rewrite app_nil_r. }
    eapply kept_trans; [apply K0|]. eapply kept_trans; [apply K1|].
    apply finish_inv in Hfin. eapply finished_kept; [done|done|apply K1].
  - intros. by apply kept_refl.
  - done.
  - intros I fa d ds w v w1 r w2 _ IHd _ IHds Hm vs Hr.
    destruct r as [vs'|e]; [|done].
    pose proof (IHd Hm _ eq_refl) as K1.
    eapply kept_trans; [apply K1|]. eapply IHds; [apply K1|done].
Qed.

(** ** No lookup leaves a construction marker behind *)

Lemma getInstance_dangling w I k v k' :
  injectors w !! I = None → getInstance (setInstance I k v w) I k' = VNull.
Proof.
  intros HI. rewrite getInstance_lookup. unfold the_injector, setInstance. simpl.
  by rewrite list_lookup_alter_eq, HI.
Qed.

Lemma marker_after_set I k v w J k' :
  v ≠ VConstructing →
  getInstance (setInstance I k v w) J k' = VConstructing →
  getInstance w J k' = VConstructing ∧ ¬ (I = J ∧ key_id k = key_id k').
Proof.
  intros Hv Hm. destruct (decide (I = J ∧ key_id k = key_id k')) as [[-> E]|Hne].
  - destruct (injectors w !! J) as [inj|] eqn:HJ.
    + rewrite getInstance_setInstance in Hm by (by rewrite HJ).
      destruct (decide _); naive_solver.
    + by rewrite getInstance_dangling in Hm.
  - by rewrite getInstance_setInstance_ne in Hm.
Qed.

Lemma finished_marker I k b deps w rf r w1 J k' :
  finished I k b deps w rf r w1 →
  getInstance w1 J k' = VConstructing →
  getInstance w J k' = VConstructing ∧ ¬ (I = J ∧ key_id k = key_id k').
Proof.
  destruct 1 as [u _|o _|e _|n]; intros Hm;
    apply marker_after_set in Hm; try done. by destruct u.
Qed.

Lemma lookup_no_new_marker :
  (∀ I k rf rl w r w', lookup I k rf rl w r w' →
     ∀ J k', getInstance w' J k' = VConstructing → getInstance w J k' = VConstructing) ∧
  (∀ I k rf w r w', local I k rf w r w' →
     ∀ J k', getInstance w' J k' = VConstructing → getInstance w J k' = VConstructing) ∧
  (∀ I fa ds w r w', resolve I fa ds w r w' →
     ∀ J k', getInstance w' J k' = VConstructing → getInstance w J k' = VConstructing).
Proof.
  apply lookup_mutind.
  - done.
  - auto.
  - auto.
  - intros I k rf w w1 p r w2 _ _ IH1 _ _ IH2 J k' Hm. auto.
  - intros I k rf w r w1 Hread _ J k' Hm.
    by destruct (read_cache_inv _ _ _ _ _ _ Hread) as [->|(_ & v' & _ & ->)].
  - done.
  - done.
  - intros I k rf w b e wd _ _ _ _ IH J k' Hm.
    apply marker_after_set in Hm as [Hm Hne]; [|done].
    apply IH in Hm. by rewrite getInstance_setInstance_ne in Hm.
  - intros I k rf w b deps wd r w1 _ _ _ _ IH Hfin J k' Hm.
    apply finish_inv in Hfin.
    destruct (finished_marker _ _ _ _ _ _ _ _ _ _ Hfin Hm) as [Hm' Hne].
    apply IH in Hm'. by rewrite getInstance_setInstance_ne in Hm'.
  - done.
  - auto.
  - intros I fa d ds w v w1 r w2 _ IH1 _ IH2 J k' Hm. auto.
Qed.

(** ** An asynchronous lookup runs no factory *)

Lemma lookup_async_no_calls :
  (∀ I k rf rl w r w', lookup I k rf rl w r w' → rf = true → calls w' = calls w) ∧
  (∀ I k rf w r w', local I k rf w r w' → rf = true → calls w' = calls w) ∧
  (∀ I fa ds w r w', resolve I fa ds w r w' → fa = true → calls w' = calls w).
Proof.
  apply lookup_mutind.
  - done.
  - auto.
  - auto.
  - intros I k rf w w1 p r w2 _ _ IH1 _ _ IH2 Hrf. by rewrite IH2, IH1.
  - intros I k rf w r w1 Hread _ _.
    by destruct (read_cache_inv _ _ _ _ _ _ Hread) as [->|(_ & v' & _ & ->)].
  - done.
  - done.
  - intros I k rf w b e wd _ _ _ _ IH Hrf. simpl. by rewrite IH.
  - intros I k rf w b deps wd r w1 _ _ _ _ IH Hfin Hrf. subst rf.
    apply finish_inv in Hfin. inversion Hfin; subst. simpl. by rewrite IH.
  - done.
  - intros I fa d ds w e w1 _ IH Hfa. subst fa. by apply IH.
  - intros I fa d ds w v w1 r w2 _ IH1 _ IH2 Hfa. subst fa. by rewrite IH2, IH1.
Qed.

(** ** What a lookup can answer *)

Lemma read_cache_value rf I k w v w1 :
  read_cache rf I k w = Some (Ok v, w1) → v = VNull ∨ ordinary v.
Proof.
  unfold read_cache, sync_readFromCache, async_readFromCache, FutureWrapper_value, ordinary.
  destruct rf; destruct (decide (key_token k = InjectorToken));
    cbv [bind _getInstance gets ret throw new_future];
    destruct (getInstance w I k); simpl; intros [= <- <-]; auto.
Qed.

Lemma local_value I k rf w v w1 : local I k rf w (Ok v) w1 → v = VNull ∨ ordinary v.
Proof.
  inversion 1; subst.
  - by eapply read_cache_value.
  - by left.
  - match goal with H : finish _ _ _ _ _ _ = _ |- _ => apply finish_inv in H; inversion H; subst end.
    + destruct u; [by left|by right].
    + by right.
    + by right.
Qed.

Lemma lookup_value I k rf rl w v w' : lookup I k rf rl w (Ok v) w' → ordinary v.
Proof.
  remember (Ok v) as r eqn:Hr. intros H. revert v Hr.
  induction H as [I k rf w|I k rf w r w1 _ Hloc Hne| |I k rf w w1 p r w2 _ _ _ _ IH];
    intros v Hr.
  - injection Hr as <-. done.
  - subst r. destruct (local_value _ _ _ _ _ _ Hloc) as [->|]; done.
  - done.
  - by apply IH.
Qed.

(** ** The registry *)

Lemma Key_get_registered w t k : registered w t k → Key_get t w = Some (Ok k, w).
Proof. destruct k as [i t']. intros [Hi Ht]. simpl in *. subst t'. unfold Key_get. by rewrite Hi. Qed.

Lemma get_registered n w I t k :
  registered w t k → get n I t w = _getByKey n I k false false w.
Proof. intros Hr. unfold get, bind. by rewrite (Key_get_registered _ _ _ Hr). Qed.

Lemma asyncGet_registered n w I t k :
  registered w t k → asyncGet n I t w = _getByKey n I k true false w.
Proof. intros Hr. unfold asyncGet, bind. by rewrite (Key_get_registered _ _ _ Hr). Qed.

Lemma registered_extends w w' t k : extends w w' → registered w t k → registered w' t k.
Proof. intros E [Hi Ht]. split; [|done]. by rewrite (ext_keys _ _ E). Qed.

Lemma registered_token w t k : registered w t k → t ≠ InjectorToken → key_token k ≠ InjectorToken.
Proof. intros [_ ->]. done. Qed.

(** ** Delegation *)

Lemma passes_lookup w k D R rf r w' :
  tidy w → passes w k D R → key_token k ≠ InjectorToken →
  lookup R k rf false w r w' → lookup D k rf false w r w'.
Proof.
  intros [Htidy _] Hp Htok HR. induction Hp as [R|D P R HD Hb Hpar _ IH]; [done|].
  eapply lookup_parent; [done| |done|by apply IH].
  apply local_unbound; [|done]. apply read_cache_miss_intro; [done|]. by apply Htidy.
Qed.

Lemma lookup_det I k rf rl w r1 w1 r2 w2 :
  lookup I k rf rl w r1 w1 → lookup I k rf rl w r2 w2 → r1 = r2 ∧ w1 = w2.
Proof.
  intros H1 H2. apply lookup_enough in H1 as [n1 H1], H2 as [n2 H2].
  specialize (H1 (n1 `max` n2) ltac:(lia)). specialize (H2 (n1 `max` n2) ltac:(lia)).
  rewrite H1 in H2. by injection H2.
Qed.

Lemma passes_getByKey w k D R rf n x :
  tidy w → passes w k D R → key_token k ≠ InjectorToken →
  _getByKey n R k rf false w = Some x →
  ∃ m, ∀ m', m ≤ m' → _getByKey m' D k rf false w = Some x.
Proof.
  intros Htidy Hp Htok HR. destruct x as [r w']. apply _getByKey_lookup in HR.
  apply lookup_enough. by eapply passes_lookup.
Qed.

(* ------------------------------------------------------------------ *)
(** * The claims *)

(** ** Counting factory runs *)

Lemma extends_invocations w w' I i : extends w w' → invocations w I i ≤ invocations w' I i.
Proof.
  intros E. destruct (ext_calls _ _ E) as [l Hl]. unfold invocations.
  rewrite Hl, count_if_app. lia.
Qed.

Lemma extends_futures w w' g :
  extends w w' → g < length (futures w) → futures w' !! g = futures w !! g.
Proof.
  intros E Hg. destruct (ext_futures _ _ E) as [l ->]. by apply lookup_app_l.
Qed.

Lemma resolve_kept I0 k0 I fa ds w vs w' :
  resolve I fa ds w (Ok vs) w' → getInstance w I0 k0 = VConstructing → kept I0 k0 w w'.
Proof. intros H Hm. by eapply (proj2 (proj2 (lookup_keeps_marker I0 k0))). Qed.

(** The synchronous strategy, having marked the slot and resolved the
    dependencies, runs the factory of the slot exactly once. *)
Lemma sync_built_invocations w I k b deps wd r w1 :
  is_Some (injectors w !! I) →
  resolve I false (dependencies b) (setInstance I k VConstructing w) (Ok deps) wd →
  finish false I k b deps wd = Some (r, w1) →
  invocations w1 I (key_id k) = S (invocations w I (key_id k)).
Proof.
  intros HI Hres Hfin.
  assert (kept I k (setInstance I k VConstructing w) wd) as (_ & Hc & _).
  { eapply resolve_kept; [done|]. by apply getInstance_setInstance_eq. }
  apply finish_inv in Hfin. change (invocations (setInstance I k VConstructing w) I (key_id k))
    with (invocations w I (key_id k)) in Hc.
  inversion Hfin; subst;
    change (invocations (setInstance ?a ?b ?c ?w) ?x ?y) with (invocations w x y);
    try change (invocations (add_future ?c ?w) ?x ?y) with (invocations w x y);
    by rewrite invocations_add_call_eq, Hc.
Qed.

(** ** C10: a synchronous lookup while a future for the token is pending *)

(** C10.  While slot [t] of [I] holds the pending marker of an asynchronous
    resolution, a synchronous [get(t)] on [I] neither returns nor awaits that
    computation: the cache read is a miss that leaves the world alone; with a
    binding that is not async-only, [instantiate] goes on to resolve the
    dependencies and create the instance from a world in which the pending
    marker has been overwritten by the construction marker; and whenever this
    [get] answers, the factory of [t] has run once more, and every future
    that existed before, the pending one included, is as it was. *)
Theorem sync_get_ignores_pending w I t k b f n :
  registered w t k → t ≠ InjectorToken →
  is_Some (injectors w !! I) →
  getInstance w I k = VWaiting f →
  getBinding w I k = Some b →
  providedAsFuture b = false →
  sync_readFromCache I k w = Some (Ok VNull, w) ∧
  (∀ rec, sync_instantiate rec I k w =
          bind (_resolveDependencies rec I k b false) (sync_createInstance I k b)
               (setInstance I k VConstructing w)) ∧
  getInstance (setInstance I k VConstructing w) I k = VConstructing ∧
  (∀ v w', get n I t w = Some (Ok v, w') →
           invocations w I (key_id k) < invocations w' I (key_id k) ∧
           ∀ g, g < length (futures w) → futures w' !! g = futures w !! g).
Proof.
  intros Hreg Ht HI Hslot Hb Hsync.
  pose proof (registered_token _ _ _ Hreg Ht) as Htok.
  assert (sync_readFromCache I k w = Some (Ok VNull, w)) as Hread.
  { unfold sync_readFromCache. destruct (decide _); [done|].
    cbv [bind _getInstance gets]. by rewrite Hslot. }
  split; [done|]. split.
  { intros rec. pose proof (instantiate_eq rec false I k w) as Heq.
    rewrite Hb, Hsync in Heq. exact Heq. }
  split; [by apply getInstance_setInstance_eq|].
  intros v w'. rewrite (get_registered _ _ _ _ _ Hreg). intros Hget.
  apply _getByKey_lookup in Hget.
  split; [|intros g Hg; eapply extends_futures; [by eapply lookup_extends_world|done]].
  inversion Hget as [|? ? ? ? ? ? _ Hloc Hne|
                     |? ? ? ? w1 p ? ? _ Hloc Hp Hpar]; subst.
  - inversion Hloc as [? ? ? ? ? ? Hread' Hr| | | |
                       ? ? ? ? b' deps wd ? ? _ Hb' _ Hres Hfin]; subst.
    + change (read_cache false I k w) with (sync_readFromCache I k w) in Hread'.
      rewrite Hread in Hread'. by injection Hread' as <- <-.
    + congruence.
    + rewrite Hb in Hb'. injection Hb' as <-.
      rewrite (sync_built_invocations _ _ _ _ _ _ _ _ HI Hres Hfin). lia.
  - inversion Hloc as [? ? ? ? ? ? Hread' Hr| | | |
                       ? ? ? ? b' deps wd ? ? _ Hb' _ Hres Hfin]; subst.
    + done.
    + congruence.
    + rewrite Hb in Hb'. injection Hb' as <-.
      pose proof (sync_built_invocations _ _ _ _ _ _ _ _ HI Hres Hfin) as Hc.
      pose proof (extends_invocations _ _ I (key_id k) (lookup_extends_world _ _ _ _ _ _ _ Hpar)).
      lia.
Qed.

Lemma sync_get_ignores_pending_witness :
  sync_readFromCache 0 Sample.A Sample.pending_A = Some (Ok VNull, Sample.pending_A) ∧
  (∀ rec, sync_instantiate rec 0 Sample.A Sample.pending_A =
          bind (_resolveDependencies rec 0 Sample.A
                  (mkBinding Sample.A Sample.fresh [Sample.eager Sample.B] false) false)
               (sync_createInstance 0 Sample.A
                  (mkBinding Sample.A Sample.fresh [Sample.eager Sample.B] false))
               (setInstance 0 Sample.A VConstructing Sample.pending_A)) ∧
  getInstance (setInstance 0 Sample.A VConstructing Sample.pending_A) 0 Sample.A
  = VConstructing ∧
  (∀ v w', get 5 0 (Tok 0) Sample.pending_A = Some (Ok v, w') →
           invocations Sample.pending_A 0 (key_id Sample.A)
           < invocations w' 0 (key_id Sample.A) ∧
           ∀ g, g < length (futures Sample.pending_A) →
                futures w' !! g = futures Sample.pending_A !! g).
Proof.
  apply (sync_get_ignores_pending Sample.pending_A 0 (Tok 0) Sample.A
           (mkBinding Sample.A Sample.fresh [Sample.eager Sample.B] false) 7 5).
  - split; reflexivity.
  - discriminate.
  - vm_compute. eexists. reflexivity.
  - vm_compute. reflexivity.
  - vm_compute. reflexivity.
  - reflexivity.
Defined.

(** The run of that synchronous [get] on the sample world: it builds a second
    [A] (and a [B]) of its own while the futures stay pending. *)
Example sync_get_while_pending_runs :
  Sample.answer (get 5 0 (Tok 0)) Sample.pending_A = Some (Ok (VObj 1)) ∧
  Sample.slots (Sample.after (get 5 0 (Tok 0)) Sample.pending_A)
  = [[VObj 1; VObj 0; VNull]] ∧
  Sample.states (Sample.after (get 5 0 (Tok 0)) Sample.pending_A)
  = replicate 8 Pending.
Proof. vm_compute. done. Qed.

(** ** C6: a factory that returns [null] *)

Lemma null_result_step w I k b n :
  key_token k ≠ InjectorToken →
  is_Some (injectors w !! I) →
  getBinding w I k = Some b →
  providedAsFuture b = false →
  dependencies b = [] →
  (∀ m ds, factory b m ds = Returns UNull) →
  getInstance w I k = VNull →
  _parent (the_injector w I) = None →
  _getByKey (S n) I k false false w
  = Some (Raise (NoProviderError [k]),
          setInstance I k VNull (add_call I k (setInstance I k VConstructing w))).
Proof.
  intros Htok [inj HI] Hb Hsync Hdeps Hnull Hslot Hpar.
  rewrite _getByKey_S, HI. unfold bind at 1.
  rewrite read_cache_miss_intro by done. cbn [isPresent].
  unfold bind at 1. rewrite instantiate_eq, Hb, Hsync. cbn [negb andb].
  unfold bind at 1. rewrite _resolveDependencies_eq, Hdeps. cbn [mapM ret].
  assert (finish false I k b [] (setInstance I k VConstructing w)
          = Some (Ok VNull, setInstance I k VNull
                              (add_call I k (setInstance I k VConstructing w)))) as ->.
  { apply finish_inv. apply (finished_value _ _ _ _ _ UNull). apply Hnull. }
  cbn [isPresent]. unfold ask_parent.
  rewrite parent_setInstance.
  change (the_injector (add_call I k ?x) I) with (the_injector x I).
  by rewrite parent_setInstance, Hpar.
Qed.

(** C6, as amended.  A [null] that a factory returned is stored like any
    instance but reads as an empty slot.  For a root binding without
    dependencies whose factory returns [null]: [get(t)] runs the factory,
    leaves the slot empty and, taking the [null] for "no local binding",
    raises [NoProviderError]; a second [get(t)] misses the cache and runs the
    factory again. *)
Theorem null_result_reads_as_empty w I t k b n :
  registered w t k → t ≠ InjectorToken →
  is_Some (injectors w !! I) →
  getBinding w I k = Some b →
  providedAsFuture b = false →
  dependencies b = [] →
  (∀ m ds, factory b m ds = Returns UNull) →
  getInstance w I k = VNull →
  _parent (the_injector w I) = None →
  ∃ w1 w2,
    get (S n) I t w = Some (Raise (NoProviderError [k]), w1) ∧
    getInstance w1 I k = VNull ∧
    get (S n) I t w1 = Some (Raise (NoProviderError [k]), w2) ∧
    getInstance w2 I k = VNull ∧
    invocations w2 I (key_id k) = 2 + invocations w I (key_id k).
Proof.
  intros Hreg Ht HI Hb Hsync Hdeps Hnull Hslot Hpar.
  pose proof (registered_token _ _ _ Hreg Ht) as Htok.
  set (step := λ w, setInstance I k VNull (add_call I k (setInstance I k VConstructing w))).
  assert (∀ w, is_Some (injectors w !! I) → is_Some (injectors (step w) !! I)) as Hex.
  { intros w0 H0. unfold step. apply injectors_setInstance_is_Some.
    change (injectors (add_call I k ?x)) with (injectors x).
    by apply injectors_setInstance_is_Some. }
  assert (∀ w, is_Some (injectors w !! I) → getInstance (step w) I k = VNull) as Hempty.
  { intros w0 H0. unfold step. apply getInstance_setInstance_eq.
    change (injectors (add_call I k ?x)) with (injectors x).
    by apply injectors_setInstance_is_Some. }
  assert (∀ w, invocations (step w) I (key_id k) = S (invocations w I (key_id k))) as Hcount.
  { intros w0. unfold step.
    change (invocations (setInstance I k VNull ?x)) with (invocations x).
    by rewrite invocations_add_call_eq. }
  exists (step w), (step (step w)).
  rewrite (get_registered _ _ _ _ _ Hreg).
  rewrite (null_result_step w I k b n) by done.
  split; [done|]. split; [by apply Hempty|].
  assert (registered (step w) t k) as Hreg1 by exact Hreg.
  rewrite (get_registered _ _ _ _ _ Hreg1).
  assert (getBinding (step w) I k = Some b) as Hb1.
  { unfold step. rewrite getBinding_setInstance.
    change (getBinding (add_call I k ?x) I k) with (getBinding x I k).
    by rewrite getBinding_setInstance. }
  assert (_parent (the_injector (step w) I) = None) as Hpar1.
  { unfold step. rewrite parent_setInstance.
    change (the_injector (add_call I k ?x) I) with (the_injector x I).
    by rewrite parent_setInstance. }
  rewrite (null_result_step (step w) I k b n Htok (Hex _ HI) Hb1 Hsync Hdeps Hnull
             (Hempty _ HI) Hpar1).
  split; [done|]. split; [by apply Hempty, Hex|]. by rewrite !Hcount.
Qed.

Lemma null_result_reads_as_empty_witness :
  ∃ w1 w2,
    get 1 0 (Tok 0) Sample.null_root
    = Some (Raise (NoProviderError [Sample.A]), w1) ∧
    getInstance w1 0 Sample.A = VNull ∧
    get 1 0 (Tok 0) w1 = Some (Raise (NoProviderError [Sample.A]), w2) ∧
    getInstance w2 0 Sample.A = VNull ∧
    invocations w2 0 (key_id Sample.A) = 2 + invocations Sample.null_root 0 (key_id Sample.A).
Proof.
  apply (null_result_reads_as_empty Sample.null_root 0 (Tok 0) Sample.A
           (mkBinding Sample.A Sample.null [] false) 0).
  - split; reflexivity.
  - discriminate.
  - vm_compute. eexists. reflexivity.
  - vm_compute. reflexivity.
  - reflexivity.
  - reflexivity.
  - reflexivity.
  - vm_compute. reflexivity.
  - vm_compute. reflexivity.
Defined.

(** The claim C6 as stated fails on the code.  On the child of the sample
    world, whose binding for [A] returns [null], [get(A)] succeeds (with the
    parent's instance); the child's slot for [A] is empty afterwards, not
    resolved; and the second [get(A)] runs the child's factory again. *)
Lemma null_is_not_a_resolved_value :
  let w1 := Sample.after (get 5 1 (Tok 0)) Sample.null_child in
  let w2 := Sample.after (get 5 1 (Tok 0)) w1 in
  Sample.answer (get 5 1 (Tok 0)) Sample.null_child = Some (Ok (VObj 1)) ∧
  getInstance w1 1 Sample.A = VNull ∧
  invocations w1 1 (key_id Sample.A) = 1 ∧
  Sample.answer (get 5 1 (Tok 0)) w1 = Some (Ok (VObj 1)) ∧
  invocations w2 1 (key_id Sample.A) = 2.
Proof. vm_compute. done. Qed.

(** ** C1: the cache after a successful [get] *)

Lemma sync_read_hit w I k v :
  key_token k ≠ InjectorToken →
  getInstance w I k = v → ordinary v →
  read_cache false I k w = Some (Ok v, w).
Proof.
  intros Htok Hslot (Hp & Hc & Hw). unfold read_cache, sync_readFromCache.
  destruct (decide _); [done|]. cbv [bind _getInstance gets]. rewrite Hslot.
  by rewrite Hc, Hp, Hw.
Qed.

Lemma finished_slot I k b deps w rf v w1 :
  is_Some (injectors w !! I) →
  finished I k b deps w rf (Ok v) w1 →
  rf = false → getInstance w1 I k = v.
Proof.
  intros HI Hfin ->. inversion Hfin; subst; by apply getInstance_setInstance_eq.
Qed.

(** What the injector found on its own is what its cache answers next. *)
Lemma local_hit_again w I k v w1 :
  is_Some (injectors w !! I) →
  local I k false w (Ok v) w1 → v ≠ VNull →
  read_cache false I k w1 = Some (Ok v, w1).
Proof.
  intros HI Hloc Hv.
  inversion Hloc as [? ? ? ? ? ? Hread Hr| | | |
                     ? ? ? ? b deps wd ? ? Hmiss Hb _ Hres Hfin]; subst.
  - destruct (read_cache_inv _ _ _ _ _ _ Hread) as [->|[? _]]; done.
  - done.
  - apply read_cache_miss in Hmiss as (_ & Htok & _).
    destruct (local_value _ _ _ _ _ _ Hloc) as [?|Hord]; [done|].
    apply sync_read_hit; [done| |done].
    apply finish_inv in Hfin. eapply finished_slot; [|done|done].
    apply (extends_is_Some _ _ _ (resolve_extends _ _ _ _ _ _ Hres)).
    by apply injectors_setInstance_is_Some.
Qed.

Lemma local_invocations w I k v w1 :
  is_Some (injectors w !! I) →
  local I k false w (Ok v) w1 →
  invocations w1 I (key_id k) ≤ S (invocations w I (key_id k)).
Proof.
  intros HI Hloc.
  inversion Hloc as [? ? ? ? ? ? Hread Hr| | | |
                     ? ? ? ? b deps wd ? ? Hmiss Hb _ Hres Hfin]; subst.
  - destruct (read_cache_inv _ _ _ _ _ _ Hread) as [->|[? _]]; [lia|done].
  - lia.
  - rewrite (sync_built_invocations _ _ _ _ _ _ _ _ HI Hres Hfin). lia.
Qed.

(** C1, as amended.  Let [t] be bound on [I] to a factory that does not
    return [null], and let a synchronous [get(t)] on [I] succeed with [v].
    Then every further [get(t)] on [I] answers the identical [v] from the
    slot list, changing nothing (so it runs no factory), and the first call
    ran the factory of the binding at most once. *)
Theorem cached_after_first_get w I t k b n v w1 :
  registered w t k →
  getBinding w I k = Some b →
  (∀ m ds, factory b m ds ≠ Returns UNull) →
  get n I t w = Some (Ok v, w1) →
  (∀ m, get (S m) I t w1 = Some (Ok v, w1)) ∧
  invocations w1 I (key_id k) ≤ S (invocations w I (key_id k)).
Proof.
  intros Hreg Hb Hnn. rewrite (get_registered _ _ _ _ _ Hreg). intros Hget.
  apply _getByKey_lookup in Hget.
  pose proof (lookup_extends_world _ _ _ _ _ _ _ Hget) as Hext.
  inversion Hget as [|? ? ? ? ? ? HI Hloc Hne|
                     |? ? ? ? w0 p ? ? HI Hloc Hp Hpar]; subst.
  - split; [|by eapply local_invocations].
    intros m. rewrite (get_registered _ _ _ _ _ (registered_extends _ _ _ _ Hext Hreg)).
    rewrite _getByKey_S.
    destruct (proj2 (extends_is_Some _ _ I Hext) HI) as [inj ->].
    unfold bind. rewrite (local_hit_again _ _ _ _ _ HI Hloc) by congruence.
    destruct (local_value _ _ _ _ _ _ Hloc) as [->|(-> & _)]; done.
  - exfalso.
    inversion Hloc as [? ? ? ? ? ? Hread Hr| | | |
                       ? ? ? ? b' deps wd ? ? _ Hb' _ Hres Hfin]; subst.
    + done.
    + congruence.
    + rewrite Hb in Hb'. injection Hb' as <-.
      apply finish_inv in Hfin. inversion Hfin as [u Hf Hu| | |]; subst.
      destruct u; [|done]. by apply Hnn in Hf.
Qed.

Lemma cached_after_first_get_witness :
  (∀ m, get (S m) 0 (Tok 0) (Sample.after (get 2 0 (Tok 0)) Sample.null_child)
        = Some (Ok (VObj 0), Sample.after (get 2 0 (Tok 0)) Sample.null_child)) ∧
  invocations (Sample.after (get 2 0 (Tok 0)) Sample.null_child) 0 (key_id Sample.A)
  ≤ S (invocations Sample.null_child 0 (key_id Sample.A)).
Proof.
  apply (cached_after_first_get Sample.null_child 0 (Tok 0) Sample.A
           (mkBinding Sample.A Sample.fresh [] false) 2 (VObj 0)).
  - split; reflexivity.
  - vm_compute. reflexivity.
  - discriminate.
  - vm_compute. reflexivity.
Defined.

(** The claim C1 as stated fails on the code.  The child of the sample world
    binds [A], and [get(A)] on it succeeds, twice, with the identical
    instance; yet the child's factory ran once in each call, and it is the
    parent's slot list that served the second call. *)
Lemma factory_runs_in_every_call :
  let w1 := Sample.after (get 5 1 (Tok 0)) Sample.null_child in
  let w2 := Sample.after (get 5 1 (Tok 0)) w1 in
  is_Some (getBinding Sample.null_child 1 Sample.A) ∧
  Sample.answer (get 5 1 (Tok 0)) Sample.null_child = Some (Ok (VObj 1)) ∧
  Sample.answer (get 5 1 (Tok 0)) w1 = Some (Ok (VObj 1)) ∧
  invocations Sample.null_child 1 (key_id Sample.A) = 0 ∧
  invocations w2 1 (key_id Sample.A) = 2 ∧
  Sample.slots w2 = [[VObj 1; VNull; VNull]; [VNull; VNull; VNull]].
Proof. vm_compute. repeat split; eauto. Qed.

(** ** C9: flattening keeps the last descriptor of every key *)

Lemma raw_ind' (P : raw → Prop) :
  (∀ b, P (RBinding b)) → (∀ t, P (RType t)) →
  (∀ l, Forall P l → P (RList l)) →
  (∀ t, P (RBuilder t)) → (∀ v, P (ROther v)) →
  ∀ r, P r.
Proof.
  intros HB HT HL HU HO.
  refine (fix IH (r : raw) : P r :=
            match r with
            | RBinding b => HB b
            | RType t => HT t
            | RList l =>
                HL l ((fix each (l : list raw) : Forall P l :=
                         match l return Forall P l with
                         | [] => List.Forall_nil P
                         | x :: l' => List.Forall_cons P x l' (IH x) (each l')
                         end) l)
            | RBuilder t => HU t
            | ROther v => HO v
            end).
Qed.

Lemma last_bound_app i ds1 ds2 :
  last_bound i (ds1 ++ ds2)
  = match last_bound i ds2 with Some d => Some d | None => last_bound i ds1 end.
Proof. unfold last_bound. by rewrite filter_app, last_app. Qed.

Lemma last_bound_singleton i d :
  last_bound i [d] = if decide (key_id (key d) = i) then Some d else None.
Proof.
  unfold last_bound. rewrite filter_cons, filter_nil. by destruct (decide _).
Qed.

Lemma flatten_one_spec toClass b : ∀ res,
  well_formed b = true →
  ∃ m, flatten_one toClass b res = inr m ∧
       ∀ i, m !! i = match last_bound i (descriptors toClass b) with
                     | Some d => Some d
                     | None => res !! i
                     end.
Proof.
  induction b as [b|t|l IH|t|v] using raw_ind'; intros res Hwf; try done.
  - eexists. split; [done|]. intros i. simpl. rewrite last_bound_singleton.
    destruct (decide _) as [<-|Hne].
    + by rewrite lookup_insert_eq.
    + by rewrite lookup_insert_ne.
  - eexists. split; [done|]. intros i. simpl. rewrite last_bound_singleton.
    destruct (decide _) as [<-|Hne].
    + by rewrite lookup_insert_eq.
    + by rewrite lookup_insert_ne.
  - revert res Hwf. induction IH as [|x l Hx _ IHl]; intros res Hwf.
    + exists res. by split.
    + simpl in Hwf. apply andb_true_iff in Hwf as [Hwx Hwl].
      destruct (Hx res Hwx) as (m1 & Hm1 & Hl1).
      destruct (IHl m1 Hwl) as (m2 & Hm2 & Hl2).
      exists m2. split.
      * change (flatten_one toClass (RList (x :: l)) res)
          with (match flatten_one toClass x res with
                | inl e => inl e
                | inr res' => flatten_one toClass (RList l) res'
                end).
        by rewrite Hm1.
      * intros i. rewrite Hl2. simpl. rewrite last_bound_app, Hl1.
        by destruct (last_bound i (flat_map _ l)).
Qed.

(** C9.  Flattening a nested binding list without invalid elements gives a
    map from key ids to descriptors in which every key id is mapped to the
    descriptor that comes last for it in the left-to-right traversal of the
    whole nested list (and ids that no descriptor targets are absent). *)
Theorem flatten_last_wins toClass (bindings : list raw) :
  forallb well_formed bindings = true →
  ∃ m, _flattenBindings toClass bindings ∅ = inr m ∧
       ∀ i, m !! i = last_bound i (flat_map (descriptors toClass) bindings).
Proof.
  intros Hwf.
  destruct (flatten_one_spec toClass (RList bindings) ∅ Hwf) as (m & Hm & Hl).
  exists m. split; [done|]. intros i. rewrite Hl. simpl.
  by destruct (last_bound i _).
Qed.

Lemma flatten_last_wins_witness :
  ∃ m, _flattenBindings Sample.toClass
         [Sample.bind_to Sample.A Sample.fresh [];
          RList [Sample.bind_to Sample.B Sample.fresh [];
                 RList [Sample.bind_to Sample.A Sample.null []]]] ∅ = inr m ∧
       ∀ i, m !! i = last_bound i
              (flat_map (descriptors Sample.toClass)
                 [Sample.bind_to Sample.A Sample.fresh [];
                  RList [Sample.bind_to Sample.B Sample.fresh [];
                         RList [Sample.bind_to Sample.A Sample.null []]]]).
Proof. apply flatten_last_wins. reflexivity. Defined.

(** The scenario of the specification: [[A, [B, [A']]]] keeps [A'] for the
    token of [A]. *)
Example flatten_nested_scenario :
  ∃ m, _flattenBindings Sample.toClass
         [Sample.bind_to Sample.A Sample.fresh [];
          RList [Sample.bind_to Sample.B Sample.fresh [];
                 RList [Sample.bind_to Sample.A Sample.null []]]] ∅ = inr m ∧
       m !! 0 = Some (mkBinding Sample.A Sample.null [] false) ∧
       m !! 1 = Some (mkBinding Sample.B Sample.fresh [] false) ∧
       m !! 2 = None.
Proof. eexists. split; [reflexivity|]. vm_compute. done. Qed.

(** ** Slots without a binding stay as they are *)

Lemma getBinding_same_id w I k k' :
  key_id k = key_id k' → getBinding w I k = getBinding w I k'.
Proof. intros E. by rewrite !getBinding_lookup, E. Qed.

Lemma bound_ne w I k b J k' :
  getBinding w I k = Some b → getBinding w J k' = None →
  ¬ (I = J ∧ key_id k = key_id k').
Proof. intros Hb Hn [-> E]. rewrite (getBinding_same_id _ _ _ _ E) in Hb. congruence. Qed.

Lemma finished_slot_ne I k b deps w rf r w1 J k' :
  finished I k b deps w rf r w1 →
  ¬ (I = J ∧ key_id k = key_id k') →
  getInstance w1 J k' = getInstance w J k'.
Proof. destruct 1; intros Hne; by rewrite getInstance_setInstance_ne. Qed.

Lemma lookup_unbound_slots :
  (∀ I k rf rl w r w', lookup I k rf rl w r w' →
     ∀ J k', getBinding w J k' = None → getInstance w' J k' = getInstance w J k') ∧
  (∀ I k rf w r w', local I k rf w r w' →
     ∀ J k', getBinding w J k' = None → getInstance w' J k' = getInstance w J k') ∧
  (∀ I fa ds w r w', resolve I fa ds w r w' →
     ∀ J k', getBinding w J k' = None → getInstance w' J k' = getInstance w J k').
Proof.
  apply lookup_mutind.
  - done.
  - auto.
  - auto.
  - intros I k rf w w1 p r w2 _ Hloc IH1 _ _ IH2 J k' Hn.
    rewrite IH2; [by apply IH1|].
    by rewrite (extends_getBinding _ _ _ _ (local_extends _ _ _ _ _ _ Hloc)).
  - intros I k rf w r w1 Hread _ J k' _.
    by destruct (read_cache_inv _ _ _ _ _ _ Hread) as [->|(_ & v' & _ & ->)].
  - done.
  - done.
  - intros I k rf w b e wd _ Hb _ _ IH J k' Hn.
    pose proof (bound_ne _ _ _ _ _ _ Hb Hn) as Hne.
    rewrite getInstance_setInstance_ne by done.
    rewrite IH by (by rewrite getBinding_setInstance).
    by rewrite getInstance_setInstance_ne.
  - intros I k rf w b deps wd r w1 _ Hb _ _ IH Hfin J k' Hn.
    pose proof (bound_ne _ _ _ _ _ _ Hb Hn) as Hne.
    apply finish_inv in Hfin.
    rewrite (finished_slot_ne _ _ _ _ _ _ _ _ _ _ Hfin Hne).
    rewrite IH by (by rewrite getBinding_setInstance).
    by rewrite getInstance_setInstance_ne.
  - done.
  - auto.
  - intros I fa d ds w v w1 r w2 Hd IH1 _ IH2 J k' Hn.
    rewrite IH2; [by apply IH1|].
    by rewrite (extends_getBinding _ _ _ _ (lookup_extends_world _ _ _ _ _ _ _ Hd)).
Qed.

(** ** Worlds stay tidy *)

Lemma aimed_at_bound_bindings w w' c :
  (∀ J k, getBinding w' J k = getBinding w J k) →
  aimed_at_bound w c → aimed_at_bound w' c.
Proof. intros E. unfold aimed_at_bound. destruct (kind c); try done; by rewrite E. Qed.

Lemma Forall_aimed_extends w w' l :
  extends w w' → Forall (aimed_at_bound w) l → Forall (aimed_at_bound w') l.
Proof.
  intros E Hall. eapply Forall_impl; [done|]. intros c. apply aimed_at_bound_bindings.
  intros J k. by apply extends_getBinding.
Qed.

Lemma finished_futures_aimed I k b deps w rf r w1 :
  finished I k b deps w rf r w1 →
  getBinding w I k ≠ None →
  Forall (aimed_at_bound w) (futures w) →
  Forall (aimed_at_bound w1) (futures w1).
Proof.
  intros Hfin Hb Hall.
  pose proof (finished_extends _ _ _ _ _ _ _ _ Hfin) as E.
  assert (getBinding w1 I k ≠ None) as Hb1 by (by rewrite (extends_getBinding _ _ _ _ E)).
  apply (Forall_aimed_extends _ _ _ E) in Hall.
  destruct Hfin; simpl in *; try done.
  - apply Forall_app. split; [done|]. by repeat constructor.
  - rewrite !Forall_app. repeat split; try done; by repeat constructor.
Qed.

Lemma lookup_futures_aimed :
  (∀ I k rf rl w r w', lookup I k rf rl w r w' →
     Forall (aimed_at_bound w) (futures w) → Forall (aimed_at_bound w') (futures w')) ∧
  (∀ I k rf w r w', local I k rf w r w' →
     Forall (aimed_at_bound w) (futures w) → Forall (aimed_at_bound w') (futures w')) ∧
  (∀ I fa ds w r w', resolve I fa ds w r w' →
     Forall (aimed_at_bound w) (futures w) → Forall (aimed_at_bound w') (futures w')).
Proof.
  apply lookup_mutind.
  - done.
  - auto.
  - auto.
  - auto.
  - intros I k rf w r w1 Hread _ Hall.
    destruct (read_cache_inv _ _ _ _ _ _ Hread) as [->|(_ & v' & _ & ->)]; [done|].
    simpl. apply Forall_app. split; [|by repeat constructor].
    eapply Forall_aimed_extends; [apply extends_add_future|done].
  - done.
  - done.
  - intros I k rf w b e wd _ _ _ _ IH Hall.
    apply (Forall_aimed_extends wd); [apply extends_setInstance|].
    apply IH. eapply Forall_aimed_extends; [apply extends_setInstance|done].
  - intros I k rf w b deps wd r w1 _ Hb _ Hres IH Hfin Hall.
    apply finish_inv in Hfin. eapply finished_futures_aimed; [done| |].
    + rewrite (extends_getBinding _ _ _ _ (resolve_extends _ _ _ _ _ _ Hres)).
      rewrite getBinding_setInstance. congruence.
    + apply IH. eapply Forall_aimed_extends; [apply extends_setInstance|done].
  - done.
  - auto.
  - auto.
Qed.

(** Every lookup leaves a tidy world tidy. *)
Lemma tidy_lookup I k rf rl w r w' : tidy w → lookup I k rf rl w r w' → tidy w'.
Proof.
  intros [Hs Hf] Hl. split.
  - intros J k' Hb.
    rewrite (extends_getBinding _ _ _ _ (lookup_extends_world _ _ _ _ _ _ _ Hl)) in Hb.
    rewrite (proj1 lookup_unbound_slots _ _ _ _ _ _ _ Hl) by done. by apply Hs.
  - by apply (proj1 lookup_futures_aimed _ _ _ _ _ _ _ Hl).
Qed.

Lemma tidy_local I k rf w r w' : tidy w → local I k rf w r w' → tidy w'.
Proof.
  intros [Hs Hf] Hl. split.
  - intros J k' Hb.
    rewrite (extends_getBinding _ _ _ _ (local_extends _ _ _ _ _ _ Hl)) in Hb.
    rewrite (proj1 (proj2 lookup_unbound_slots) _ _ _ _ _ _ Hl) by done. by apply Hs.
  - by apply (proj1 (proj2 lookup_futures_aimed) _ _ _ _ _ _ Hl).
Qed.

Lemma tidy_same w w0 :
  injectors w0 = injectors w → futures w0 = futures w → tidy w → tidy w0.
Proof.
  intros Ei Ef [Hs Hf].
  assert (∀ J k, getBinding w0 J k = getBinding w J k) as Hb.
  { intros J k. by rewrite !getBinding_lookup, (the_injector_same _ _ _ Ei). }
  split.
  - intros J k. rewrite Hb, !getInstance_lookup, (the_injector_same _ _ _ Ei),
      <- getInstance_lookup. apply Hs.
  - rewrite Ef. eapply Forall_impl; [done|]. intros c. by apply aimed_at_bound_bindings.
Qed.

(** A new injector leaves a tidy world tidy. *)
Lemma tidy_new_Injector toClass bindings parent w I w' :
  tidy w → new_Injector toClass bindings parent w = Some (Ok I, w') → tidy w'.
Proof.
  intros [Hs Hf]. unfold new_Injector.
  destruct (_flattenBindings toClass bindings ∅) as [e|m]; [done|].
  intros [= <- <-].
  set (new := mkInjector _ _ parent).
  assert (∀ J, J < length (injectors w) →
            the_injector (mkWorld (keys w) (injectors w ++ [new]) (futures w) (calls w)) J
            = the_injector w J) as Hold.
  { intros J HJ. unfold the_injector. simpl. by rewrite lookup_app_l. }
  assert (∀ J k, getBinding w J k ≠ None → J < length (injectors w)) as Hex.
  { intros J k Hb. apply lookup_lt_is_Some.
    destruct (injectors w !! J) eqn:HJ; [done|].
    exfalso. apply Hb. rewrite getBinding_lookup. unfold the_injector. by rewrite HJ. }
  split.
  - intros J k. rewrite !getBinding_lookup, !getInstance_lookup.
    destruct (decide (J < length (injectors w))) as [HJ|HJ].
    + rewrite Hold by done. rewrite <- getBinding_lookup, <- getInstance_lookup. apply Hs.
    + intros _. unfold the_injector. simpl. rewrite lookup_app_r by lia.
      destruct (J - length (injectors w)) as [|j]; simpl; [|done].
      unfold _createInstances.
      destruct (replicate _ VNull !! key_id k) as [v|] eqn:Hv; [|done].
      by apply lookup_replicate_1 in Hv as [-> _].
  - simpl. eapply Forall_impl; [done|]. intros c. unfold aimed_at_bound.
    destruct (kind c); try done; intros Hb;
      rewrite getBinding_lookup, Hold, <- getBinding_lookup; eauto.
Qed.

Lemma orphaned_extends w w' k I : extends w w' → orphaned w k I → orphaned w' k I.
Proof.
  intros E Ho. induction Ho as [I HI Hb Hp|I P HI Hb Hp _ IH].
  - apply orphaned_root.
    + by apply (extends_is_Some _ _ _ E).
    + by rewrite (extends_getBinding _ _ _ _ E).
    + by rewrite (ext_parent _ _ E).
  - eapply orphaned_up; [| | |done].
    + by apply (extends_is_Some _ _ _ E).
    + by rewrite (extends_getBinding _ _ _ _ E).
    + by rewrite (ext_parent _ _ E).
Qed.

Lemma passes_extends w w' k D R : extends w w' → passes w k D R → passes w' k D R.
Proof.
  intros E Hp. induction Hp as [R|D P R HD Hb Hpar _ IH]; [constructor|].
  eapply passes_up; [| | |done].
  - by apply (extends_is_Some _ _ _ E).
  - by rewrite (extends_getBinding _ _ _ _ E).
  - by rewrite (ext_parent _ _ E).
Qed.

(** ** Without a binding on the way up there is no provider *)

Lemma orphaned_lookup w k I rf :
  tidy w → key_token k ≠ InjectorToken → orphaned w k I →
  lookup I k rf false w (Raise (NoProviderError [k])) w.
Proof.
  intros [Hs _] Htok Ho. induction Ho as [I HI Hb Hp|I P HI Hb Hp _ IH].
  - apply lookup_orphan; [done| |done].
    apply local_unbound; [|done]. apply read_cache_miss_intro; [done|by apply Hs].
  - eapply lookup_parent; [done| |done|done].
    apply local_unbound; [|done]. apply read_cache_miss_intro; [done|by apply Hs].
Qed.

(** ** Sample worlds are tidy *)

Lemma tidy_start : tidy Sample.start.
Proof. split; [|constructor]. intros J k _. rewrite getInstance_lookup. by destruct J. Qed.

Lemma tidy_after_new toClass bindings parent w :
  tidy w → tidy (Sample.after (new_Injector toClass bindings parent) w).
Proof.
  intros Hw. unfold Sample.after.
  destruct (new_Injector toClass bindings parent w) as [[[I|e] w']|] eqn:Hnew; [|  |done].
  - by eapply tidy_new_Injector.
  - unfold new_Injector in Hnew.
    destruct (_flattenBindings toClass bindings ∅); [|done]. by injection Hnew as _ <-.
Qed.

Lemma tidy_family : tidy Sample.family.
Proof. repeat apply tidy_after_new. apply tidy_start. Qed.

Lemma tidy_async_only : tidy Sample.async_only.
Proof. apply tidy_after_new, tidy_start. Qed.

(** ** C8: a synchronous lookup of an async-only binding *)

(** C8.  In a tidy world, when the binding that a synchronous [get(t)]
    reaches (on the injector asked, or on the ancestor the lookup is
    delegated to) is provided as a future only and its slot is empty, the
    lookup raises [AsyncBindingError] for [t].
    The world it leaves is the world it started from: the error comes before
    the construction marker is written, and the slot of [t] is still empty. *)
Theorem async_only_binding_rejected w D I t k b :
  tidy w →
  registered w t k → t ≠ InjectorToken →
  passes w k D I →
  is_Some (injectors w !! I) →
  getBinding w I k = Some b →
  providedAsFuture b = true →
  getInstance w I k = VNull →
  ∃ n, ∀ m, n ≤ m → get m D t w = Some (Raise (AsyncBindingError [k]), w).
Proof.
  intros Htidy Hreg Ht Hpass HI Hb Hasync Hslot.
  pose proof (registered_token _ _ _ Hreg Ht) as Htok.
  assert (lookup D k false false w (Raise (AsyncBindingError [k])) w) as Hl.
  { eapply passes_lookup; [done|done|done|].
    apply lookup_local; [done| |done].
    eapply local_async_only; [|done|done]. by apply read_cache_miss_intro. }
  destruct (lookup_enough _ _ _ _ _ _ _ Hl) as [n Hn]. exists n. intros m Hm.
  rewrite (get_registered _ _ _ _ _ Hreg). by apply Hn.
Qed.

Lemma async_only_binding_rejected_witness :
  ∃ n, ∀ m, n ≤ m →
    get m 0 (Tok 1) Sample.async_only
    = Some (Raise (AsyncBindingError [Sample.B]), Sample.async_only).
Proof.
  apply (async_only_binding_rejected Sample.async_only 0 0 (Tok 1) Sample.B
           (mkBinding Sample.B Sample.fresh [] true)).
  - apply tidy_async_only.
  - split; reflexivity.
  - discriminate.
  - apply passes_here.
  - vm_compute. eexists. reflexivity.
  - vm_compute. reflexivity.
  - reflexivity.
  - vm_compute. reflexivity.
Defined.

(** ** C7: when a lookup ends in [NoProviderError] *)

Lemma Key_get_inv t w k w0 :
  Key_get t w = Some (Ok k, w0) → key_token k = t ∧ injectors w0 = injectors w.
Proof.
  unfold Key_get. destruct (index_of t (keys w)); intros [= <- <-]; done.
Qed.

Lemma orphaned_same w w0 k I :
  injectors w0 = injectors w → orphaned w k I → orphaned w0 k I.
Proof.
  intros E Ho. induction Ho as [I HI Hb Hp|I P HI Hb Hp _ IH].
  - apply orphaned_root.
    + by rewrite E.
    + by rewrite getBinding_lookup, (the_injector_same _ _ _ E), <- getBinding_lookup.
    + by rewrite (the_injector_same _ _ _ E).
  - eapply orphaned_up; [| | |done].
    + by rewrite E.
    + by rewrite getBinding_lookup, (the_injector_same _ _ _ E), <- getBinding_lookup.
    + by rewrite (the_injector_same _ _ _ E).
Qed.

Lemma passes_same w w0 k D R :
  injectors w0 = injectors w → passes w k D R → passes w0 k D R.
Proof.
  intros E Hp. induction Hp as [R|D P R HD Hb Hpar _ IH]; [constructor|].
  eapply passes_up; [| | |done].
  - by rewrite E.
  - by rewrite getBinding_lookup, (the_injector_same _ _ _ E), <- getBinding_lookup.
  - by rewrite (the_injector_same _ _ _ E).
Qed.

Lemma Key_get_futures t w k w0 : Key_get t w = Some (Ok k, w0) → futures w0 = futures w.
Proof. unfold Key_get. destruct (index_of t (keys w)); intros [= <- <-]; done. Qed.

(** C7, as amended.  In a tidy world, let [k] be the key of token [t], not
    the injector's own.  If neither [I] nor any ancestor has a binding for
    it, [get(t)] and [asyncGet(t)] on [I] raise [NoProviderError] for [k]
    and touch nothing but the registry.  If the nearest injector with a binding is [J], the
    lookup on [I] is delegated upward in the same mode and its outcome,
    answer and world, is that of the same lookup on [J], whatever that is. *)
Theorem no_provider_when_unbound w w0 I t k :
  tidy w →
  Key_get t w = Some (Ok k, w0) → t ≠ InjectorToken →
  (orphaned w k I →
     ∃ n, ∀ m, n ≤ m →
       get m I t w = Some (Raise (NoProviderError [k]), w0) ∧
       asyncGet m I t w = Some (Raise (NoProviderError [k]), w0)) ∧
  (∀ J, passes w k I J →
     (∀ n x, get n J t w = Some x → ∃ m, ∀ m', m ≤ m' → get m' I t w = Some x) ∧
     (∀ n x, asyncGet n J t w = Some x →
             ∃ m, ∀ m', m ≤ m' → asyncGet m' I t w = Some x)).
Proof.
  intros Htidy HK Ht. destruct (Key_get_inv _ _ _ _ HK) as [Hkt Hinj].
  assert (tidy w0) as Htidy0.
  { eapply tidy_same; [done| |done]. by eapply Key_get_futures. }
  assert (key_token k ≠ InjectorToken) as Htok by congruence.
  assert (∀ m J, get m J t w = _getByKey m J k false false w0) as Hget.
  { intros m J. unfold get, bind. by rewrite HK. }
  assert (∀ m J, asyncGet m J t w = _getByKey m J k true false w0) as Haget.
  { intros m J. unfold asyncGet, bind. by rewrite HK. }
  split.
  - intros Ho. apply (orphaned_same _ w0) in Ho; [|done].
    destruct (lookup_enough _ _ _ _ _ _ _ (orphaned_lookup _ _ _ false Htidy0 Htok Ho))
      as [n1 H1].
    destruct (lookup_enough _ _ _ _ _ _ _ (orphaned_lookup _ _ _ true Htidy0 Htok Ho))
      as [n2 H2].
    exists (n1 `max` n2). intros m Hm. rewrite Hget, Haget.
    split; [apply H1|apply H2]; lia.
  - intros J Hp. apply (passes_same _ w0) in Hp; [|done]. split.
    + intros n x. rewrite Hget. intros HJ.
      destruct (passes_getByKey _ _ _ _ _ _ _ Htidy0 Hp Htok HJ) as [m Hm].
      exists m. intros m' Hm'. rewrite Hget. by apply Hm.
    + intros n x. rewrite Haget. intros HJ.
      destruct (passes_getByKey _ _ _ _ _ _ _ Htidy0 Hp Htok HJ) as [m Hm].
      exists m. intros m' Hm'. rewrite Haget. by apply Hm.
Qed.

Lemma no_provider_when_unbound_witness :
  (orphaned Sample.family Sample.A 1 →
     ∃ n, ∀ m, n ≤ m →
       get m 1 (Tok 0) Sample.family
       = Some (Raise (NoProviderError [Sample.A]), Sample.family) ∧
       asyncGet m 1 (Tok 0) Sample.family
       = Some (Raise (NoProviderError [Sample.A]), Sample.family)) ∧
  (∀ J, passes Sample.family Sample.A 1 J →
     (∀ n x, get n J (Tok 0) Sample.family = Some x →
             ∃ m, ∀ m', m ≤ m' → get m' 1 (Tok 0) Sample.family = Some x) ∧
     (∀ n x, asyncGet n J (Tok 0) Sample.family = Some x →
             ∃ m, ∀ m', m ≤ m' → asyncGet m' 1 (Tok 0) Sample.family = Some x)).
Proof.
  apply (no_provider_when_unbound Sample.family Sample.family 1 (Tok 0) Sample.A).
  - apply tidy_family.
  - reflexivity.
  - discriminate.
Defined.

(** On the sample family the premises hold: nothing provides [A], and a
    lookup of [B] on a child passes to the root. *)
Example family_shape :
  orphaned Sample.family Sample.A 1 ∧ passes Sample.family Sample.B 2 0.
Proof.
  split.
  - eapply orphaned_up; [vm_compute; eauto|by vm_compute|by vm_compute|].
    apply orphaned_root; [vm_compute; eauto|by vm_compute|by vm_compute].
  - eapply passes_up; [vm_compute; eauto|by vm_compute|by vm_compute|].
    apply passes_here.
Qed.

(** The claim C7 as stated fails on the code, in its "only if" half: a
    token that is bound on the very injector asked can still end in
    [NoProviderError]; because a dependency has no provider, or because the
    factory returned [null], which the lookup takes for "no local binding". *)
Lemma bound_yet_no_provider :
  is_Some (getBinding Sample.missing_dep 0 Sample.A) ∧
  Sample.answer (get 5 0 (Tok 0)) Sample.missing_dep
  = Some (Raise (NoProviderError [Sample.B; Sample.A])) ∧
  is_Some (getBinding Sample.null_root 0 Sample.A) ∧
  Sample.answer (get 5 0 (Tok 0)) Sample.null_root
  = Some (Raise (NoProviderError [Sample.A])).
Proof. vm_compute. repeat split; eauto. Qed.

(** ** C3: delegation to the defining injector, and shadowing *)

Lemma sync_read_slot w I k v w1 :
  key_token k ≠ InjectorToken →
  read_cache false I k w = Some (Ok v, w1) → v ≠ VNull →
  getInstance w I k = v.
Proof.
  intros Htok. unfold read_cache, sync_readFromCache.
  destruct (decide _); [done|]. cbv [bind _getInstance gets ret throw].
  destruct (getInstance w I k); simpl; intros [= <- <-]; done.
Qed.

(** A successful lookup on an injector that binds the token, and either is
    the topmost provider or has a factory that does not return [null], is
    answered by that injector itself and ends with the answer in its slot. *)
Lemma bound_lookup_is_local w R k b v w1 :
  tidy w →
  key_token k ≠ InjectorToken →
  getBinding w R k = Some b →
  top_for w k R ∨ (∀ m ds, factory b m ds ≠ Returns UNull) →
  lookup R k false false w (Ok v) w1 →
  is_Some (injectors w !! R) ∧ local R k false w (Ok v) w1 ∧ v ≠ VNull.
Proof.
  intros Htidy Htok Hb Htop Hl.
  inversion Hl as [|? ? ? ? ? ? HI Hloc Hne|
                   |? ? ? ? w0 p ? ? HI Hloc Hp Hpar]; subst.
  { split; [done|]. split; [done|]. congruence. }
  exfalso. destruct Htop as [Htop|Hnn].
  - assert (orphaned w0 k p) as Ho.
    { eapply orphaned_extends; [by eapply local_extends|]. apply Htop.
      by rewrite <- (ext_parent _ _ (local_extends _ _ _ _ _ _ Hloc)). }
    pose proof (orphaned_lookup _ _ _ false (tidy_local _ _ _ _ _ _ Htidy Hloc) Htok Ho)
      as Hno.
    by destruct (lookup_det _ _ _ _ _ _ _ _ _ Hpar Hno).
  - inversion Hloc as [? ? ? ? ? ? Hread Hr| | | |
                       ? ? ? ? b' deps wd ? ? _ Hb' _ Hres Hfin]; subst.
    + done.
    + congruence.
    + rewrite Hb in Hb'. injection Hb' as <-.
      apply finish_inv in Hfin. inversion Hfin as [u Hf Hu| | |]; subst.
      destruct u; [|done]. by apply Hnn in Hf.
Qed.

(** C3, as amended.  In a tidy world, let injector [R] bind [t], and let it
    be the topmost provider of [t] or have a factory that does not return
    [null].  Let the lookups of [t] on [D1] and on [D2] pass to [R] (no
    injector in between binds [t]).  If [get(t)] succeeds on [R] with [v], then: [v] sits in the
    slot of [R]; [get(t)] on [D1] has the same outcome, answer and world; and
    a later [get(t)] on [D2] answers the identical [v] and changes nothing.
    With [R] a root this is delegation to the defining injector; with [R] a
    child that binds [t] again it is shadowing: the child's instance, in the
    child's slot, for the child and its descendants. *)
Theorem delegation_shares_instance w R D1 D2 t k b n v w1 :
  tidy w →
  registered w t k → t ≠ InjectorToken →
  getBinding w R k = Some b →
  top_for w k R ∨ (∀ m ds, factory b m ds ≠ Returns UNull) →
  passes w k D1 R → passes w k D2 R →
  get n R t w = Some (Ok v, w1) →
  getInstance w1 R k = v ∧
  (∃ m, ∀ m', m ≤ m' → get m' D1 t w = Some (Ok v, w1)) ∧
  (∃ m, ∀ m', m ≤ m' → get m' D2 t w1 = Some (Ok v, w1)).
Proof.
  intros Htidy Hreg Ht Hb Htop Hp1 Hp2.
  pose proof (registered_token _ _ _ Hreg Ht) as Htok.
  rewrite (get_registered _ _ _ _ _ Hreg). intros Hget.
  apply _getByKey_lookup in Hget.
  destruct (bound_lookup_is_local _ _ _ _ _ _ Htidy Htok Hb Htop Hget) as (HR & Hloc & Hv).
  pose proof (local_hit_again _ _ _ _ _ HR Hloc Hv) as Hread.
  pose proof (lookup_extends_world _ _ _ _ _ _ _ Hget) as Hext.
  pose proof (tidy_lookup _ _ _ _ _ _ _ Htidy Hget) as Htidy1.
  split; [by eapply sync_read_slot|]. split.
  - destruct (lookup_enough _ _ _ _ _ _ _
                (passes_lookup _ _ _ _ _ _ _ Htidy Hp1 Htok Hget)) as [m Hm].
    exists m. intros m' Hm'. rewrite (get_registered _ _ _ _ _ Hreg). by apply Hm.
  - assert (lookup R k false false w1 (Ok v) w1) as Hagain.
    { apply lookup_local; [|by apply local_read; [|congruence]|congruence].
      by apply (extends_is_Some _ _ _ Hext). }
    pose proof (passes_extends _ _ _ _ _ Hext Hp2) as Hp2'.
    destruct (lookup_enough _ _ _ _ _ _ _
                (passes_lookup _ _ _ _ _ _ _ Htidy1 Hp2' Htok Hagain)) as [m Hm].
    exists m. intros m' Hm'.
    rewrite (get_registered _ _ _ _ _ (registered_extends _ _ _ _ Hext Hreg)).
    by apply Hm.
Qed.

Lemma delegation_shares_instance_witness :
  getInstance (Sample.after (get 3 0 (Tok 1)) Sample.family) 0 Sample.B = VObj 0 ∧
  (∃ m, ∀ m', m ≤ m' →
     get m' 1 (Tok 1) Sample.family
     = Some (Ok (VObj 0), Sample.after (get 3 0 (Tok 1)) Sample.family)) ∧
  (∃ m, ∀ m', m ≤ m' →
     get m' 2 (Tok 1) (Sample.after (get 3 0 (Tok 1)) Sample.family)
     = Some (Ok (VObj 0), Sample.after (get 3 0 (Tok 1)) Sample.family)).
Proof.
  apply (delegation_shares_instance Sample.family 0 1 2 (Tok 1) Sample.B
           (mkBinding Sample.B Sample.fresh [] false) 3 (VObj 0)).
  - apply tidy_family.
  - split; reflexivity.
  - discriminate.
  - vm_compute. reflexivity.
  - left. intros P HP. vm_compute in HP. discriminate.
  - eapply passes_up; [vm_compute; eauto|by vm_compute|by vm_compute|].
    apply passes_here.
  - eapply passes_up; [vm_compute; eauto|by vm_compute|by vm_compute|].
    apply passes_here.
  - vm_compute. reflexivity.
Defined.

(** The claim C3 as stated fails on the code, in its shadowing half.  The
    child of the sample world binds [A] again, to a factory that returns
    [null]; [get(A)] on the child then answers the instance of the parent,
    which sits in the parent's slot, while the child's slot stays empty. *)
Lemma rebinding_child_gets_parent_instance :
  let w1 := Sample.after (get 5 1 (Tok 0)) Sample.null_child in
  is_Some (getBinding Sample.null_child 0 Sample.A) ∧
  is_Some (getBinding Sample.null_child 1 Sample.A) ∧
  _parent (the_injector Sample.null_child 1) = Some 0 ∧
  Sample.answer (get 5 1 (Tok 0)) Sample.null_child = Some (Ok (VObj 1)) ∧
  getInstance w1 0 Sample.A = VObj 1 ∧
  getInstance w1 1 Sample.A = VNull.
Proof. vm_compute. repeat split; eauto. Qed.

(** ** C2: cycles *)








(** What the run on the sample cycle gives: the error names the chain, and
    all slots are empty afterwards. *)
Example cycle_run :
  Sample.answer (get 5 0 (Tok 0)) Sample.cycle
  = Some (Raise (CyclicDependencyError [Sample.A; Sample.B; Sample.A])) ∧
  Sample.slots (Sample.after (get 5 0 (Tok 0)) Sample.cycle) = [[VNull; VNull; VNull]].
Proof. vm_compute. done. Qed.


(** ** C5: what a failure leaves behind *)

Lemma read_cache_raise rf I k w e w1 :
  read_cache rf I k w = Some (Raise e, w1) → getInstance w I k = VConstructing.
Proof.
  unfold read_cache, sync_readFromCache, async_readFromCache, FutureWrapper_value.
  destruct rf; destruct (decide (key_token k = InjectorToken)); try done;
    cbv [bind _getInstance gets ret throw new_future];
    destruct (getInstance w I k); simpl; try done.
Qed.

Lemma getInstance_injectors w w' I k :
  injectors w' !! I = injectors w !! I → getInstance w' I k = getInstance w I k.
Proof. intros E. rewrite !getInstance_lookup. unfold the_injector. by rewrite E. Qed.

Lemma built_is_Some I fa ds k v w r wd :
  is_Some (injectors w !! I) →
  resolve I fa ds (setInstance I k v w) r wd →
  is_Some (injectors wd !! I).
Proof.
  intros HI Hres. apply (extends_is_Some _ _ _ (resolve_extends _ _ _ _ _ _ Hres)).
  by apply injectors_setInstance_is_Some.
Qed.

Lemma local_null_slot w I k rf w1 :
  is_Some (injectors w !! I) →
  local I k rf w (Ok VNull) w1 →
  getInstance w I k = VNull → getInstance w1 I k = VNull.
Proof.
  intros HI Hloc Hslot.
  inversion Hloc as [? ? ? ? ? ? Hread Hr| | | |
                     ? ? ? ? b deps wd ? ? _ Hb _ Hres Hfin]; subst.
  - done.
  - done.
  - apply finish_inv in Hfin.
    inversion Hfin as [u Hf Hu Hnull Hw| | |].
    apply getInstance_setInstance_eq.
    change (is_Some (injectors wd !! I)). by eapply built_is_Some.
Qed.

Lemma failed_lookup_slot w I k rf e w' :
  wf_parents w →
  lookup I k rf false w (Raise e) w' →
  getInstance w I k = VNull → getInstance w' I k = VNull.
Proof.
  intros Hwf Hl Hslot.
  inversion Hl as [|? ? ? ? ? ? HI Hloc Hne|? ? ? ? ? HI Hloc Hp
                   |? ? ? ? w1 p ? ? HI Hloc Hp Hpar]; subst.
  - inversion Hloc as [? ? ? ? ? ? Hread Hr| |? ? ? ? Hmiss Hb Ha
                       |? ? ? ? b e0 wd Hmiss Hb _ Hres
                       |? ? ? ? b deps wd ? ? _ Hb _ Hres Hfin]; subst.
    + apply read_cache_raise in Hread. congruence.
    + done.
    + apply getInstance_setInstance_eq. by eapply built_is_Some.
    + apply finish_inv in Hfin. inversion Hfin; subst.
      apply getInstance_setInstance_eq.
      change (is_Some (injectors wd !! I)). by eapply built_is_Some.
  - by eapply local_null_slot.
  - rewrite (getInstance_injectors w1 w' I k); [by eapply local_null_slot|].
    assert (wf_parents w1) as Hwf1.
    { eapply extends_wf_parents; [|done]. by eapply local_extends. }
    apply (proj1 lookup_frame _ _ _ _ _ _ _ Hpar Hwf1).
    by eapply wf_parents_lt.
Qed.

Lemma settled_set_state f st w :
  is_Some (futures w !! f) →
  settled (set_state f st w) f
  = match st with
    | Resolved v => Some (inl v)
    | Rejected e => Some (inr e)
    | _ => None
    end.
Proof.
  intros [c Hc]. unfold settled, set_state. simpl.
  by rewrite list_lookup_alter_eq, Hc.
Qed.

(** Firing [_findOrCreate] when the factory throws. *)
Lemma fire_find_throws w f src I k b deps g e :
  futures w !! f = Some (mkFuture (KFind src I k b) Pending) →
  settled w src = Some (inl deps) →
  getInstance w I k = VWaiting g →
  is_Some (injectors w !! I) →
  factory b (length (calls w)) (as_list deps) = Throws e →
  ∃ w', fire f w = Some w' ∧
        getInstance w' I k = VNull ∧
        settled w' f = Some (inr (InstantiationError e [k])).
Proof.
  intros Hf Hsrc Hslot HI Hthrow. eexists. split; [|split].
  - unfold fire. rewrite Hf. simpl. rewrite Hsrc. simpl.
    unfold _findOrCreate, call_factory.
    cbv [bind _getInstance gets log_call _clear _setInstance modify ret throw].
    rewrite Hslot. simpl. rewrite Hthrow. simpl. reflexivity.
  - change (getInstance (set_state f ?st ?x) I k) with (getInstance x I k).
    by apply getInstance_setInstance_eq.
  - rewrite settled_set_state; [done|]. simpl. by rewrite Hf.
Qed.

(** Firing [_errorHandler] when an awaited dependency has failed. *)
Lemma fire_catch_fails w f src I k e :
  futures w !! f = Some (mkFuture (KCatch src I k) Pending) →
  settled w src = Some (inr e) →
  ∃ w', fire f w = Some w' ∧
        injectors w' = injectors w ∧
        settled w' f = Some (inr (_errorHandler k e)).
Proof.
  intros Hf Hsrc. eexists. split; [|split].
  - unfold fire. rewrite Hf. simpl. rewrite Hsrc. simpl. reflexivity.
  - done.
  - unfold settle. rewrite settled_set_state; [done|]. by rewrite Hf.
Qed.

(** Where the code rolls back, and where it does not.  (1) When [get(t)]
    fails, or [asyncGet(t)] fails before it has returned its future (cyclic
    dependency, missing provider, async-only binding, failing factory of the
    synchronous strategy), no slot holds a construction marker it did not
    hold before, and the slot of [t], empty before, is empty again.  (2) When
    [_findOrCreate] fires and the factory throws, the slot is cleared and the
    future fails with [InstantiationError].  (3) When an awaited dependency
    has failed, [_errorHandler] fails the future with the annotated error and
    writes no slot, unlike the [catch] of [_resolveDependencies], which
    clears the slot before it hands the error on. *)
Theorem rollback_on_failure :
  (∀ w I t k n e w',
     registered w t k → wf_parents w →
     get n I t w = Some (Raise e, w') ∨ asyncGet n I t w = Some (Raise e, w') →
     (∀ J k', getInstance w' J k' = VConstructing → getInstance w J k' = VConstructing) ∧
     (getInstance w I k = VNull → getInstance w' I k = VNull)) ∧
  (∀ w f src I k b deps g e,
     futures w !! f = Some (mkFuture (KFind src I k b) Pending) →
     settled w src = Some (inl deps) →
     getInstance w I k = VWaiting g →
     is_Some (injectors w !! I) →
     factory b (length (calls w)) (as_list deps) = Throws e →
     ∃ w', fire f w = Some w' ∧
           getInstance w' I k = VNull ∧
           settled w' f = Some (inr (InstantiationError e [k]))) ∧
  (∀ w f src I k e,
     futures w !! f = Some (mkFuture (KCatch src I k) Pending) →
     settled w src = Some (inr e) →
     ∃ w', fire f w = Some w' ∧
           injectors w' = injectors w ∧
           settled w' f = Some (inr (_errorHandler k e))).
Proof.
  split; [|split].
  - intros w I t k n e w' Hreg Hwf Hfail.
    assert (∃ rf, lookup I k rf false w (Raise e) w') as [rf Hl].
    { destruct Hfail as [H|H].
      - exists false. rewrite (get_registered _ _ _ _ _ Hreg) in H.
        by apply _getByKey_lookup in H.
      - exists true. rewrite (asyncGet_registered _ _ _ _ _ Hreg) in H.
        by apply _getByKey_lookup in H. }
    split.
    + intros J k'. by apply (proj1 lookup_no_new_marker _ _ _ _ _ _ _ Hl).
    + by eapply failed_lookup_slot.
  - apply fire_find_throws.
  - apply fire_catch_fails.
Qed.

(** The first two parts at work on a sample world. *)
Example rollback_runs :
  (let w' := Sample.after (get 5 0 (Tok 0)) Sample.failing_dep in
   Sample.answer (get 5 0 (Tok 0)) Sample.failing_dep
   = Some (Raise (InstantiationError 7 [Sample.B; Sample.A])) ∧
   Sample.slots w' = [[VNull; VNull; VNull]]) ∧
  (let w1 := Sample.after (asyncGet 5 0 (Tok 1)) Sample.failing_dep in
   let w2 := run [0; 1; 2; 3] w1 in
   Sample.slots w1 = [[VNull; VWaiting 3; VNull]] ∧
   Sample.slots w2 = [[VNull; VNull; VNull]] ∧
   settled w2 3 = Some (inr (InstantiationError 7 [Sample.B]))).
Proof. vm_compute. done. Qed.

(** C5.  The code does not do what the claim says, in asynchronous mode.  On
    the sample world [A] needs [B] and the factory of [B] throws.
    [asyncGet(A)] returns a future; once the event loop has run, that future
    has failed, and the slot of [A], which is on the failed construction
    chain, still holds the pending marker, while the slot of [B] was
    cleared. *)
Lemma pending_marker_survives_failure :
  let w1 := Sample.after (asyncGet 5 0 (Tok 0)) Sample.failing_dep in
  let w2 := run [0; 1; 2; 3; 4; 5; 6; 7] w1 in
  Sample.answer (asyncGet 5 0 (Tok 0)) Sample.failing_dep = Some (Ok (VFuture 7)) ∧
  settled w2 7 = Some (inr (InstantiationError 7 [Sample.B; Sample.A])) ∧
  getInstance w2 0 Sample.A = VWaiting 7 ∧
  getInstance w2 0 Sample.B = VNull.
Proof. vm_compute. done. Qed.

(** ** What firing a future does *)

Ltac fire_cases H :=
  unfold fire in H;
  match type of H with
  | context [futures ?w !! ?g] =>
      let c := fresh "c" in let Hc := fresh "Hc" in
      destruct (futures w !! g) as [c|] eqn:Hc; [|discriminate H];
      let kd := fresh "kd" in let st := fresh "st" in
      destruct c as [kd st]; simpl in H;
      destruct st; try discriminate H;
      [ destruct kd; try discriminate H | ]
  end.

Lemma fire_shaped_same g w c st wm :
  futures w !! g = Some c → is_pending st = false →
  futures wm = futures w → length (injectors wm) = length (injectors w) →
  (∀ J, _bindings (the_injector wm J) = _bindings (the_injector w J)) →
  fire_shaped g w (set_state g st wm).
Proof.
  intros Hc Hst Hf Hl Hb. exists c, st, wm, []. rewrite app_nil_r. by repeat split.
Qed.

Lemma fire_shaped_new g w c st wm o :
  futures w !! g = Some c → is_pending st = false →
  futures wm = futures w ++ [mkFuture (KUser o) Pending] →
  length (injectors wm) = length (injectors w) →
  (∀ J, _bindings (the_injector wm J) = _bindings (the_injector w J)) →
  fire_shaped g w (set_state g st wm).
Proof.
  intros Hc Hst Hf Hl Hb. exists c, st, wm, [mkFuture (KUser o) Pending].
  repeat split; try done. repeat constructor. by eexists.
Qed.

Lemma fire_shape g w w' : fire g w = Some w' → fire_shaped g w w'.
Proof.
  intros H. fire_cases H.
  - (* KUser *)
    destruct outcome as [o|]; [|done]. injection H as <-.
    eapply fire_shaped_same; [done| |done|done|done]. by destruct o.
  - (* KWait *)
    destruct (wait_all w deps) as [o|]; [|done]. injection H as <-.
    eapply fire_shaped_same; [done| |done|done|done]. by destruct o.
  - (* KCatch *)
    destruct (settled w src) as [o|]; [|done]. injection H as <-.
    eapply fire_shaped_same; [done| |done|done|done]. by destruct o.
  - (* KFind *)
    destruct (settled w src) as [[deps|e]|]; [| |done].
    + unfold _findOrCreate, call_factory in H.
      cbv [bind _getInstance gets log_call new_future _clear _setInstance modify ret throw]
        in H.
      destruct (_isWaiting (getInstance w inj k)) eqn:Hw; simpl in H.
      * destruct (factory b (length (calls w)) (as_list deps)) as [u|o|e]; simpl in H.
        -- destruct u; injection H as <-; by eapply fire_shaped_same.
        -- injection H as <-. by eapply fire_shaped_new.
        -- injection H as <-. eapply fire_shaped_same; [done|done|done| |].
           ++ simpl. by rewrite length_alter.
           ++ intros J. apply (bindings_setInstance (add_call inj k w)).
      * destruct (getInstance w inj k); try discriminate Hw; injection H as <-;
          by eapply fire_shaped_same.
    + injection H as <-. by eapply fire_shaped_same.
  - (* KCache *)
    destruct (settled w src) as [[v|e]|]; [| |done].
    + unfold _cacheInstance in H. cbv [bind _setInstance modify ret] in H.
      destruct v; injection H as <-;
        (eapply fire_shaped_same; [done|done|done| |]);
        try (simpl; by rewrite length_alter); intros J; apply bindings_setInstance.
    + injection H as <-. by eapply fire_shaped_same.
  - (* Following *)
    destruct (settled w g0) as [o|]; [|done]. injection H as <-.
    eapply fire_shaped_same; [done| |done|done|done]. by destruct o.
Qed.


(** Firing a future that is not both unfired and aimed at a slot leaves the
    slot and the count of its factory alone. *)
Lemma fire_other g w w' c I i :
  fire g w = Some w' →
  futures w !! g = Some c →
  targets I i c && is_pending (state c) = false →
  (∀ k, key_id k = i → getInstance w' I k = getInstance w I k) ∧
  invocations w' I i = invocations w I i.
Proof.
  intros H Hc Ht. unfold fire in H. rewrite Hc in H. simpl in H.
  destruct c as [kd st]. simpl in H.
  destruct st; try discriminate H; [destruct kd; try discriminate H|];
    unfold targets in Ht; simpl in Ht.
  - destruct outcome as [o|]; [|done]. by injection H as <-.
  - destruct (wait_all w deps) as [o|]; [|done]. by injection H as <-.
  - destruct (settled w src) as [o|]; [|done]. by injection H as <-.
  - rewrite andb_true_r in Ht. apply bool_decide_eq_false in Ht.
    destruct (settled w src) as [[deps|e]|]; [| |done]; [|by injection H as <-].
    unfold _findOrCreate, call_factory in H.
    cbv [bind _getInstance gets log_call new_future _clear _setInstance modify ret throw]
      in H.
    destruct (_isWaiting (getInstance w inj k)) eqn:Hw; simpl in H.
    + destruct (factory b (length (calls w)) (as_list deps)) as [u|o|e]; simpl in H.
      * destruct u; injection H as <-;
          (split; [done|]); by apply invocations_add_call_ne.
      * injection H as <-. split; [done|]. by apply invocations_add_call_ne.
      * injection H as <-. split.
        -- intros k' Hk'. apply (getInstance_setInstance_ne (add_call inj k w)).
           intros [-> E]. apply Ht. split; [done|congruence].
        -- by apply invocations_add_call_ne.
    + destruct (getInstance w inj k); try discriminate Hw; by injection H as <-.
  - rewrite andb_true_r in Ht. apply bool_decide_eq_false in Ht.
    destruct (settled w src) as [[v|e]|]; [| |done]; [|by injection H as <-].
    unfold _cacheInstance in H. cbv [bind _setInstance modify ret] in H.
    assert (∀ v0 k', key_id k' = i →
              getInstance (setInstance inj k v0 w) I k' = getInstance w I k') as Hs.
    { intros v0 k' Hk'. apply getInstance_setInstance_ne.
      intros [-> E]. apply Ht. split; [done|congruence]. }
    destruct v; injection H as <-; (split; [apply Hs|done]).
  - destruct (settled w g0) as [o|]; [|done]. by injection H as <-.
Qed.




(** Firing a future leaves a tidy world tidy. *)
Lemma tidy_fire g w w' : tidy w → fire g w = Some w' → tidy w'.
Proof.
  intros [Hs Hf] Hfire.
  destruct (fire_shape _ _ _ Hfire)
    as (c & st & wm & l & Hc & Hst & Hw' & Hfut & Hl & Hn & Hbind).
  assert (∀ J k, getBinding w' J k = getBinding w J k) as Hb.
  { intros J k. rewrite Hw', !getBinding_lookup. apply (f_equal (λ x, default None (x !! _))).
    apply Hbind. }
  split.
  - intros J k HJ. rewrite Hb in HJ.
    assert (targets J (key_id k) c && is_pending (state c) = false) as Hno.
    { destruct (targets J (key_id k) c) eqn:Ht; [|done]. exfalso.
      pose proof (Forall_lookup_1 _ _ _ _ Hf Hc) as Ha.
      unfold targets in Ht. unfold aimed_at_bound in Ha.
      destruct (kind c); try done; apply bool_decide_eq_true in Ht as [-> E];
        apply Ha; by rewrite (getBinding_same_id _ _ _ _ E). }
    destruct (fire_other _ _ _ _ J (key_id k) Hfire Hc Hno) as [Hslot _].
    rewrite Hslot by done. by apply Hs.
  - rewrite Hw'. simpl. rewrite Hfut. apply Forall_alter.
    + apply Forall_app. split.
      * eapply Forall_impl; [done|]. intros c'. apply aimed_at_bound_bindings.
        intros J k. rewrite <- Hw'. apply Hb.
      * eapply Forall_impl; [done|]. intros c' [o Ho]. unfold aimed_at_bound. by rewrite Ho.
    + intros c' _ Hc'. exact Hc'.
Qed.

Lemma tidy_run schedule : ∀ w, tidy w → tidy (run schedule w).
Proof.
  induction schedule as [|g rest IH]; intros w Hw; [done|]. simpl.
  destruct (fire g w) as [w'|] eqn:Hfire; simpl; apply IH; [|done].
  by eapply tidy_fire.
Qed.

(** ** One construction in flight *)







(** ** C4: two asynchronous lookups of one token *)






(** The scenario on the sample world: two [asyncGet(A)] in a row, then the
    event loop.  Both calls hold future 7; it settles with the one [A] that
    was built, and each factory has run once. *)
Example two_asyncGet_then_loop :
  let w1 := Sample.after (asyncGet 3 0 (Tok 0)) Sample.pair in
  let w2 := Sample.after (asyncGet 3 0 (Tok 0)) w1 in
  let w3 := run [0; 1; 2; 3; 4; 5; 6; 7] w2 in
  Sample.answer (asyncGet 3 0 (Tok 0)) Sample.pair = Some (Ok (VFuture 7)) ∧
  Sample.answer (asyncGet 3 0 (Tok 0)) w1 = Some (Ok (VFuture 7)) ∧
  settled w3 7 = Some (inl (VObj 1)) ∧
  Sample.slots w3 = [[VObj 1; VObj 0; VNull]] ∧
  invocations w3 0 (key_id Sample.A) = 1 ∧
  invocations w3 0 (key_id Sample.B) = 1.
Proof. vm_compute. done. Qed.

(* ------------------------------------------------------------------ *)
(** * Further properties of the lookups *)

(** ** What a lookup leaves alone *)

Lemma on_chain_extends w w' I J : extends w w' → on_chain w' I J → on_chain w I J.
Proof.
  intros E H. induction H as [I|I P J HP _ IH]; [constructor|].
  eapply on_chain_up; [|done]. by rewrite <- (ext_parent _ _ E).
Qed.

Lemma off_chain_ne w I J : ¬ on_chain w I J → I ≠ J.
Proof. intros H ->. apply H. constructor. Qed.

Lemma off_chain_extends w w' I J : extends w w' → ¬ on_chain w I J → ¬ on_chain w' I J.
Proof. intros E H Hc. apply H. by eapply on_chain_extends. Qed.

Lemma lookup_off_chain :
  (∀ I k rf rl w r w', lookup I k rf rl w r w' →
     ∀ J, ¬ on_chain w I J → injectors w' !! J = injectors w !! J) ∧
  (∀ I k rf w r w', local I k rf w r w' →
     ∀ J, ¬ on_chain w I J → injectors w' !! J = injectors w !! J) ∧
  (∀ I fa ds w r w', resolve I fa ds w r w' →
     ∀ J, ¬ on_chain w I J → injectors w' !! J = injectors w !! J).
Proof.
  apply lookup_mutind.
  - done.
  - auto.
  - auto.
  - intros I k rf w w1 p r w2 _ Hloc IHloc Hp _ IHpar J HJ.
    rewrite IHpar; [by apply IHloc|].
    intros Hc. eapply off_chain_extends; [by eapply local_extends|done|].
    by eapply on_chain_up.
  - intros I k rf w r w1 Hread _ J _. by rewrite (read_cache_injectors _ _ _ _ _ _ Hread).
  - done.
  - done.
  - intros I k rf w b e wd _ _ _ _ IH J HJ.
    pose proof (off_chain_ne _ _ _ HJ) as Hne.
    rewrite injectors_setInstance_ne by done.
    rewrite IH; [by apply injectors_setInstance_ne|].
    eapply off_chain_extends; [apply extends_setInstance|done].
  - intros I k rf w b deps wd r w1 _ _ _ _ IH Hfin J HJ.
    pose proof (off_chain_ne _ _ _ HJ) as Hne.
    apply finish_inv in Hfin.
    rewrite (finished_injectors_ne _ _ _ _ _ _ _ _ J Hfin) by done.
    rewrite IH; [by apply injectors_setInstance_ne|].
    eapply off_chain_extends; [apply extends_setInstance|done].
  - done.
  - auto.
  - intros I fa d ds w v w1 r w2 Hd IHd _ IHds J HJ.
    rewrite IHds; [by apply IHd|].
    eapply off_chain_extends; [by eapply lookup_extends_world|done].
Qed.

Lemma lookup_markers_stay :
  (∀ I k rf rl w r w', lookup I k rf rl w r w' →
     ∀ J k', getInstance w J k' = VConstructing → getInstance w' J k' = VConstructing) ∧
  (∀ I k rf w r w', local I k rf w r w' →
     ∀ J k', getInstance w J k' = VConstructing → getInstance w' J k' = VConstructing) ∧
  (∀ I fa ds w r w', resolve I fa ds w r w' →
     ∀ J k', getInstance w J k' = VConstructing → getInstance w' J k' = VConstructing).
Proof.
  apply lookup_mutind.
  - done.
  - auto.
  - auto.
  - auto.
  - intros I k rf w r w1 Hread _ J k' Hm.
    by destruct (read_cache_inv _ _ _ _ _ _ Hread) as [->|(_ & v' & _ & ->)].
  - done.
  - done.
  - intros I k rf w b e wd Hread _ _ _ IH J k' Hm.
    pose proof (miss_not_constructing _ _ _ _ _ _ Hread Hm) as Hne.
    rewrite getInstance_setInstance_ne by done. apply IH.
    by rewrite getInstance_setInstance_ne.
  - intros I k rf w b deps wd r w1 Hread _ _ _ IH Hfin J k' Hm.
    pose proof (miss_not_constructing _ _ _ _ _ _ Hread Hm) as Hne.
    apply finish_inv in Hfin.
    rewrite (finished_slot_ne _ _ _ _ _ _ _ _ _ _ Hfin Hne). apply IH.
    by rewrite getInstance_setInstance_ne.
  - done.
  - auto.
  - auto.
Qed.

Lemma lookup_async_future :
  (∀ I k rf rl w r w', lookup I k rf rl w r w' →
     rf = true → rl = false → ∀ v, r = Ok v → ∃ f, v = VFuture f) ∧
  (∀ I k rf w r w', local I k rf w r w' →
     rf = true → ∀ v, r = Ok v → v = VNull ∨ ∃ f, v = VFuture f) ∧
  (∀ I fa ds w r w', resolve I fa ds w r w' → True).
Proof.
  apply lookup_mutind; try done.
  - intros I k rf w r w1 _ _ IH Hne -> _ v ->.
    destruct (IH eq_refl v eq_refl) as [->|?]; done.
  - intros I k rf w r w1 Hread _ -> v ->.
    unfold read_cache, async_readFromCache, FutureWrapper_value in Hread.
    destruct (decide (key_token k = InjectorToken));
      cbv [bind _getInstance gets ret throw new_future] in Hread;
      [simpl in Hread; injection Hread as <- _; eauto|].
    destruct (getInstance w I k); simpl in Hread; simplify_eq; eauto.
  - intros. left. congruence.
  - intros I k rf w b deps wd r w1 _ _ _ _ _ Hfin -> v ->.
    apply finish_inv in Hfin. inversion Hfin; subst. eauto.
Qed.

(** X1.  A lookup never changes the key registry, which injectors exist, any
    binding table or any parent link; futures and factory invocations only
    accumulate.  Slots are all it writes. *)
Theorem lookup_changes_only_slots n I k rf rl w r w' :
  _getByKey n I k rf rl w = Some (r, w') → extends w w'.
Proof. intros H. apply _getByKey_lookup in H. by eapply lookup_extends_world. Qed.

Lemma lookup_changes_only_slots_witness :
  extends Sample.pair (Sample.after (get 3 0 (Tok 0)) Sample.pair).
Proof.
  apply (lookup_changes_only_slots 3 0 Sample.A false false Sample.pair (Ok (VObj 1))).
  vm_compute. reflexivity.
Defined.

(** X2.  A lookup on injector [I] writes to [I] and to ancestors of [I]
    only: every other injector, be it a child, a sibling or a stranger, is
    exactly as it was. *)
Theorem lookup_writes_on_chain_only n I k rf rl w r w' J :
  _getByKey n I k rf rl w = Some (r, w') →
  ¬ on_chain w I J →
  injectors w' !! J = injectors w !! J.
Proof.
  intros H HJ. apply _getByKey_lookup in H.
  by apply (proj1 lookup_off_chain _ _ _ _ _ _ _ H).
Qed.

Lemma lookup_writes_on_chain_only_witness :
  injectors (Sample.after (get 3 1 (Tok 1)) Sample.family) !! 2
  = injectors Sample.family !! 2.
Proof.
  apply (lookup_writes_on_chain_only 3 1 Sample.B false false Sample.family (Ok (VObj 0))).
  - vm_compute. reflexivity.
  - intros H. inversion H as [|? P ? HP Hc]; subst.
    vm_compute in HP. injection HP as <-.
    inversion Hc as [|? P ? HP' _]; subst. vm_compute in HP'. discriminate.
Defined.

(** X3.  A lookup, whether it succeeds or fails, leaves the construction
    markers as they were: a slot holds the marker afterwards exactly when it
    held it before.  So no lookup leaves a marker of its own behind, and a
    later lookup meets no stale one. *)
Theorem lookup_restores_markers n I k rf rl w r w' J k' :
  _getByKey n I k rf rl w = Some (r, w') →
  getInstance w' J k' = VConstructing ↔ getInstance w J k' = VConstructing.
Proof.
  intros H. apply _getByKey_lookup in H. split.
  - by apply (proj1 lookup_no_new_marker _ _ _ _ _ _ _ H).
  - by apply (proj1 lookup_markers_stay _ _ _ _ _ _ _ H).
Qed.

Lemma lookup_restores_markers_witness :
  getInstance (Sample.after (get 5 0 (Tok 0)) Sample.failing_dep) 0 Sample.A = VConstructing
  ↔ getInstance Sample.failing_dep 0 Sample.A = VConstructing.
Proof.
  apply (lookup_restores_markers 5 0 Sample.A false false Sample.failing_dep
           (Raise (InstantiationError 7 [Sample.B; Sample.A]))).
  vm_compute. reflexivity.
Defined.

(** X4.  An asynchronous lookup runs no factory before it returns: the log
    of factory invocations is the same afterwards.  Factories of the
    asynchronous strategy run when the event loop fires [_findOrCreate]. *)
Theorem async_lookup_runs_no_factory n I k rl w r w' :
  _getByKey n I k true rl w = Some (r, w') → calls w' = calls w.
Proof.
  intros H. apply _getByKey_lookup in H.
  by apply (proj1 lookup_async_no_calls _ _ _ _ _ _ _ H).
Qed.

Lemma async_lookup_runs_no_factory_witness :
  calls (Sample.after (asyncGet 3 0 (Tok 0)) Sample.pair) = calls Sample.pair.
Proof.
  apply (async_lookup_runs_no_factory 3 0 Sample.A false Sample.pair (Ok (VFuture 7))).
  vm_compute. reflexivity.
Defined.

(** X5.  What a lookup that is not lazy answers when it succeeds is never
    [null], the construction marker or a pending marker; in asynchronous
    mode it is always a future. *)
Theorem lookup_answers n I k rf w v w' :
  _getByKey n I k rf false w = Some (Ok v, w') →
  ordinary v ∧ (rf = true → ∃ f, v = VFuture f).
Proof.
  intros H. apply _getByKey_lookup in H. split.
  - by eapply lookup_value.
  - intros ->. by eapply (proj1 lookup_async_future).
Qed.

Lemma lookup_answers_witness :
  ordinary (VFuture 7) ∧ (true = true → ∃ f, VFuture 7 = VFuture f).
Proof.
  apply (lookup_answers 3 0 Sample.A true Sample.pair (VFuture 7)
           (Sample.after (asyncGet 3 0 (Tok 0)) Sample.pair)).
  vm_compute. reflexivity.
Defined.

(** ** Every lookup returns *)

Lemma open_slot_same w w' J i :
  (∀ J k, getBinding w' J k = getBinding w J k) →
  (∀ J k, getInstance w' J k = VConstructing ↔ getInstance w J k = VConstructing) →
  open_slot w' J i = open_slot w J i.
Proof.
  intros Hb Hm. unfold open_slot. rewrite Hb. f_equal. f_equal.
  specialize (Hm J (mkKey i InjectorToken)).
  destruct (getInstance w' J _) eqn:E1; destruct (getInstance w J _) eqn:E2;
    simpl; try done; naive_solver.
Qed.

Lemma count_if_ext {A} (f g : A → bool) l :
  (∀ x, x ∈ l → f x = g x) → count_if f l = count_if g l.
Proof.
  induction l as [|x l IH]; intros H; simpl; [done|].
  rewrite (H x) by apply list_elem_of_here. rewrite IH; [done|].
  intros y Hy. apply H. by apply list_elem_of_further.
Qed.

Lemma count_if_le {A} (f g : A → bool) l :
  (∀ x, g x = true → f x = true) → count_if g l ≤ count_if f l.
Proof.
  intros H. induction l as [|x l IH]; simpl; [done|].
  specialize (H x). destruct (g x), (f x); naive_solver lia.
Qed.

Lemma count_if_lt {A} (f g : A → bool) l x :
  (∀ y, g y = true → f y = true) → x ∈ l → f x = true → g x = false →
  count_if g l < count_if f l.
Proof.
  intros H Hx Hf Hg. induction Hx as [x l|x y l Hx IH]; simpl.
  - rewrite Hf, Hg. pose proof (count_if_le f g l H). lia.
  - specialize (H y). destruct (g y), (f y); naive_solver lia.
Qed.

Lemma open_slots_same w w' J :
  (∀ J, _bindings (the_injector w' J) = _bindings (the_injector w J)) →
  (∀ J k, getInstance w' J k = VConstructing ↔ getInstance w J k = VConstructing) →
  open_slots w' J = open_slots w J.
Proof.
  intros Hb Hm. unfold open_slots. rewrite Hb. apply count_if_ext. intros i _.
  apply open_slot_same; [|done]. intros J' k. by rewrite !getBinding_lookup, Hb.
Qed.

Lemma open_upto_same w w' I :
  (∀ J, _bindings (the_injector w' J) = _bindings (the_injector w J)) →
  (∀ J k, getInstance w' J k = VConstructing ↔ getInstance w J k = VConstructing) →
  open_upto w' I = open_upto w I.
Proof.
  intros Hb Hm. induction I as [|I IH]; simpl.
  - by rewrite (open_slots_same w w').
  - by rewrite (open_slots_same w w'), IH.
Qed.

Lemma open_upto_mono w p I : p ≤ I → open_upto w p ≤ open_upto w I.
Proof.
  induction 1 as [|I _ IH]; [done|]. simpl. lia.
Qed.

Lemma open_slots_mark_ne w I k J :
  I ≠ J → open_slots (setInstance I k VConstructing w) J = open_slots w J.
Proof.
  intros Hne. unfold open_slots. rewrite bindings_setInstance.
  apply count_if_ext. intros i _. unfold open_slot.
  rewrite getBinding_setInstance, getInstance_setInstance_ne; [done|]. naive_solver.
Qed.

Lemma open_upto_mark_below w I k J :
  J < I → open_upto (setInstance I k VConstructing w) J = open_upto w J.
Proof.
  intros HJ. induction J as [|J IH]; simpl.
  - rewrite open_slots_mark_ne; [done|lia].
  - rewrite open_slots_mark_ne by lia. rewrite IH; [done|lia].
Qed.

Lemma open_slots_mark w I k b :
  is_Some (injectors w !! I) →
  getBinding w I k = Some b →
  getInstance w I k ≠ VConstructing →
  open_slots (setInstance I k VConstructing w) I < open_slots w I.
Proof.
  intros HI Hb Hm. unfold open_slots. rewrite bindings_setInstance.
  apply (count_if_lt _ _ _ (key_id k)).
  - intros i. unfold open_slot. rewrite getBinding_setInstance.
    destruct (bool_decide _); [|done]. simpl.
    rewrite getInstance_setInstance by done.
    destruct (decide _); [done|]. done.
  - apply elem_of_seq. split; [lia|]. simpl.
    unfold getBinding in Hb. destruct (decide _); [done|]. lia.
  - unfold open_slot.
    rewrite (getBinding_same_id _ _ _ k) by done. rewrite Hb.
    rewrite (getInstance_same_id _ _ _ k) by done.
    rewrite bool_decide_eq_true_2 by done. simpl.
    by destruct (getInstance w I k).
  - unfold open_slot.
    rewrite (getInstance_same_id _ _ _ k) by done.
    rewrite getInstance_setInstance_eq by done. simpl. apply andb_false_r.
Qed.

Lemma open_upto_mark w I k b :
  is_Some (injectors w !! I) →
  getBinding w I k = Some b →
  getInstance w I k ≠ VConstructing →
  open_upto (setInstance I k VConstructing w) I < open_upto w I.
Proof.
  intros HI Hb Hm. pose proof (open_slots_mark _ _ _ _ HI Hb Hm) as Hlt.
  destruct I as [|I]; simpl; [lia|].
  rewrite open_upto_mark_below by lia. lia.
Qed.

Lemma lookup_markers I k rf rl w r w' :
  lookup I k rf rl w r w' →
  ∀ J k', getInstance w' J k' = VConstructing ↔ getInstance w J k' = VConstructing.
Proof.
  intros H J k'. split.
  - by apply (proj1 lookup_no_new_marker _ _ _ _ _ _ _ H).
  - by apply (proj1 lookup_markers_stay _ _ _ _ _ _ _ H).
Qed.

Lemma local_markers I k rf w r w' :
  local I k rf w r w' →
  ∀ J k', getInstance w' J k' = VConstructing ↔ getInstance w J k' = VConstructing.
Proof.
  intros H J k'. split.
  - by apply (proj1 (proj2 lookup_no_new_marker) _ _ _ _ _ _ H).
  - by apply (proj1 (proj2 lookup_markers_stay) _ _ _ _ _ _ H).
Qed.

Lemma finish_total rf I k b deps w : ∃ r w1, finish rf I k b deps w = Some (r, w1).
Proof.
  destruct rf.
  - eexists _, _. apply finish_inv. constructor.
  - destruct (factory b (length (calls w)) deps) as [u|o|e] eqn:Hf;
      eexists _, _; apply finish_inv; by constructor.
Qed.

Lemma resolve_total N I fa :
  (∀ w, open_upto w I + I < N → wf_parents w → is_Some (injectors w !! I) →
        ∀ k rf rl, ∃ r w', lookup I k rf rl w r w') →
  ∀ ds w, open_upto w I + I < N → wf_parents w → is_Some (injectors w !! I) →
          ∃ r w', resolve I fa ds w r w'.
Proof.
  intros Hrec ds. induction ds as [|d ds IH]; intros w HN Hwf HI.
  - eexists _, _. constructor.
  - destruct (Hrec w HN Hwf HI (dep_key d) (fa || asFuture d) (lazy d)) as ([v|e] & w1 & Hd).
    + pose proof (lookup_extends_world _ _ _ _ _ _ _ Hd) as E.
      destruct (IH w1) as (r & w2 & Hds).
      * rewrite (open_upto_same w w1); [done|apply E|by eapply lookup_markers].
      * by eapply extends_wf_parents.
      * by apply (extends_is_Some _ _ _ E).
      * eexists _, _. by eapply resolve_cons.
    + eexists _, _. by apply resolve_fail.
Qed.

Lemma null_or_not (r : result jsval) : r = Ok VNull ∨ r ≠ Ok VNull.
Proof. destruct r as [[]|]; auto. Qed.

Lemma lookup_total_aux N : ∀ w I,
  open_upto w I + I < N → wf_parents w → is_Some (injectors w !! I) →
  ∀ k rf rl, ∃ r w', lookup I k rf rl w r w'.
Proof.
  induction N as [|N IHN]; intros w I HN Hwf HI k rf rl; [lia|].
  destruct rl; [eexists _, _; constructor|].
  (* what the injector finds on its own *)
  assert (∃ r w1, local I k rf w r w1) as (r & w1 & Hloc).
  { destruct (read_cache_total rf I k w) as (r0 & w0 & Hread).
    destruct (null_or_not r0) as [->|Hr0].
    2:{ eexists _, _. by apply local_read. }
    destruct (read_cache_miss _ _ _ _ _ Hread) as (-> & Htok & Hslot).
    destruct (getBinding w I k) as [b|] eqn:Hb.
    2:{ eexists _, _. by apply local_unbound. }
    destruct (negb rf && providedAsFuture b) eqn:Hmode.
    { apply andb_true_iff in Hmode as [Hrf Hasync].
      apply negb_true_iff in Hrf as ->.
      eexists _, _. by eapply local_async_only. }
    assert (rf = false → providedAsFuture b = false) as Hmode'.
    { intros ->. by destruct (providedAsFuture b). }
    assert (getInstance w I k ≠ VConstructing) as Hnm.
    { destruct Hslot as [->|(_ & f & ->)]; done. }
    destruct (resolve_total N I rf (λ w0 H1 H2 H3, IHN w0 I H1 H2 H3) (dependencies b)
                (setInstance I k VConstructing w)) as ([deps|e] & wd & Hres).
    - pose proof (open_upto_mark _ _ _ _ HI Hb Hnm). lia.
    - eapply extends_wf_parents; [apply extends_setInstance|done].
    - by apply injectors_setInstance_is_Some.
    - destruct (finish_total rf I k b deps wd) as (r & w1 & Hfin).
      eexists _, _. by eapply local_built.
    - eexists _, _. by eapply local_deps_fail. }
  destruct (null_or_not r) as [->|Hr].
  2:{ eexists _, _. by apply lookup_local. }
  pose proof (local_extends _ _ _ _ _ _ Hloc) as E.
  destruct (_parent (the_injector w1 I)) as [p|] eqn:Hp.
  2:{ eexists _, _. by apply lookup_orphan. }
  assert (wf_parents w1) as Hwf1 by (by eapply extends_wf_parents).
  pose proof (wf_parents_lt _ _ _ Hwf1 Hp) as Hlt.
  destruct (IHN w1 p) with (k := k) (rf := rf) (rl := false) as (r & w2 & Hpar).
  - rewrite (open_upto_same w w1); [|apply E|by eapply local_markers].
    pose proof (open_upto_mono w p I). lia.
  - done.
  - apply lookup_lt_is_Some. apply (extends_is_Some _ _ _ E) in HI.
    apply lookup_lt_is_Some in HI. lia.
  - eexists _, _. by eapply lookup_parent.
Qed.

(** X6.  Every lookup returns.  On an existing injector, with parents that
    were created before their children, [_getByKey] comes back with an
    answer or an error for every key and in every mode, once it has enough
    fuel: the construction markers stop dependency cycles, and the parent
    chain is finite.  (Factories are functions of their arguments here: they
    do not call back into the injector.) *)
Theorem lookup_terminates w I k rf rl :
  wf_parents w → is_Some (injectors w !! I) →
  ∃ r w' n, ∀ m, n ≤ m → _getByKey m I k rf rl w = Some (r, w').
Proof.
  intros Hwf HI.
  destruct (lookup_total_aux (S (open_upto w I + I)) w I ltac:(lia) Hwf HI k rf rl)
    as (r & w' & Hl).
  exists r, w'. by apply lookup_enough.
Qed.

Lemma lookup_terminates_witness :
  ∃ r w' n, ∀ m, n ≤ m → _getByKey m 0 Sample.A false false Sample.cycle = Some (r, w').
Proof.
  apply (lookup_terminates Sample.cycle 0 Sample.A false false).
  - intros I inj p HI Hp. destruct I as [|I]; vm_compute in HI; [|discriminate].
    injection HI as <-. vm_compute in Hp. discriminate.
  - vm_compute. eauto.
Defined.

(** ** The injector's own token *)

(** X7.  The key of the [Injector] class resolves to the injector that is
    asked, whatever is bound or cached under that key and whatever the
    parent is: synchronously to the injector itself, leaving the world as it
    is, asynchronously to a new future that is already resolved with it. *)
Theorem injector_token_is_the_injector n I k w :
  key_token k = InjectorToken → is_Some (injectors w !! I) →
  _getByKey (S n) I k false false w = Some (Ok (VInjector I), w) ∧
  _getByKey (S n) I k true false w
  = Some (Ok (VFuture (length (futures w))),
          add_future (mkFuture KValue (Resolved (VInjector I))) w).
Proof.
  intros Htok [inj HI]. rewrite !_getByKey_S, HI.
  unfold bind, read_cache, sync_readFromCache, async_readFromCache.
  destruct (decide (key_token k = InjectorToken)); done.
Qed.

Lemma injector_token_is_the_injector_witness :
  _getByKey 1 1 (mkKey 2 InjectorToken) false false Sample.family
  = Some (Ok (VInjector 1), Sample.family) ∧
  _getByKey 1 1 (mkKey 2 InjectorToken) true false Sample.family
  = Some (Ok (VFuture (length (futures Sample.family))),
          add_future (mkFuture KValue (Resolved (VInjector 1))) Sample.family).
Proof.
  apply (injector_token_is_the_injector 0 1 (mkKey 2 InjectorToken) Sample.family).
  - reflexivity.
  - vm_compute. eauto.
Defined.

(** ** Building from dependencies that are at hand *)

Lemma ready_lookup w I d v :
  is_Some (injectors w !! I) →
  ready w I d = Some v →
  lookup I (dep_key d) (false || asFuture d) (lazy d) w (Ok v) w.
Proof.
  intros HI. unfold ready. destruct (lazy d) eqn:Hl.
  { intros [= <-]. apply lookup_lazy. }
  destruct (asFuture d) eqn:Ha; [done|]. simpl.
  destruct (decide (key_token (dep_key d) = InjectorToken)) as [Htok|Htok].
  { intros [= <-]. apply lookup_local; [done| |done]. apply local_read; [|done].
    unfold read_cache, sync_readFromCache. by destruct (decide _). }
  destruct (isPresent _ && _ && _) eqn:Hv; [|done]. intros [= <-].
  apply andb_true_iff in Hv as [Hv Hw]. apply andb_true_iff in Hv as [Hp Hc].
  apply negb_true_iff in Hw, Hc.
  apply lookup_local; [done| |by apply isPresent_true].
  apply local_read; [|by apply isPresent_true]. by apply sync_read_hit.
Qed.

Lemma ready_marked w I k d v :
  getInstance w I k = VNull →
  ready w I d = Some v →
  ready (setInstance I k VConstructing w) I d = Some v.
Proof.
  intros Hslot. unfold ready. destruct (lazy d); [done|].
  destruct (asFuture d); [done|]. destruct (decide _); [done|]. simpl.
  destruct (decide (key_id k = key_id (dep_key d))) as [E|Hne].
  - rewrite <- (getInstance_same_id w I k (dep_key d) E), Hslot. done.
  - rewrite getInstance_setInstance_ne; [done|]. naive_solver.
Qed.

Lemma ready_resolve w I ds vs :
  is_Some (injectors w !! I) →
  Forall2 (λ d v, ready w I d = Some v) ds vs →
  resolve I false ds w (Ok vs) w.
Proof.
  intros HI H. induction H as [|d v ds vs Hd _ IH]; [constructor|].
  apply (resolve_cons I false d ds w v w (Ok vs) w); [|done].
  by apply ready_lookup.
Qed.

(** With every dependency at hand, the synchronous strategy comes to the
    factory in one go. *)
Lemma ready_local w I k b vs r w1 :
  is_Some (injectors w !! I) → key_token k ≠ InjectorToken →
  getInstance w I k = VNull →
  getBinding w I k = Some b → providedAsFuture b = false →
  Forall2 (λ d v, ready w I d = Some v) (dependencies b) vs →
  finished I k b vs (setInstance I k VConstructing w) false r w1 →
  local I k false w r w1.
Proof.
  intros HI Htok Hslot Hb Hsync Hready Hfin.
  eapply local_built; [by apply read_cache_miss_intro|done|done| |by apply finish_inv].
  apply ready_resolve; [by apply injectors_setInstance_is_Some|].
  eapply Forall2_impl; [done|]. intros d v. by apply ready_marked.
Qed.

(** X8.  Dependencies reach the factory in the order of the binding's list.
    When each of them is at hand (lazy ones as thunks, the injector's own
    token as the injector, the others as the instances cached on the
    injector) and the factory returns an object for them, [_getByKey]
    answers that object, stores it in the slot, and runs that one factory
    once; no other slot and no future is touched. *)
Theorem factory_gets_ready_dependencies w I k b vs o :
  is_Some (injectors w !! I) → key_token k ≠ InjectorToken →
  getInstance w I k = VNull →
  getBinding w I k = Some b → providedAsFuture b = false →
  Forall2 (λ d v, ready w I d = Some v) (dependencies b) vs →
  factory b (length (calls w)) vs = Returns (UObj o) →
  ∃ w', (∃ n, ∀ m, n ≤ m → _getByKey m I k false false w = Some (Ok (VObj o), w')) ∧
        getInstance w' I k = VObj o ∧
        (∀ J k', ¬ (I = J ∧ key_id k = key_id k') →
                 getInstance w' J k' = getInstance w J k') ∧
        calls w' = (I, key_id k) :: calls w ∧
        futures w' = futures w.
Proof.
  intros HI Htok Hslot Hb Hsync Hready Hf.
  set (wm := setInstance I k VConstructing w).
  assert (is_Some (injectors wm !! I)) as HIm by (by apply injectors_setInstance_is_Some).
  exists (setInstance I k (VObj o) (add_call I k wm)). split; [|split; [|split]].
  - apply lookup_enough, lookup_local; [done| |done].
    eapply ready_local; try done. by apply (finished_value I k b vs wm (UObj o)).
  - by apply getInstance_setInstance_eq.
  - intros J k' Hne. rewrite getInstance_setInstance_ne by done.
    change (getInstance wm J k' = getInstance w J k').
    by apply getInstance_setInstance_ne.
  - done.
Qed.

Lemma factory_gets_ready_dependencies_witness :
  ∃ w', (∃ n, ∀ m, n ≤ m →
           _getByKey m 0 Sample.A false false Sample.lazy_self = Some (Ok (VObj 0), w')) ∧
        getInstance w' 0 Sample.A = VObj 0 ∧
        (∀ J k', ¬ (0 = J ∧ key_id Sample.A = key_id k') →
                 getInstance w' J k' = getInstance Sample.lazy_self J k') ∧
        calls w' = (0, key_id Sample.A) :: calls Sample.lazy_self ∧
        futures w' = futures Sample.lazy_self.
Proof.
  apply (factory_gets_ready_dependencies Sample.lazy_self 0 Sample.A
           (mkBinding Sample.A Sample.fresh [Sample.lazily Sample.A] false)
           [VThunk 0 Sample.A false] 0).
  - vm_compute. eauto.
  - discriminate.
  - vm_compute. reflexivity.
  - vm_compute. reflexivity.
  - reflexivity.
  - repeat constructor.
  - reflexivity.
Defined.

(** X9.  When the factory throws, with every dependency at hand,
    [_getByKey] raises [InstantiationError] with what was thrown and the key,
    the factory has run once, and every slot reads as before: the slot is
    empty again, so the next lookup runs the factory once more. *)
Theorem factory_failure_is_not_cached w I k b vs e :
  is_Some (injectors w !! I) → key_token k ≠ InjectorToken →
  getInstance w I k = VNull →
  getBinding w I k = Some b → providedAsFuture b = false →
  Forall2 (λ d v, ready w I d = Some v) (dependencies b) vs →
  factory b (length (calls w)) vs = Throws e →
  ∃ w', (∃ n, ∀ m, n ≤ m →
           _getByKey m I k false false w = Some (Raise (InstantiationError e [k]), w')) ∧
        (∀ J k', getInstance w' J k' = getInstance w J k') ∧
        (∀ J d, ready w' J d = ready w J d) ∧
        calls w' = (I, key_id k) :: calls w ∧
        futures w' = futures w.
Proof.
  intros HI Htok Hslot Hb Hsync Hready Hf.
  set (wm := setInstance I k VConstructing w).
  assert (is_Some (injectors wm !! I)) as HIm by (by apply injectors_setInstance_is_Some).
  assert (∀ J k', getInstance (setInstance I k VNull (add_call I k wm)) J k'
                  = getInstance w J k') as Hsame.
  { intros J k'. destruct (decide (I = J ∧ key_id k = key_id k')) as [[<- E]|Hne].
    - rewrite <- (getInstance_same_id _ I k k' E), <- (getInstance_same_id w I k k' E).
      rewrite Hslot. by apply getInstance_setInstance_eq.
    - rewrite getInstance_setInstance_ne by done.
      change (getInstance wm J k' = getInstance w J k').
      by apply getInstance_setInstance_ne. }
  exists (setInstance I k VNull (add_call I k wm)). split; [|split; [|split]].
  - apply lookup_enough, lookup_local; [done| |done].
    eapply ready_local; try done. by apply (finished_throw I k b vs wm e).
  - done.
  - intros J d. unfold ready. by rewrite Hsame.
  - done.
Qed.

Lemma factory_failure_is_not_cached_witness :
  ∃ w', (∃ n, ∀ m, n ≤ m →
           _getByKey m 0 Sample.B false false Sample.failing_dep
           = Some (Raise (InstantiationError 7 [Sample.B]), w')) ∧
        (∀ J k', getInstance w' J k' = getInstance Sample.failing_dep J k') ∧
        (∀ J d, ready w' J d = ready Sample.failing_dep J d) ∧
        calls w' = (0, key_id Sample.B) :: calls Sample.failing_dep ∧
        futures w' = futures Sample.failing_dep.
Proof.
  apply (factory_failure_is_not_cached Sample.failing_dep 0 Sample.B
           (mkBinding Sample.B Sample.failing [] false) [] 7).
  - vm_compute. eauto.
  - discriminate.
  - vm_compute. reflexivity.
  - vm_compute. reflexivity.
  - reflexivity.
  - constructor.
  - reflexivity.
Defined.

(** ** An asynchronous lookup of what is already built *)

(** X10.  An asynchronous lookup that reaches a slot holding an object, on
    the injector asked or on the ancestor it is delegated to, builds
    nothing: it answers a new future that is already resolved with that
    object, and changes nothing else. *)
Theorem async_lookup_of_built_instance w D R k o :
  tidy w → passes w k D R → key_token k ≠ InjectorToken →
  is_Some (injectors w !! R) →
  getInstance w R k = VObj o →
  ∃ n, ∀ m, n ≤ m →
    _getByKey m D k true false w
    = Some (Ok (VFuture (length (futures w))),
            add_future (mkFuture KValue (Resolved (VObj o))) w).
Proof.
  intros Htidy Hp Htok HR Hslot. apply lookup_enough.
  eapply passes_lookup; [done|done|done|].
  apply lookup_local; [done| |done]. apply local_read; [|done].
  unfold read_cache, async_readFromCache, FutureWrapper_value.
  destruct (decide _); [done|]. cbv [bind _getInstance gets new_future ret].
  by rewrite Hslot.
Qed.

Lemma async_lookup_of_built_instance_witness :
  ∃ n, ∀ m, n ≤ m →
    _getByKey m 1 Sample.B true false (Sample.after (get 3 0 (Tok 1)) Sample.family)
    = Some (Ok (VFuture (length (futures (Sample.after (get 3 0 (Tok 1)) Sample.family)))),
            add_future (mkFuture KValue (Resolved (VObj 0)))
                       (Sample.after (get 3 0 (Tok 1)) Sample.family)).
Proof.
  apply (async_lookup_of_built_instance
           (Sample.after (get 3 0 (Tok 1)) Sample.family) 1 0 Sample.B 0).
  - apply (tidy_lookup 0 Sample.B false false Sample.family (Ok (VObj 0)));
      [apply tidy_family|].
    apply (_getByKey_lookup 3). vm_compute. reflexivity.
  - eapply passes_up; [vm_compute; eauto|by vm_compute|by vm_compute|].
    apply passes_here.
  - discriminate.
  - vm_compute. eauto.
  - vm_compute. reflexivity.
Defined.

(** ** An asynchronous construction, turn by turn *)

Lemma lazy_resolve I fa ds w :
  Forall (λ d, lazy d = true) ds →
  resolve I fa ds w (Ok ((λ d, VThunk I (dep_key d) (fa || asFuture d)) <$> ds)) w.
Proof.
  induction 1 as [|d ds Hd _ IH]; [constructor|]. rewrite fmap_cons.
  apply (resolve_cons I fa d ds w _ w (Ok _) w); [|done].
  rewrite Hd. apply lookup_lazy.
Qed.

Lemma wait_all_values w vs :
  Forall (λ v, ∀ g, v ≠ VFuture g) vs → wait_all w vs = Some (inl vs).
Proof.
  induction 1 as [|v vs Hv _ IH]; [done|]. simpl. rewrite IH.
  destruct v; try done. by destruct (Hv f).
Qed.

Lemma thunks_no_future I rf (ds : list Dependency) :
  Forall (λ v, ∀ g, v ≠ VFuture g) ((λ d, VThunk I (dep_key d) rf) <$> ds).
Proof. apply Forall_fmap, Forall_true. done. Qed.

Lemma lookup_four_all {A} (l : list A) (a b c d : A) :
  let l' := (((l ++ [a]) ++ [b]) ++ [c]) ++ [d] in
  l' !! length l = Some a ∧ l' !! (length l + 1) = Some b ∧
  l' !! (length l + 2) = Some c ∧ l' !! (length l + 3) = Some d.
Proof.
  simpl. rewrite <- !app_assoc. simpl. repeat split.
  - rewrite lookup_app_r by lia. by replace (length l - length l) with 0 by lia.
  - rewrite lookup_app_r by lia. by replace (length l + 1 - length l) with 1 by lia.
  - rewrite lookup_app_r by lia. by replace (length l + 2 - length l) with 2 by lia.
  - rewrite lookup_app_r by lia. by replace (length l + 3 - length l) with 3 by lia.
Qed.

Lemma futures_set_state_ne f st w g :
  f ≠ g → futures (set_state f st w) !! g = futures w !! g.
Proof. intros. unfold set_state. simpl. by rewrite list_lookup_alter_ne. Qed.

Lemma settled_set_state_ne f st w g :
  f ≠ g → settled (set_state f st w) g = settled w g.
Proof. intros. unfold settled. by rewrite futures_set_state_ne. Qed.

Lemma fire_wait w f vs us :
  futures w !! f = Some (mkFuture (KWait vs) Pending) →
  wait_all w vs = Some (inl us) →
  fire f w = Some (set_state f (Resolved (VArray us)) w).
Proof. intros Hf Hw. unfold fire. rewrite Hf. simpl. by rewrite Hw. Qed.

Lemma fire_catch_passes w f src I k v :
  futures w !! f = Some (mkFuture (KCatch src I k) Pending) →
  settled w src = Some (inl v) →
  fire f w = Some (set_state f (Resolved v) w).
Proof. intros Hf Hs. unfold fire. rewrite Hf. simpl. by rewrite Hs. Qed.

Lemma fire_find_builds w f src I k b deps g o :
  futures w !! f = Some (mkFuture (KFind src I k b) Pending) →
  settled w src = Some (inl deps) →
  getInstance w I k = VWaiting g →
  factory b (length (calls w)) (as_list deps) = Returns (UObj o) →
  fire f w = Some (set_state f (Resolved (VObj o)) (add_call I k w)).
Proof.
  intros Hf Hs Hslot Hfac. unfold fire. rewrite Hf. simpl. rewrite Hs. simpl.
  unfold _findOrCreate, call_factory.
  cbv [bind _getInstance gets log_call ret]. rewrite Hslot. simpl. by rewrite Hfac.
Qed.


Lemma fire_cache_stores w f src I k o :
  futures w !! f = Some (mkFuture (KCache src I k) Pending) →
  settled w src = Some (inl (VObj o)) →
  fire f w = Some (set_state f (Resolved (VObj o)) (setInstance I k (VObj o) w)).
Proof. intros Hf Hs. unfold fire. rewrite Hf. simpl. by rewrite Hs. Qed.

(** The world an asynchronous lookup leaves when it starts a construction
    with the dependency values [deps]. *)
Lemma async_started w I k b deps :
  let n := length (futures w) in
  finished I k b deps (setInstance I k VConstructing w) true (Ok (VFuture (n + 3)))
    (setInstance I k (VWaiting (n + 3))
       (add_future (mkFuture (KCache (n + 2) I k) Pending)
          (add_future (mkFuture (KFind (n + 1) I k b) Pending)
             (add_future (mkFuture (KCatch n I k) Pending)
                (add_future (mkFuture (KWait deps) Pending)
                   (setInstance I k VConstructing w)))))).
Proof. apply (finished_async I k b deps (setInstance I k VConstructing w)). Qed.

(** The first two turns: the awaited dependency values are there, and no
    error is to be handled. *)
Lemma first_turns w0 n I k deps rest :
  Forall (λ v, ∀ g, v ≠ VFuture g) deps →
  futures w0 !! n = Some (mkFuture (KWait deps) Pending) →
  futures w0 !! (n + 1) = Some (mkFuture (KCatch n I k) Pending) →
  run (n :: n + 1 :: rest) w0
  = run rest (set_state (n + 1) (Resolved (VArray deps))
                (set_state n (Resolved (VArray deps)) w0)).
Proof.
  intros Hdeps Hwait Hcatch. simpl.
  rewrite (fire_wait w0 n deps deps Hwait (wait_all_values _ _ Hdeps)). simpl.
  rewrite (fire_catch_passes _ (n + 1) n I k (VArray deps)); [done| |].
  - rewrite futures_set_state_ne by lia. done.
  - rewrite settled_set_state; [done|]. by rewrite Hwait.
Qed.

(** The last two turns when the slot still holds the pending marker: the
    factory runs, and its object is cached. *)
Lemma last_turns_build w2 n I k b deps g o :
  futures w2 !! (n + 2) = Some (mkFuture (KFind (n + 1) I k b) Pending) →
  futures w2 !! (n + 3) = Some (mkFuture (KCache (n + 2) I k) Pending) →
  settled w2 (n + 1) = Some (inl (VArray deps)) →
  getInstance w2 I k = VWaiting g →
  factory b (length (calls w2)) deps = Returns (UObj o) →
  run [n + 2; n + 3] w2
  = set_state (n + 3) (Resolved (VObj o))
      (setInstance I k (VObj o)
         (set_state (n + 2) (Resolved (VObj o)) (add_call I k w2))).
Proof.
  intros Hfind Hcache Hsrc Hslot Hfac. simpl.
  rewrite (fire_find_builds w2 (n + 2) (n + 1) I k b (VArray deps) g o) by done. simpl.
  rewrite (fire_cache_stores _ (n + 3) (n + 2) I k o); [done| |].
  - rewrite futures_set_state_ne by lia. done.
  - rewrite settled_set_state; [done|]. simpl. by rewrite Hfind.
Qed.


Lemma sync_hit_again n I k o w :
  is_Some (injectors w !! I) → key_token k ≠ InjectorToken →
  getInstance w I k = VObj o →
  _getByKey (S n) I k false false w = Some (Ok (VObj o), w).
Proof.
  intros [inj HI] Htok Hslot. rewrite _getByKey_S, HI. unfold bind.
  by rewrite (sync_read_hit w I k (VObj o)).
Qed.

(** X11.  An asynchronous construction from start to finish.  On an empty
    bound slot whose dependencies are all lazy, [_getByKey] in asynchronous
    mode answers a future and leaves the pending marker for it; after the
    four turns of the event loop that belong to it, the future is resolved
    with the object the factory returned for the thunks, the slot holds
    that object, the factory has run once, and a synchronous lookup answers
    the same object from the slot without changing anything. *)
Theorem async_construction_completes w I k b o :
  is_Some (injectors w !! I) → key_token k ≠ InjectorToken →
  getInstance w I k = VNull → getBinding w I k = Some b →
  Forall (λ d, lazy d = true) (dependencies b) →
  factory b (length (calls w)) ((λ d, VThunk I (dep_key d) true) <$> dependencies b)
  = Returns (UObj o) →
  ∃ w1,
    let n := length (futures w) in
    let w2 := run [n; n + 1; n + 2; n + 3] w1 in
    (∃ n0, ∀ m, n0 ≤ m →
       _getByKey m I k true false w = Some (Ok (VFuture (n + 3)), w1)) ∧
    getInstance w1 I k = VWaiting (n + 3) ∧
    settled w2 (n + 3) = Some (inl (VObj o)) ∧
    getInstance w2 I k = VObj o ∧
    calls w2 = (I, key_id k) :: calls w ∧
    (∀ m, _getByKey (S m) I k false false w2 = Some (Ok (VObj o), w2)).
Proof.
  intros HI Htok Hslot Hb Hlazy Hfac.
  set (n := length (futures w)).
  set (deps := (λ d, VThunk I (dep_key d) true) <$> dependencies b) in *.
  set (wm := setInstance I k VConstructing w).
  set (w1 := setInstance I k (VWaiting (n + 3))
       (add_future (mkFuture (KCache (n + 2) I k) Pending)
          (add_future (mkFuture (KFind (n + 1) I k b) Pending)
             (add_future (mkFuture (KCatch n I k) Pending)
                (add_future (mkFuture (KWait deps) Pending) wm))))).
  assert (is_Some (injectors wm !! I)) as HIm by (by apply injectors_setInstance_is_Some).
  assert (is_Some (injectors w1 !! I)) as HI1 by (by apply injectors_setInstance_is_Some).
  destruct (lookup_four_all (futures w) (mkFuture (KWait deps) Pending)
              (mkFuture (KCatch n I k) Pending) (mkFuture (KFind (n + 1) I k b) Pending)
              (mkFuture (KCache (n + 2) I k) Pending)) as (F0 & F1 & F2 & F3).
  change (futures w1 !! n = Some (mkFuture (KWait deps) Pending)) in F0.
  change (futures w1 !! (n + 1) = Some (mkFuture (KCatch n I k) Pending)) in F1.
  change (futures w1 !! (n + 2) = Some (mkFuture (KFind (n + 1) I k b) Pending)) in F2.
  change (futures w1 !! (n + 3) = Some (mkFuture (KCache (n + 2) I k) Pending)) in F3.
  assert (getInstance w1 I k = VWaiting (n + 3)) as Hw1.
  { by apply getInstance_setInstance_eq. }
  exists w1. cbv zeta. split; [|split; [done|]].
  { apply lookup_enough, lookup_local; [done| |done].
    eapply local_built; [by apply read_cache_miss_intro|done|done| |].
    - apply (lazy_resolve I true (dependencies b) wm Hlazy).
    - apply finish_inv. apply (async_started w I k b deps). }
  rewrite (first_turns w1 n I k deps [n + 2; n + 3] (thunks_no_future _ _ _) F0 F1).
  set (w2 := set_state (n + 1) (Resolved (VArray deps))
               (set_state n (Resolved (VArray deps)) w1)).
  rewrite (last_turns_build w2 n I k b deps (n + 3) o).
  - set (w3 := set_state (n + 2) (Resolved (VObj o)) (add_call I k w2)).
    assert (is_Some (injectors w3 !! I)) as HI3 by exact HI1.
    assert (getInstance (set_state (n + 3) (Resolved (VObj o))
                           (setInstance I k (VObj o) w3)) I k = VObj o) as Hfinal.
    { change (getInstance (setInstance I k (VObj o) w3) I k = VObj o).
      by apply getInstance_setInstance_eq. }
    split; [|split; [done|split; [done|]]].
    + rewrite settled_set_state; [done|].
      change (is_Some (futures w3 !! (n + 3))). unfold w3.
      rewrite futures_set_state_ne by lia.
      change (is_Some (futures w2 !! (n + 3))). unfold w2.
      rewrite !futures_set_state_ne by lia. by rewrite F3.
    + intros m. apply sync_hit_again; [|done|done].
      change (is_Some (injectors (setInstance I k (VObj o) w3) !! I)).
      by apply injectors_setInstance_is_Some.
  - unfold w2. rewrite !futures_set_state_ne by lia. done.
  - unfold w2. rewrite !futures_set_state_ne by lia. done.
  - unfold w2. rewrite settled_set_state; [done|].
    rewrite futures_set_state_ne by lia. by rewrite F1.
  - done.
  - done.
Qed.

Lemma async_construction_completes_witness :
  ∃ w1,
    let n := length (futures Sample.lazy_self) in
    let w2 := run [n; n + 1; n + 2; n + 3] w1 in
    (∃ n0, ∀ m, n0 ≤ m →
       _getByKey m 0 Sample.A true false Sample.lazy_self
       = Some (Ok (VFuture (n + 3)), w1)) ∧
    getInstance w1 0 Sample.A = VWaiting (n + 3) ∧
    settled w2 (n + 3) = Some (inl (VObj 0)) ∧
    getInstance w2 0 Sample.A = VObj 0 ∧
    calls w2 = (0, key_id Sample.A) :: calls Sample.lazy_self ∧
    (∀ m, _getByKey (S m) 0 Sample.A false false w2 = Some (Ok (VObj 0), w2)).
Proof.
  apply (async_construction_completes Sample.lazy_self 0 Sample.A
           (mkBinding Sample.A Sample.fresh [Sample.lazily Sample.A] false) 0).
  - vm_compute. eauto.
  - discriminate.
  - vm_compute. reflexivity.
  - vm_compute. reflexivity.
  - repeat constructor.
  - reflexivity.
Defined.




(** ** What holds in every world a program gets to *)

Lemma wf_parents_same w w' :
  length (injectors w') = length (injectors w) →
  (∀ J, _parent (the_injector w' J) = _parent (the_injector w J)) →
  wf_parents w → wf_parents w'.
Proof.
  intros Hl Hp Hwf J inj p HJ Hpar.
  assert (is_Some (injectors w !! J)) as [inj0 HJ0].
  { apply lookup_lt_is_Some. rewrite <- Hl. apply lookup_lt_is_Some. by rewrite HJ. }
  apply (Hwf J inj0 p HJ0).
  specialize (Hp J). unfold the_injector in Hp. rewrite HJ, HJ0 in Hp. simpl in Hp.
  congruence.
Qed.

Lemma fire_parents g w w' :
  fire g w = Some w' →
  length (injectors w') = length (injectors w) ∧
  ∀ J, _parent (the_injector w' J) = _parent (the_injector w J).
Proof.
  intros H. fire_cases H.
  - destruct outcome as [o|]; [|done]. by injection H as <-.
  - destruct (wait_all w deps) as [o|]; [|done]. by injection H as <-.
  - destruct (settled w src) as [o|]; [|done]. by injection H as <-.
  - destruct (settled w src) as [[deps|e]|]; [| |done]; [|by injection H as <-].
    unfold _findOrCreate, call_factory in H.
    cbv [bind _getInstance gets log_call new_future _clear _setInstance modify ret throw]
      in H.
    destruct (_isWaiting (getInstance w inj k)) eqn:Hw; simpl in H.
    + destruct (factory b (length (calls w)) (as_list deps)) as [u|o|e]; simpl in H.
      * destruct u; by injection H as <-.
      * by injection H as <-.
      * injection H as <-. split.
        -- simpl. by rewrite length_alter.
        -- intros J. apply (parent_setInstance (add_call inj k w)).
    + destruct (getInstance w inj k); try discriminate Hw; by injection H as <-.
  - destruct (settled w src) as [[v|e]|]; [| |done]; [|by injection H as <-].
    unfold _cacheInstance in H. cbv [bind _setInstance modify ret] in H.
    destruct v; injection H as <-;
      (split; [simpl; by rewrite length_alter|intros J; apply parent_setInstance]).
  - destruct (settled w g0) as [o|]; [|done]. by injection H as <-.
Qed.

Lemma wf_parents_new_Injector toClass bindings parent w r w' :
  wf_parents w →
  (∀ p, parent = Some p → is_Some (injectors w !! p)) →
  new_Injector toClass bindings parent w = Some (r, w') →
  wf_parents w'.
Proof.
  intros Hwf Hp. unfold new_Injector.
  destruct (_flattenBindings toClass bindings ∅) as [e|m]; intros [= <- <-]; [done|].
  intros J inj p. simpl. intros HJ Hpar.
  destruct (decide (J < length (injectors w))) as [Hlt|Hge].
  - rewrite lookup_app_l in HJ by done. by eapply Hwf.
  - rewrite lookup_app_r in HJ by lia.
    destruct (J - length (injectors w)) as [|j] eqn:E; [|done].
    injection HJ as <-. simpl in Hpar.
    apply Hp, lookup_lt_is_Some in Hpar. lia.
Qed.

Lemma tidy_no_injector ks : tidy (mkWorld ks [] [] []).
Proof. split; [|constructor]. intros J k _. rewrite getInstance_lookup. by destruct J. Qed.

Lemma Key_get_total t w : ∃ k w0, Key_get t w = Some (Ok k, w0) ∧
  injectors w0 = injectors w ∧ futures w0 = futures w.
Proof. unfold Key_get. destruct (index_of t (keys w)); eauto. Qed.

Lemma public_lookup_invariants rf n I t w r w' :
  (let* k := Key_get t in _getByKey n I k rf false) w = Some (r, w') →
  wf_parents w ∧ tidy w → wf_parents w' ∧ tidy w'.
Proof.
  unfold bind. destruct (Key_get_total t w) as (k & w0 & -> & Hi & Hf).
  intros H [Hwf Ht]. apply _getByKey_lookup in H.
  assert (wf_parents w0) as Hwf0.
  { apply (wf_parents_same w); [by rewrite Hi| |done].
    intros J. by rewrite (the_injector_same _ _ _ Hi). }
  split.
  - eapply extends_wf_parents; [by eapply lookup_extends_world|done].
  - eapply tidy_lookup; [|done]. by apply (tidy_same w).
Qed.

(** X13.  In every world a program gets to, each injector was created after
    its parent (so every parent chain is finite), every slot without a
    binding is empty, and no future is aimed at a slot without a binding:
    the constructor, both lookups and the event loop keep all three. *)
Theorem reachable_worlds_are_well_formed toClass w :
  reachable toClass w → wf_parents w ∧ tidy w.
Proof.
  induction 1 as [ks|bs p w r w' _ [Hwf Ht] Hp Hnew|n I t w r w' _ IH Hget
                  |n I t w r w' _ IH Hget|g w w' _ [Hwf Ht] Hfire].
  - split; [|apply tidy_no_injector]. intros I inj p HI. done.
  - split; [by eapply wf_parents_new_Injector|].
    destruct r as [I|e]; [by eapply tidy_new_Injector|].
    unfold new_Injector in Hnew.
    destruct (_flattenBindings toClass bs ∅); [|done]. by injection Hnew as _ <-.
  - by eapply (public_lookup_invariants false).
  - by eapply (public_lookup_invariants true).
  - split; [|by eapply tidy_fire].
    destruct (fire_parents _ _ _ Hfire) as [Hl Hpar]. by eapply wf_parents_same.
Qed.

Lemma reachable_worlds_are_well_formed_witness :
  wf_parents (Sample.after (get 3 1 (Tok 1)) Sample.family) ∧
  tidy (Sample.after (get 3 1 (Tok 1)) Sample.family).
Proof.
  apply (reachable_worlds_are_well_formed Sample.toClass).
  apply (reach_get Sample.toClass 3 1 (Tok 1) Sample.family (Ok (VObj 0)));
    [|vm_compute; reflexivity].
  apply (reach_new Sample.toClass [] (Some 0)
           (Sample.after (createChild Sample.toClass 0 [])
              (Sample.after (new_Injector Sample.toClass
                               [Sample.bind_to Sample.B Sample.fresh []] None)
                 Sample.start)) (Ok 2));
    [|intros p [= <-]; vm_compute; eauto|vm_compute; reflexivity].
  apply (reach_new Sample.toClass [] (Some 0)
           (Sample.after (new_Injector Sample.toClass
                            [Sample.bind_to Sample.B Sample.fresh []] None)
              Sample.start) (Ok 1));
    [|intros p [= <-]; vm_compute; eauto|vm_compute; reflexivity].
  apply (reach_new Sample.toClass [Sample.bind_to Sample.B Sample.fresh []] None
           Sample.start (Ok 0));
    [|intros p [=]|vm_compute; reflexivity].
  apply (reach_start Sample.toClass [Tok 0; Tok 1]).
Defined.

(** ** An asynchronous construction that fails, and a thunk that is called *)

Lemma fire_find_fails w f src I k b deps g e :
  futures w !! f = Some (mkFuture (KFind src I k b) Pending) →
  settled w src = Some (inl deps) →
  getInstance w I k = VWaiting g →
  factory b (length (calls w)) (as_list deps) = Throws e →
  fire f w = Some (set_state f (Rejected (InstantiationError e [k]))
                     (setInstance I k VNull (add_call I k w))).
Proof.
  intros Hf Hs Hslot Hfac. unfold fire. rewrite Hf. simpl. rewrite Hs. simpl.
  unfold _findOrCreate, call_factory.
  cbv [bind _getInstance gets log_call _clear _setInstance modify ret throw].
  rewrite Hslot. simpl. by rewrite Hfac.
Qed.

Lemma fire_cache_rejects w f src I k e :
  futures w !! f = Some (mkFuture (KCache src I k) Pending) →
  settled w src = Some (inr e) →
  fire f w = Some (set_state f (Rejected e) w).
Proof. intros Hf Hs. unfold fire. rewrite Hf. simpl. by rewrite Hs. Qed.

(** The last two turns when the factory throws: the slot is cleared, and
    both futures fail. *)
Lemma last_turns_fail w2 n I k b deps g e :
  futures w2 !! (n + 2) = Some (mkFuture (KFind (n + 1) I k b) Pending) →
  futures w2 !! (n + 3) = Some (mkFuture (KCache (n + 2) I k) Pending) →
  settled w2 (n + 1) = Some (inl (VArray deps)) →
  getInstance w2 I k = VWaiting g →
  factory b (length (calls w2)) deps = Throws e →
  run [n + 2; n + 3] w2
  = set_state (n + 3) (Rejected (InstantiationError e [k]))
      (set_state (n + 2) (Rejected (InstantiationError e [k]))
         (setInstance I k VNull (add_call I k w2))).
Proof.
  intros Hfind Hcache Hsrc Hslot Hfac. simpl.
  rewrite (fire_find_fails w2 (n + 2) (n + 1) I k b (VArray deps) g e) by done. simpl.
  rewrite (fire_cache_rejects _ (n + 3) (n + 2) I k (InstantiationError e [k])); [done| |].
  - rewrite futures_set_state_ne by lia. done.
  - rewrite settled_set_state; [done|]. simpl. by rewrite Hfind.
Qed.

(** X24.  An asynchronous construction whose factory throws.  On an empty
    bound slot whose dependencies are all lazy, the asynchronous lookup
    answers a future; after the four turns of the event loop that belong to
    the construction, the future has failed with [InstantiationError]
    carrying what the factory threw and the key, the factory has run once,
    and the slot is empty again. *)
Theorem async_construction_fails w I k b e :
  is_Some (injectors w !! I) → key_token k ≠ InjectorToken →
  getInstance w I k = VNull → getBinding w I k = Some b →
  Forall (λ d, lazy d = true) (dependencies b) →
  factory b (length (calls w)) ((λ d, VThunk I (dep_key d) true) <$> dependencies b)
  = Throws e →
  ∃ w1,
    let n := length (futures w) in
    let w2 := run [n; n + 1; n + 2; n + 3] w1 in
    (∃ n0, ∀ m, n0 ≤ m →
       _getByKey m I k true false w = Some (Ok (VFuture (n + 3)), w1)) ∧
    getInstance w1 I k = VWaiting (n + 3) ∧
    settled w2 (n + 3) = Some (inr (InstantiationError e [k])) ∧
    getInstance w2 I k = VNull ∧
    calls w2 = (I, key_id k) :: calls w.
Proof.
  intros HI Htok Hslot Hb Hlazy Hfac.
  set (n := length (futures w)).
  set (deps := (λ d, VThunk I (dep_key d) true) <$> dependencies b) in *.
  set (wm := setInstance I k VConstructing w).
  set (w1 := setInstance I k (VWaiting (n + 3))
       (add_future (mkFuture (KCache (n + 2) I k) Pending)
          (add_future (mkFuture (KFind (n + 1) I k b) Pending)
             (add_future (mkFuture (KCatch n I k) Pending)
                (add_future (mkFuture (KWait deps) Pending) wm))))).
  assert (is_Some (injectors wm !! I)) as HIm by (by apply injectors_setInstance_is_Some).
  assert (is_Some (injectors w1 !! I)) as HI1 by (by apply injectors_setInstance_is_Some).
  destruct (lookup_four_all (futures w) (mkFuture (KWait deps) Pending)
              (mkFuture (KCatch n I k) Pending) (mkFuture (KFind (n + 1) I k b) Pending)
              (mkFuture (KCache (n + 2) I k) Pending)) as (F0 & F1 & F2 & F3).
  change (futures w1 !! n = Some (mkFuture (KWait deps) Pending)) in F0.
  change (futures w1 !! (n + 1) = Some (mkFuture (KCatch n I k) Pending)) in F1.
  change (futures w1 !! (n + 2) = Some (mkFuture (KFind (n + 1) I k b) Pending)) in F2.
  change (futures w1 !! (n + 3) = Some (mkFuture (KCache (n + 2) I k) Pending)) in F3.
  assert (getInstance w1 I k = VWaiting (n + 3)) as Hw1.
  { by apply getInstance_setInstance_eq. }
  exists w1. cbv zeta. split; [|split; [done|]].
  { apply lookup_enough, lookup_local; [done| |done].
    eapply local_built; [by apply read_cache_miss_intro|done|done| |].
    - apply (lazy_resolve I true (dependencies b) wm Hlazy).
    - apply finish_inv. apply (async_started w I k b deps). }
  rewrite (first_turns w1 n I k deps [n + 2; n + 3] (thunks_no_future _ _ _) F0 F1).
  set (w2 := set_state (n + 1) (Resolved (VArray deps))
               (set_state n (Resolved (VArray deps)) w1)).
  assert (futures w2 !! (n + 2) = Some (mkFuture (KFind (n + 1) I k b) Pending)) as G2.
  { unfold w2. rewrite !futures_set_state_ne by lia. done. }
  assert (futures w2 !! (n + 3) = Some (mkFuture (KCache (n + 2) I k) Pending)) as G3.
  { unfold w2. rewrite !futures_set_state_ne by lia. done. }
  assert (settled w2 (n + 1) = Some (inl (VArray deps))) as S1.
  { unfold w2. rewrite settled_set_state; [done|].
    rewrite futures_set_state_ne by lia. by rewrite F1. }
  rewrite (last_turns_fail w2 n I k b deps (n + 3) e) by done.
  set (w3 := setInstance I k VNull (add_call I k w2)).
  assert (is_Some (injectors (add_call I k w2) !! I)) as HI2 by exact HI1.
  split; [|split; [|done]].
  - rewrite settled_set_state; [done|].
    rewrite futures_set_state_ne by lia.
    change (is_Some (futures w2 !! (n + 3))). by rewrite G3.
  - change (getInstance w3 I k = VNull). by apply getInstance_setInstance_eq.
Qed.

Lemma async_construction_fails_witness :
  ∃ w1,
    let n := length (futures Sample.failing_dep) in
    let w2 := run [n; n + 1; n + 2; n + 3] w1 in
    (∃ n0, ∀ m, n0 ≤ m →
       _getByKey m 0 Sample.B true false Sample.failing_dep
       = Some (Ok (VFuture (n + 3)), w1)) ∧
    getInstance w1 0 Sample.B = VWaiting (n + 3) ∧
    settled w2 (n + 3) = Some (inr (InstantiationError 7 [Sample.B])) ∧
    getInstance w2 0 Sample.B = VNull ∧
    calls w2 = (0, key_id Sample.B) :: calls Sample.failing_dep.
Proof.
  apply (async_construction_fails Sample.failing_dep 0 Sample.B
           (mkBinding Sample.B Sample.failing [] false) 7).
  - vm_compute. eauto.
  - discriminate.
  - vm_compute. reflexivity.
  - vm_compute. reflexivity.
  - constructor.
  - reflexivity.
Defined.

(** X25.  A binding may refer to itself lazily.  When the dependencies of a
    binding are at hand and its factory returns an object, every thunk that
    the factory was handed for a lazy synchronous reference to the slot
    itself answers, once the construction is over, that very object, and
    changes nothing. *)
Theorem lazy_self_reference w I k b vs o d :
  is_Some (injectors w !! I) → key_token k ≠ InjectorToken →
  getInstance w I k = VNull →
  getBinding w I k = Some b → providedAsFuture b = false →
  Forall2 (λ d v, ready w I d = Some v) (dependencies b) vs →
  factory b (length (calls w)) vs = Returns (UObj o) →
  d ∈ dependencies b → lazy d = true → asFuture d = false →
  key_id (dep_key d) = key_id k → key_token (dep_key d) ≠ InjectorToken →
  ∃ w',
    (∃ n, ∀ m, n ≤ m → _getByKey m I k false false w = Some (Ok (VObj o), w')) ∧
    VThunk I (dep_key d) false ∈ vs ∧
    (∀ m, call_thunk (S m) (VThunk I (dep_key d) false) w' = Some (Ok (VObj o), w')).
Proof.
  intros HI Htok Hslot Hb Hsync Hready Hf Hd Hl Ha Hid Hdtok.
  set (wm := setInstance I k VConstructing w).
  assert (is_Some (injectors wm !! I)) as HIm by (by apply injectors_setInstance_is_Some).
  exists (setInstance I k (VObj o) (add_call I k wm)). split; [|split].
  - apply lookup_enough, lookup_local; [done| |done].
    eapply ready_local; try done. by apply (finished_value I k b vs wm (UObj o)).
  - apply list_elem_of_lookup in Hd as [i Hi].
    destruct (Forall2_lookup_l _ _ _ _ _ Hready Hi) as (v & Hv & Hr).
    unfold ready in Hr. rewrite Hl, Ha in Hr. injection Hr as <-.
    by eapply list_elem_of_lookup_2.
  - intros m. cbn [call_thunk]. apply sync_hit_again; [|done|].
    + apply injectors_setInstance_is_Some. exact HIm.
    + rewrite (getInstance_same_id _ I (dep_key d) k Hid).
      apply getInstance_setInstance_eq. exact HIm.
Qed.

Lemma lazy_self_reference_witness :
  ∃ w',
    (∃ n, ∀ m, n ≤ m →
       _getByKey m 0 Sample.A false false Sample.lazy_self = Some (Ok (VObj 0), w')) ∧
    VThunk 0 (dep_key (Sample.lazily Sample.A)) false ∈ [VThunk 0 Sample.A false] ∧
    (∀ m, call_thunk (S m) (VThunk 0 (dep_key (Sample.lazily Sample.A)) false) w'
          = Some (Ok (VObj 0), w')).
Proof.
  apply (lazy_self_reference Sample.lazy_self 0 Sample.A
           (mkBinding Sample.A Sample.fresh [Sample.lazily Sample.A] false)
           [VThunk 0 Sample.A false] 0 (Sample.lazily Sample.A)).
  - vm_compute. eauto.
  - discriminate.
  - vm_compute. reflexivity.
  - vm_compute. reflexivity.
  - reflexivity.
  - repeat constructor.
  - reflexivity.
  - apply list_elem_of_here.
  - reflexivity.
  - reflexivity.
  - reflexivity.
  - discriminate.
Defined.

(** ** An asynchronous construction with a dependency *)

Lemma run_app l1 l2 w : run (l1 ++ l2) w = run l2 (run l1 w).
Proof. revert w. induction l1 as [|g l1 IH]; intros w; [done|]. simpl. apply IH. Qed.

(** The four turns of a construction whose awaited values are there and
    whose slot still holds the pending marker. *)
Lemma four_turns_build w0 m I k b deps vals g o :
  futures w0 !! m = Some (mkFuture (KWait deps) Pending) →
  futures w0 !! (m + 1) = Some (mkFuture (KCatch m I k) Pending) →
  futures w0 !! (m + 2) = Some (mkFuture (KFind (m + 1) I k b) Pending) →
  futures w0 !! (m + 3) = Some (mkFuture (KCache (m + 2) I k) Pending) →
  wait_all w0 deps = Some (inl vals) →
  getInstance w0 I k = VWaiting g →
  factory b (length (calls w0)) vals = Returns (UObj o) →
  run [m; m + 1; m + 2; m + 3] w0
  = set_state (m + 3) (Resolved (VObj o))
      (setInstance I k (VObj o)
         (set_state (m + 2) (Resolved (VObj o))
            (add_call I k
               (set_state (m + 1) (Resolved (VArray vals))
                  (set_state m (Resolved (VArray vals)) w0))))).
Proof.
  intros F0 F1 F2 F3 Hwait Hslot Hfac.
  change [m; m + 1; m + 2; m + 3] with ([m; m + 1] ++ [m + 2; m + 3]).
  rewrite run_app. simpl run at 2.
  rewrite (fire_wait w0 m deps vals F0 Hwait). simpl.
  rewrite (fire_catch_passes _ (m + 1) m I k (VArray vals)).
  2:{ rewrite futures_set_state_ne by lia. done. }
  2:{ rewrite settled_set_state; [done|]. by rewrite F0. }
  simpl.
  apply (last_turns_build _ m I k b vals g o).
  - rewrite !futures_set_state_ne by lia. done.
  - rewrite !futures_set_state_ne by lia. done.
  - rewrite settled_set_state; [done|]. rewrite futures_set_state_ne by lia. by rewrite F1.
  - done.
  - done.
Qed.

(** X26.  An asynchronous construction with a dependency, from start to
    finish.  Let the binding of [A] on [I] have one dependency, [B], not
    lazy, and the binding of [B] on [I] lazy dependencies only, both slots
    being empty.  The asynchronous lookup of [A] starts the construction of
    [B] too, and answers a future for [A]; after the eight turns of the
    event loop that belong to the two constructions, [B] is built and
    cached, the factory of [A] has been handed the object built for [B],
    [A] is built and cached, both futures are resolved with the two
    objects, and each factory has run once, the one of [B] first. *)
Theorem async_construction_with_dependency w I kA kB bA bB d oA oB :
  is_Some (injectors w !! I) →
  key_token kA ≠ InjectorToken → key_token kB ≠ InjectorToken →
  key_id kA ≠ key_id kB →
  getInstance w I kA = VNull → getInstance w I kB = VNull →
  getBinding w I kA = Some bA → getBinding w I kB = Some bB →
  dependencies bA = [d] → dep_key d = kB → lazy d = false →
  Forall (λ d, lazy d = true) (dependencies bB) →
  factory bB (length (calls w)) ((λ d, VThunk I (dep_key d) true) <$> dependencies bB)
  = Returns (UObj oB) →
  factory bA (S (length (calls w))) [VObj oB] = Returns (UObj oA) →
  ∃ w1,
    let n := length (futures w) in
    let w2 := run [n; n + 1; n + 2; n + 3; n + 4; n + 5; n + 6; n + 7] w1 in
    (∃ n0, ∀ m, n0 ≤ m →
       _getByKey m I kA true false w = Some (Ok (VFuture (n + 7)), w1)) ∧
    settled w2 (n + 3) = Some (inl (VObj oB)) ∧
    settled w2 (n + 7) = Some (inl (VObj oA)) ∧
    getInstance w2 I kB = VObj oB ∧
    getInstance w2 I kA = VObj oA ∧
    calls w2 = (I, key_id kA) :: (I, key_id kB) :: calls w.
Proof.
  intros HI HtokA HtokB Hids HslotA HslotB HbA HbB HdA Hd Hl HlazyB HfacB HfacA.
  set (n := length (futures w)).
  set (thunks := (λ d, VThunk I (dep_key d) true) <$> dependencies bB) in *.
  (* the lookup *)
  set (wa := setInstance I kA VConstructing w).
  set (wb := setInstance I kB VConstructing wa).
  set (wB := setInstance I kB (VWaiting (n + 3))
       (add_future (mkFuture (KCache (n + 2) I kB) Pending)
          (add_future (mkFuture (KFind (n + 1) I kB bB) Pending)
             (add_future (mkFuture (KCatch n I kB) Pending)
                (add_future (mkFuture (KWait thunks) Pending) wb))))).
  set (nB := length (futures wB)).
  set (w1 := setInstance I kA (VWaiting (nB + 3))
       (add_future (mkFuture (KCache (nB + 2) I kA) Pending)
          (add_future (mkFuture (KFind (nB + 1) I kA bA) Pending)
             (add_future (mkFuture (KCatch nB I kA) Pending)
                (add_future (mkFuture (KWait [VFuture (n + 3)]) Pending) wB))))).
  assert (nB = n + 4) as HnB.
  { unfold nB, wB. simpl. rewrite !length_app. simpl. fold n. lia. }
  assert (is_Some (injectors wa !! I)) as HIa by (by apply injectors_setInstance_is_Some).
  assert (is_Some (injectors wb !! I)) as HIb by (by apply injectors_setInstance_is_Some).
  assert (is_Some (injectors wB !! I)) as HIB.
  { apply injectors_setInstance_is_Some. exact HIb. }
  assert (is_Some (injectors w1 !! I)) as HI1.
  { apply injectors_setInstance_is_Some. exact HIB. }
  assert (lookup I kB true false wa (Ok (VFuture (n + 3))) wB) as HlookB.
  { apply lookup_local; [done| |done].
    eapply (local_built I kB true wa bB); [| |done| |].
    - apply read_cache_miss_intro; [done|].
      unfold wa. rewrite getInstance_setInstance_ne; [done|]. naive_solver.
    - unfold wa. by rewrite getBinding_setInstance.
    - apply (lazy_resolve I true (dependencies bB) wb HlazyB).
    - apply finish_inv. apply (finished_async I kB bB thunks wb). }
  assert (lookup I kA true false w (Ok (VFuture (nB + 3))) w1) as HlookA.
  { apply lookup_local; [done| |done].
    eapply (local_built I kA true w bA); [by apply read_cache_miss_intro|done|done| |].
    - rewrite HdA. apply (resolve_cons I true d [] wa (VFuture (n + 3)) wB (Ok []) wB).
      + rewrite Hd, Hl. exact HlookB.
      + constructor.
    - apply finish_inv. apply (finished_async I kA bA [VFuture (n + 3)] wB). }
  exists w1. cbv zeta. split.
  { replace (n + 7) with (nB + 3) by lia. by apply lookup_enough. }
  (* the futures of the two constructions *)
  destruct (lookup_four_all (futures w) (mkFuture (KWait thunks) Pending)
              (mkFuture (KCatch n I kB) Pending) (mkFuture (KFind (n + 1) I kB bB) Pending)
              (mkFuture (KCache (n + 2) I kB) Pending)) as (B0 & B1 & B2 & B3).
  change (futures wB !! n = Some (mkFuture (KWait thunks) Pending)) in B0.
  change (futures wB !! (n + 1) = Some (mkFuture (KCatch n I kB) Pending)) in B1.
  change (futures wB !! (n + 2) = Some (mkFuture (KFind (n + 1) I kB bB) Pending)) in B2.
  change (futures wB !! (n + 3) = Some (mkFuture (KCache (n + 2) I kB) Pending)) in B3.
  destruct (lookup_four_all (futures wB) (mkFuture (KWait [VFuture (n + 3)]) Pending)
              (mkFuture (KCatch nB I kA) Pending) (mkFuture (KFind (nB + 1) I kA bA) Pending)
              (mkFuture (KCache (nB + 2) I kA) Pending)) as (A0 & A1 & A2 & A3).
  change (futures w1 !! nB = Some (mkFuture (KWait [VFuture (n + 3)]) Pending)) in A0.
  change (futures w1 !! (nB + 1) = Some (mkFuture (KCatch nB I kA) Pending)) in A1.
  change (futures w1 !! (nB + 2) = Some (mkFuture (KFind (nB + 1) I kA bA) Pending)) in A2.
  change (futures w1 !! (nB + 3) = Some (mkFuture (KCache (nB + 2) I kA) Pending)) in A3.
  assert (∀ j, j < nB → futures w1 !! j = futures wB !! j) as Hold.
  { intros j Hj. change (futures w1) with
      ((((futures wB ++ [mkFuture (KWait [VFuture (n + 3)]) Pending])
           ++ [mkFuture (KCatch nB I kA) Pending])
          ++ [mkFuture (KFind (nB + 1) I kA bA) Pending])
         ++ [mkFuture (KCache (nB + 2) I kA) Pending]).
    rewrite <- !app_assoc. by apply lookup_app_l. }
  replace [n; n + 1; n + 2; n + 3; n + 4; n + 5; n + 6; n + 7]
    with ([n; n + 1; n + 2; n + 3] ++ [nB; nB + 1; nB + 2; nB + 3])
    by (rewrite HnB; simpl; rewrite <- !Nat.add_assoc; reflexivity).
  replace (n + 7) with (nB + 3) by lia.
  rewrite run_app.
  (* the four turns of [B] *)
  rewrite (four_turns_build w1 n I kB bB thunks thunks (n + 3) oB).
  2:{ rewrite Hold by lia. done. }
  2:{ rewrite Hold by lia. done. }
  2:{ rewrite Hold by lia. done. }
  2:{ rewrite Hold by lia. done. }
  2:{ apply wait_all_values, thunks_no_future. }
  2:{ unfold w1. rewrite getInstance_setInstance_ne by naive_solver.
      change (getInstance wB I kB = VWaiting (n + 3)).
      apply getInstance_setInstance_eq. exact HIb. }
  2:{ done. }
  set (v1 := set_state (n + 1) (Resolved (VArray thunks))
               (set_state n (Resolved (VArray thunks)) w1)).
  set (v2 := set_state (n + 2) (Resolved (VObj oB)) (add_call I kB v1)).
  set (v3 := set_state (n + 3) (Resolved (VObj oB)) (setInstance I kB (VObj oB) v2)).
  assert (is_Some (injectors v2 !! I)) as HIv2 by exact HI1.
  assert (∀ j, nB ≤ j → futures v3 !! j = futures w1 !! j) as Hnew.
  { intros j Hj. unfold v3. rewrite futures_set_state_ne by lia.
    change (futures v2 !! j = futures w1 !! j). unfold v2.
    rewrite futures_set_state_ne by lia.
    change (futures v1 !! j = futures w1 !! j). unfold v1.
    rewrite !futures_set_state_ne by lia. done. }
  assert (settled v3 (n + 3) = Some (inl (VObj oB))) as HsB.
  { unfold v3. rewrite settled_set_state; [done|].
    change (is_Some (futures v2 !! (n + 3))). unfold v2.
    rewrite futures_set_state_ne by lia.
    change (is_Some (futures v1 !! (n + 3))). unfold v1.
    rewrite !futures_set_state_ne by lia. rewrite Hold by lia. by rewrite B3. }
  assert (getInstance v3 I kB = VObj oB) as HcB.
  { change (getInstance (setInstance I kB (VObj oB) v2) I kB = VObj oB).
    by apply getInstance_setInstance_eq. }
  assert (getInstance v3 I kA = VWaiting (nB + 3)) as HwA.
  { change (getInstance (setInstance I kB (VObj oB) v2) I kA = VWaiting (nB + 3)).
    rewrite getInstance_setInstance_ne by naive_solver.
    change (getInstance w1 I kA = VWaiting (nB + 3)).
    apply getInstance_setInstance_eq. exact HIB. }
  (* the four turns of [A] *)
  rewrite (four_turns_build v3 nB I kA bA [VFuture (n + 3)] [VObj oB] (nB + 3) oA).
  2:{ rewrite Hnew by lia. done. }
  2:{ rewrite Hnew by lia. done. }
  2:{ rewrite Hnew by lia. done. }
  2:{ rewrite Hnew by lia. done. }
  2:{ simpl. by rewrite HsB. }
  2:{ done. }
  2:{ done. }
  set (u1 := set_state (nB + 1) (Resolved (VArray [VObj oB]))
               (set_state nB (Resolved (VArray [VObj oB])) v3)).
  set (u2 := set_state (nB + 2) (Resolved (VObj oA)) (add_call I kA u1)).
  assert (is_Some (injectors u2 !! I)) as HIu2.
  { change (is_Some (injectors (setInstance I kB (VObj oB) v2) !! I)).
    by apply injectors_setInstance_is_Some. }
  split; [|split; [|split; [|split; [|done]]]].
  - rewrite settled_set_state_ne by lia.
    change (settled u2 (n + 3) = Some (inl (VObj oB))). unfold u2.
    rewrite settled_set_state_ne by lia.
    change (settled u1 (n + 3) = Some (inl (VObj oB))). unfold u1.
    rewrite !settled_set_state_ne by lia. done.
  - rewrite settled_set_state; [done|].
    change (is_Some (futures u2 !! (nB + 3))). unfold u2.
    rewrite futures_set_state_ne by lia.
    change (is_Some (futures u1 !! (nB + 3))). unfold u1.
    rewrite !futures_set_state_ne by lia. rewrite Hnew by lia. by rewrite A3.
  - change (getInstance (setInstance I kA (VObj oA) u2) I kB = VObj oB).
    rewrite getInstance_setInstance_ne by naive_solver. exact HcB.
  - change (getInstance (setInstance I kA (VObj oA) u2) I kA = VObj oA).
    by apply getInstance_setInstance_eq.
Qed.

Lemma async_construction_with_dependency_witness :
  ∃ w1,
    let n := length (futures Sample.pair) in
    let w2 := run [n; n + 1; n + 2; n + 3; n + 4; n + 5; n + 6; n + 7] w1 in
    (∃ n0, ∀ m, n0 ≤ m →
       _getByKey m 0 Sample.A true false Sample.pair = Some (Ok (VFuture (n + 7)), w1)) ∧
    settled w2 (n + 3) = Some (inl (VObj 0)) ∧
    settled w2 (n + 7) = Some (inl (VObj 1)) ∧
    getInstance w2 0 Sample.B = VObj 0 ∧
    getInstance w2 0 Sample.A = VObj 1 ∧
    calls w2 = (0, key_id Sample.A) :: (0, key_id Sample.B) :: calls Sample.pair.
Proof.
  apply (async_construction_with_dependency Sample.pair 0 Sample.A Sample.B
           (mkBinding Sample.A Sample.fresh [Sample.eager Sample.B] false)
           (mkBinding Sample.B Sample.fresh [] false) (Sample.eager Sample.B) 1 0).
  - vm_compute. eauto.
  - discriminate.
  - discriminate.
  - discriminate.
  - vm_compute. reflexivity.
  - vm_compute. reflexivity.
  - vm_compute. reflexivity.
  - vm_compute. reflexivity.
  - reflexivity.
  - reflexivity.
  - reflexivity.
  - constructor.
  - reflexivity.
  - reflexivity.
Defined.

(* ------------------------------------------------------------------ *)
(** * Further properties of flattening and of the constructor *)

Lemma flatten_list_cons toClass x l res :
  flatten_one toClass (RList (x :: l)) res
  = match flatten_one toClass x res with
    | inl e => inl e
    | inr res' => flatten_one toClass (RList l) res'
    end.
Proof. reflexivity. Qed.

Lemma flatten_one_invalid toClass b : ∀ res,
  well_formed b = false → flatten_one toClass b res = inl InvalidBindingError.
Proof.
  induction b as [b|t|l IH|t|v] using raw_ind'; intros res Hwf; try done.
  revert res Hwf. induction IH as [|x l Hx _ IHl]; intros res Hwf; [done|].
  rewrite flatten_list_cons. simpl in Hwf.
  destruct (well_formed x) eqn:Hwx.
  - destruct (flatten_one_spec toClass x res Hwx) as (m & -> & _). by apply IHl.
  - by rewrite Hx.
Qed.



Lemma flatten_app toClass l1 l2 res :
  _flattenBindings toClass (l1 ++ l2) res
  = match _flattenBindings toClass l1 res with
    | inl e => inl e
    | inr m => _flattenBindings toClass l2 m
    end.
Proof.
  unfold _flattenBindings. revert res. induction l1 as [|x l1 IH]; intros res; [done|].
  rewrite <- app_comm_cons, !flatten_list_cons.
  destruct (flatten_one toClass x res); [done|]. apply IH.
Qed.

(** X15.  Nesting does not matter to flattening: a nested list contributes
    exactly as if its elements stood in its place, whatever comes before
    and after it, and whether or not the flattening ends in an error. *)
Theorem flatten_splices_nested_lists toClass l1 l l2 res :
  _flattenBindings toClass (l1 ++ RList l :: l2) res
  = _flattenBindings toClass (l1 ++ l ++ l2) res.
Proof.
  rewrite !flatten_app. destruct (_flattenBindings toClass l1 res) as [e|m]; [done|].
  unfold _flattenBindings. rewrite flatten_list_cons.
  exact (eq_sym (flatten_app toClass l l2 m)).
Qed.

Lemma flatten_ok_well_formed toClass bindings res m :
  _flattenBindings toClass bindings res = inr m → forallb well_formed bindings = true.
Proof.
  intros H. destruct (forallb well_formed bindings) eqn:Hwf; [done|].
  unfold _flattenBindings in H.
  by rewrite (flatten_one_invalid toClass (RList bindings) res Hwf) in H.
Qed.

Lemma last_bound_Some i ds d :
  last_bound i ds = Some d → key_id (key d) = i ∧ d ∈ ds.
Proof.
  unfold last_bound. intros H. apply last_Some in H as [l H].
  assert (d ∈ filter (λ b, key_id (key b) = i) ds) as Hd.
  { rewrite H. apply elem_of_app. right. apply list_elem_of_here. }
  by apply list_elem_of_filter in Hd.
Qed.

Lemma last_bound_is_Some ds d :
  d ∈ ds → is_Some (last_bound (key_id (key d)) ds).
Proof.
  intros Hd. unfold last_bound.
  assert (d ∈ filter (λ b, key_id (key b) = key_id (key d)) ds) as Hf.
  { by apply list_elem_of_filter. }
  destruct (filter _ ds) as [|x l] eqn:E using rev_ind.
  - by apply elem_of_nil in Hf.
  - rewrite last_snoc. eauto.
Qed.

(** X16.  The table that flattening builds from scratch has an entry for
    exactly the key ids that the descriptors of the list target, and every
    entry is one of these descriptors, stored under its own key id. *)
Theorem flatten_table_entries toClass bindings m :
  _flattenBindings toClass bindings ∅ = inr m →
  (∀ i b, m !! i = Some b →
          key_id (key b) = i ∧ b ∈ flat_map (descriptors toClass) bindings) ∧
  (∀ b, b ∈ flat_map (descriptors toClass) bindings → is_Some (m !! key_id (key b))).
Proof.
  intros Hm. pose proof (flatten_ok_well_formed _ _ _ _ Hm) as Hwf.
  destruct (flatten_one_spec toClass (RList bindings) ∅ Hwf) as (m' & Hm' & Hl).
  unfold _flattenBindings in Hm. rewrite Hm in Hm'. injection Hm' as <-.
  assert (∀ i, m !! i = last_bound i (flat_map (descriptors toClass) bindings)) as Hl'.
  { intros i. rewrite Hl. simpl. by destruct (last_bound i _). }
  split.
  - intros i b Hb. rewrite Hl' in Hb. by apply last_bound_Some.
  - intros b Hb. rewrite Hl'. by apply last_bound_is_Some.
Qed.

Lemma flatten_table_entries_witness :
  (∀ i b, (<[1 := mkBinding Sample.B Sample.fresh [] false]>
             (<[0 := mkBinding Sample.A Sample.fresh [] false]> ∅) : gmap nat Binding)
          !! i = Some b →
          key_id (key b) = i ∧
          b ∈ flat_map (descriptors Sample.toClass)
                [Sample.bind_to Sample.A Sample.fresh [];
                 RList [Sample.bind_to Sample.B Sample.fresh []]]) ∧
  (∀ b, b ∈ flat_map (descriptors Sample.toClass)
              [Sample.bind_to Sample.A Sample.fresh [];
               RList [Sample.bind_to Sample.B Sample.fresh []]] →
        is_Some ((<[1 := mkBinding Sample.B Sample.fresh [] false]>
                    (<[0 := mkBinding Sample.A Sample.fresh [] false]> ∅)
                  : gmap nat Binding) !! key_id (key b))).
Proof.
  apply (flatten_table_entries Sample.toClass
           [Sample.bind_to Sample.A Sample.fresh [];
            RList [Sample.bind_to Sample.B Sample.fresh []]]).
  reflexivity.
Defined.





(** ** Dependencies that are not built on the spot *)




(* ------------------------------------------------------------------ *)
(** * Properties of the setter and getter generator *)

Lemma put_entry (m : Generator.DartMap) k v p :
  Generator.entry (Generator.put m k v) p
  = if decide (k = p) then Some v else Generator.entry m p.
Proof.
  induction m as [|[k' v'] m IH]; cbn [Generator.put Generator.entry].
  - by destruct (decide (k = p)).
  - destruct (decide (k' = k)) as [->|Hne]; cbn [Generator.entry].
    + by destruct (decide (k = p)).
    + rewrite IH. destruct (decide (k' = p)) as [->|?]; [|done].
      by destruct (decide (k = p)).
Qed.

Lemma put_keys (m : Generator.DartMap) k v :
  (Generator.put m k v).*1 = if decide (k ∈ m.*1) then m.*1 else m.*1 ++ [k].
Proof.
  induction m as [|[k' v'] m IH]; cbn [Generator.put].
  - destruct (decide (k ∈ [])) as [H|_]; [by apply elem_of_nil in H|done].
  - rewrite (fmap_cons fst (k', v') m). cbn [fst].
    destruct (decide (k' = k)) as [->|Hne].
    + rewrite fmap_cons. cbn [fst].
      destruct (decide (k ∈ k :: m.*1)) as [_|H]; [done|].
      destruct H. apply list_elem_of_here.
    + rewrite fmap_cons, IH. cbn [fst]. destruct (decide (k ∈ m.*1)) as [Hin|Hnin].
      * destruct (decide (k ∈ k' :: m.*1)) as [_|H]; [done|].
        destruct H. by apply list_elem_of_further.
      * destruct (decide (k ∈ k' :: m.*1)) as [H|_]; [|done].
        apply elem_of_cons in H as [->|H]; done.
Qed.

Lemma put_NoDup (m : Generator.DartMap) k v :
  NoDup m.*1 → NoDup (Generator.put m k v).*1.
Proof.
  intros H. rewrite put_keys. destruct (decide (k ∈ m.*1)); [done|].
  apply NoDup_app. split; [done|]. split; [|apply NoDup_singleton].
  intros x Hx Hk. apply list_elem_of_singleton in Hk as ->. done.
Qed.

Lemma entry_is_Some (m : Generator.DartMap) k :
  is_Some (Generator.entry m k) ↔ k ∈ m.*1.
Proof.
  induction m as [|[k' v'] m IH]; cbn [Generator.entry].
  - split; [by intros [? ?]|by intros ?%elem_of_nil].
  - rewrite fmap_cons. cbn [fst]. destruct (decide (k' = k)) as [->|Hne].
    + split; [intros _; apply list_elem_of_here|eauto].
    + rewrite IH, elem_of_cons. naive_solver.
Qed.

(** One step of the loop of [_createPropertiesMap], for one occurrence. *)
Lemma properties_loop trim (types : list Generator.RegisteredType) : ∀ bindMap,
  foldl (λ bindMap t,
           foldl (λ bindMap config,
                    let prop := Generator.property_of trim config in
                    if Generator.containsKey bindMap prop
                    then Generator.put bindMap prop []
                    else Generator.put bindMap prop (Generator.typeName t))
                 bindMap (Generator.bindConfig t (Generator.lit "properties")))
        bindMap types
  = foldl (λ bindMap o,
             if Generator.containsKey bindMap o.1 then Generator.put bindMap o.1 []
             else Generator.put bindMap o.1 o.2)
          bindMap
          (t ← types;
           (λ config, (Generator.property_of trim config, Generator.typeName t))
             <$> Generator.bindConfig t (Generator.lit "properties")).
Proof.
  induction types as [|t types IH]; intros bindMap; [done|].
  cbn [foldl]. rewrite IH. rewrite bind_cons, foldl_app. f_equal.
  generalize (Generator.bindConfig t (Generator.lit "properties")). clear.
  intros configs. revert bindMap.
  induction configs as [|c configs IH]; intros bindMap; [done|].
  rewrite fmap_cons. cbn [foldl]. apply IH.
Qed.

Lemma occurrences_loop (occ : list (Generator.str * Generator.str)) :
  let m := foldl (λ bindMap o,
                    if Generator.containsKey bindMap o.1 then Generator.put bindMap o.1 []
                    else Generator.put bindMap o.1 o.2) [] occ in
  NoDup m.*1 ∧ ∀ p, Generator.entry m p = Generator.by_occurrences occ p.
Proof.
  induction occ as [|[k ty] occ IH] using rev_ind; cbn zeta.
  - split; [constructor|done].
  - rewrite foldl_app. cbn [foldl fst snd].
    cbn zeta in IH.
    match goal with |- context [foldl ?f [] occ] => set (m := foldl f [] occ) in * end.
    destruct IH as [Hnd Hent].
    assert (∀ p, Generator.by_occurrences (occ ++ [(k, ty)]) p
                 = if decide (k = p)
                   then (if Generator.containsKey m k then Some [] else Some ty)
                   else Generator.by_occurrences occ p) as Hspec.
    { intros p. unfold Generator.by_occurrences.
      rewrite filter_app, filter_cons, filter_nil. cbn [fst].
      destruct (decide (k = p)) as [->|Hne].
      - unfold Generator.containsKey.
        destruct (bool_decide (p ∈ m.*1)) eqn:Hin.
        + apply bool_decide_eq_true, entry_is_Some in Hin. destruct Hin as [x Hx].
          rewrite Hent in Hx. unfold Generator.by_occurrences in Hx.
          destruct (filter (λ o, o.1 = p) occ) as [|o1 [|o2 l]]; done.
        + apply bool_decide_eq_false in Hin.
          destruct (Generator.entry m p) as [x|] eqn:Hx.
          { destruct Hin. apply entry_is_Some. by rewrite Hx. }
          rewrite Hent in Hx. unfold Generator.by_occurrences in Hx.
          destruct (filter (λ o, o.1 = p) occ) as [|o1 [|o2 l]]; done.
      - by rewrite app_nil_r. }
    split.
    + destruct (Generator.containsKey m k); by apply put_NoDup.
    + intros p. rewrite Hspec.
      destruct (Generator.containsKey m k); rewrite put_entry, Hent;
        by destruct (decide (k = p)).
Qed.

(** X19.  What [_createPropertiesMap] makes of the [properties] of the
    registered types: every property is a key once; a property that occurs
    once, in all the types together, is mapped to the name of the type it
    occurs in, and a property that occurs more than once, be it in two types
    or twice in one, to the empty string. *)
Theorem properties_map_by_occurrences trim ngDeps :
  NoDup (Generator._createPropertiesMap trim ngDeps).*1 ∧
  ∀ p, Generator.entry (Generator._createPropertiesMap trim ngDeps) p
       = Generator.by_occurrences (Generator.property_occurrences trim ngDeps) p.
Proof.
  unfold Generator._createPropertiesMap. rewrite properties_loop.
  apply (occurrences_loop (Generator.property_occurrences trim ngDeps)).
Qed.

Lemma last_cons_is_Some {A} (x : A) l : is_Some (last (x :: l)).
Proof.
  revert x. induction l as [|y l IH]; intros x; [by eexists|].
  rewrite last_cons_cons. apply IH.
Qed.

Lemma add_query_setters_failure isValid sanitize lazyInvalidSetter types : ∀ setters e,
  Generator.add_query_setters isValid sanitize lazyInvalidSetter types setters = inl e →
  e = Generator.FormatException.
Proof.
  induction types as [|t types IH]; intros setters e; [done|].
  cbn [Generator.add_query_setters].
  destruct (Generator.queryFieldsFromAnnotation t); [apply IH|by intros [= <-]].
Qed.

(** X20.  [createNgSettersAndGetters] only inserts.  It never fails for want
    of a last registered type: with no registered type it returns the code
    as it is.  And whenever it returns, the result is the code itself, or
    the code with a piece of text that is not empty inserted at the end of
    the registration of the last type, nothing of the code being dropped or
    moved. *)
Theorem generator_only_inserts trim isValid sanitize lazyInvalidSetter lazyInvalidGetter
    ngDeps :
  Generator.createNgSettersAndGetters trim isValid sanitize lazyInvalidSetter
    lazyInvalidGetter ngDeps ≠ inl Generator.StateError ∧
  (Generator.registeredTypes ngDeps = [] →
   Generator.createNgSettersAndGetters trim isValid sanitize lazyInvalidSetter
     lazyInvalidGetter ngDeps = inr (Generator.code ngDeps)) ∧
  (∀ out,
     Generator.createNgSettersAndGetters trim isValid sanitize lazyInvalidSetter
       lazyInvalidGetter ngDeps = inr out →
     out = Generator.code ngDeps ∨
     ∃ t ins,
       last (Generator.registeredTypes ngDeps) = Some t ∧ ins ≠ [] ∧
       Generator.registerMethod_end t ≤ length (Generator.code ngDeps) ∧
       out = take (Generator.registerMethod_end t) (Generator.code ngDeps) ++ ins
             ++ drop (Generator.registerMethod_end t) (Generator.code ngDeps)).
Proof.
  destruct ngDeps as [code types]. cbn [Generator.code Generator.registeredTypes].
  assert (types = [] →
          Generator.createNgSettersAndGetters trim isValid sanitize lazyInvalidSetter
            lazyInvalidGetter (Generator.mkNgDeps code types) = inr code) as Hempty.
  { intros ->. reflexivity. }
  split; [|split; [done|]].
  - destruct types as [|t types]; [by rewrite Hempty|].
    unfold Generator.createNgSettersAndGetters.
    cbn [Generator.code Generator.registeredTypes].
    destruct (Generator.add_query_setters _ _ _ _ _) as [e|setters] eqn:Hq.
    + apply add_query_setters_failure in Hq as ->. done.
    + destruct (_ && _); [done|].
      destruct (last_cons_is_Some t types) as [t' ->].
      by destruct (decide _).
  - intros out. unfold Generator.createNgSettersAndGetters.
    cbn [Generator.code Generator.registeredTypes].
    destruct (Generator.add_query_setters _ _ _ _ _) as [e|setters]; [done|].
    set (getters := Generator._generateGetters _ _ _ _).
    destruct (bool_decide (setters = []) && bool_decide (getters = [])) eqn:Hboth.
    { intros [= <-]. by left. }
    destruct (last types) as [t|]; [|done]. destruct (decide _) as [Hle|]; [|done].
    intros [= <-]. right.
    exists t, ((if bool_decide (setters = []) then []
                else Generator.lit "..registerSetters({"
                     ++ Generator.join setters (Generator.lit ", ")
                     ++ Generator.lit "})")
               ++ (if bool_decide (getters = []) then []
                   else Generator.lit "..registerGetters({"
                        ++ Generator.join getters (Generator.lit ", ")
                        ++ Generator.lit "})")).
    split; [done|]. split; [|split; [done|by rewrite <- !app_assoc]].
    destruct (bool_decide (setters = [])); [|done].
    destruct (bool_decide (getters = [])); done.
Qed.

Lemma asMap_loop (fields : list Generator.str) :
  NoDup (Generator.asMap fields).*1 ∧
  (∀ f, f ∈ (Generator.asMap fields).*1 ↔ f ∈ fields) ∧
  (∀ f v, Generator.entry (Generator.asMap fields) f = Some v → v = Generator.lit "Object").
Proof.
  unfold Generator.asMap.
  induction fields as [|x fields IH] using rev_ind.
  - split; [constructor|]. split; [done|done].
  - rewrite foldl_app. cbn [foldl].
    match goal with |- context [foldl ?f [] fields] => set (m := foldl f [] fields) in * end.
    destruct IH as (Hnd & Hkeys & Hval). split; [by apply put_NoDup|]. split.
    + intros f. rewrite put_keys, elem_of_app, list_elem_of_singleton.
      destruct (decide (x ∈ m.*1)) as [Hin|Hnin].
      * rewrite Hkeys. split; [auto|]. intros [?| ->]; [done|]. by apply Hkeys.
      * rewrite elem_of_app, list_elem_of_singleton, Hkeys. done.
    + intros f v. rewrite put_entry. destruct (decide (x = f)); [by intros [= <-]|].
      apply Hval.
Qed.

Lemma generateSetters_length isValid sanitize lazyInvalidSetter (m : Generator.DartMap) :
  length (Generator._generateSetters isValid sanitize lazyInvalidSetter m) = length m.
Proof.
  unfold Generator._generateSetters.
  induction m as [|kv m IH] using rev_ind; [done|].
  rewrite foldl_app. cbn [foldl].
  destruct (negb (isValid kv.1)); rewrite !length_app, IH; done.
Qed.

(** X23.  The query fields of a type are made into setters once each.  The
    map that [asMap] builds from the fields a visitor collected has every
    field as a key once, however often it was collected, mapped to
    ['Object']; and [_generateSetters] makes one setter of every key. *)
Theorem query_fields_once isValid sanitize lazyInvalidSetter (fields : list Generator.str) :
  NoDup (Generator.asMap fields).*1 ∧
  (∀ f, f ∈ (Generator.asMap fields).*1 ↔ f ∈ fields) ∧
  (∀ f v, Generator.entry (Generator.asMap fields) f = Some v → v = Generator.lit "Object") ∧
  length (Generator._generateSetters isValid sanitize lazyInvalidSetter
            (Generator.asMap fields))
  = length (Generator.asMap fields).
Proof.
  destruct (asMap_loop fields) as (H1 & H2 & H3).
  repeat split; try done; try apply H2. apply generateSetters_length.
Qed.

Lemma split_indexOf c (s : Generator.str) : ∀ i, (0 ≤ i)%Z →
  (Generator.indexOf_from c s i = (-1)%Z ∧ head (Generator.split s c) = Some s) ∨
  ((i ≤ Generator.indexOf_from c s i < i + Z.of_nat (length s))%Z ∧
   head (Generator.split s c)
   = Some (take (Z.to_nat (Generator.indexOf_from c s i - i)) s)).
Proof.
  induction s as [|x s IH]; intros i Hi; cbn [Generator.indexOf_from Generator.split].
  - by left.
  - destruct (decide (x = c)) as [->|Hne].
    + right. split; [cbn [length]; lia|]. by replace (i - i)%Z with 0%Z by lia.
    + destruct (IH (i + 1)%Z ltac:(lia)) as [[Hr Hh]|[Hr Hh]].
      * left. split; [done|]. destruct (Generator.split s c) as [|part parts]; [done|].
        by injection Hh as ->.
      * right. split; [cbn [length]; lia|].
        destruct (Generator.split s c) as [|part parts]; [done|].
        injection Hh as ->. cbn [head]. f_equal.
        replace (Z.to_nat (Generator.indexOf_from c s (i + 1) - i))
          with (S (Z.to_nat (Generator.indexOf_from c s (i + 1) - (i + 1)))) by lia.
        done.
Qed.

(** X21.  How the entries of [properties] and of [events] are read.  When
    the first colon of an entry is not at its start, both take what stands
    before it, trimmed.  They part ways otherwise: an entry without a colon
    is a property as it stands, untrimmed, but an event trimmed; an entry
    that starts with a colon is a property as it stands, but the event named
    by the trimmed empty string. *)
Theorem property_and_event_names trim config :
  ((Generator.indexOf config (Generator.char ":") > 0)%Z →
   Generator.property_of trim config = Generator.event_of trim config) ∧
  (Generator.indexOf config (Generator.char ":") = (-1)%Z →
   Generator.property_of trim config = config ∧
   Generator.event_of trim config = trim config) ∧
  (Generator.indexOf config (Generator.char ":") = 0%Z →
   Generator.property_of trim config = config ∧
   Generator.event_of trim config = trim []) ∧
  (Generator.indexOf config (Generator.char ":") = (-1)%Z ∨
   (0 ≤ Generator.indexOf config (Generator.char ":") < Z.of_nat (length config))%Z).
Proof.
  unfold Generator.property_of, Generator.event_of, Generator.indexOf.
  destruct (split_indexOf (Generator.char ":") config 0 ltac:(lia)) as [[Hr Hh]|[Hr Hh]];
    rewrite Hh; cbn [default].
  - rewrite Hr. split; [|split; [|split]].
    + lia.
    + intros _. split; [|done]. destruct (decide _); [lia|done].
    + lia.
    + by left.
  - rewrite Z.sub_0_r. set (idx := Generator.indexOf_from _ config 0) in *.
    split; [|split; [|split]].
    + intros Hpos. by destruct (decide _).
    + lia.
    + intros E. rewrite E. split; [|done]. by destruct (decide _).
    + right. lia.
Qed.

(* ------------------------------------------------------------------ *)
(** * Properties of [bootstrap] *)

Lemma new_Injector_inv toClass bindings parent w I w' :
  new_Injector toClass bindings parent w = Some (Ok I, w') →
  I = length (injectors w) ∧
  length (injectors w') = S (length (injectors w)) ∧
  _parent (the_injector w' I) = parent ∧
  (∀ J, J < I → the_injector w' J = the_injector w J).
Proof.
  unfold new_Injector. destruct (_flattenBindings toClass bindings ∅); [done|].
  intros [= <- <-]. split; [done|]. split; [simpl; rewrite length_app; simpl; lia|].
  unfold the_injector. simpl. split.
  - rewrite lookup_app_r by lia.
    by replace (length (injectors w) - length (injectors w)) with 0 by lia.
  - intros J HJ. by rewrite lookup_app_l.
Qed.

Lemma asyncGet_frame n I t w r w' :
  asyncGet n I t w = Some (r, w') →
  length (injectors w') = length (injectors w) ∧
  (∀ J, _parent (the_injector w' J) = _parent (the_injector w J)) ∧
  (∀ J, _bindings (the_injector w' J) = _bindings (the_injector w J)).
Proof.
  unfold asyncGet, bind. destruct (Key_get_total t w) as (k & w0 & -> & Hi & _).
  intros H. apply _getByKey_lookup, lookup_extends_world in H.
  split; [by rewrite (ext_length _ _ H), Hi|]. split; intros J.
  - by rewrite (ext_parent _ _ H), (the_injector_same _ _ _ Hi).
  - by rewrite (ext_bindings _ _ H), (the_injector_same _ _ _ Hi).
Qed.

(** What one call of [bootstrap] builds. *)
Lemma bootstrap_inv toClass rb ib cd n root t bs w r a f w' :
  bootstrap toClass rb ib cd n root t bs w = Some (Ok (r, a, f), w') →
  (∀ r0, root = Some r0 → r0 < length (injectors w)) →
  (match root with Some r0 => r = r0 | None => r = length (injectors w) end) ∧
  r < a ∧ length (injectors w) ≤ a < length (injectors w') ∧
  (_parent (the_injector w' a) = Some r ∨
   ∃ c, c < length (injectors w') ∧
        _parent (the_injector w' a) = Some c ∧ _parent (the_injector w' c) = Some r) ∧
  (∀ J, J < length (injectors w) →
        _parent (the_injector w' J) = _parent (the_injector w J) ∧
        _bindings (the_injector w' J) = _bindings (the_injector w J)) ∧
  (root = None → _parent (the_injector w' r) = None).
Proof.
  unfold bootstrap, createChild. unfold bind at 1.
  destruct (match root with
            | Some root0 => ret root0
            | None => new_Injector toClass rb None
            end w) as [[[r'|e] wa]|] eqn:H1; [|done|done].
  unfold bind at 1.
  destruct (new_Injector toClass (ib t) (Some r') wa) as [[[c|e] wb]|] eqn:H2; [|done|done].
  unfold bind at 1.
  destruct (match bs with
            | Some bindings => new_Injector toClass bindings (Some c)
            | None => ret c
            end wb) as [[[a'|e] wc]|] eqn:H3; [|done|done].
  unfold bind at 1.
  destruct (asyncGet n a' cd wc) as [[[f'|e] wd]|] eqn:H4; [|done|done].
  intros [= <- <- <- <-] Hroot.
  destruct (new_Injector_inv _ _ _ _ _ _ H2) as (-> & Lb & Pc & Ob).
  destruct (asyncGet_frame _ _ _ _ _ _ H4) as (Ld & Pd & Bd).
  (* the root *)
  assert ((match root with Some r0 => r' = r0 | None => r' = length (injectors w) end) ∧
          r' < length (injectors wa) ∧ length (injectors w) ≤ length (injectors wa) ∧
          (∀ J, J < length (injectors w) → the_injector wa J = the_injector w J) ∧
          (root = None → _parent (the_injector wa r') = None)) as (Hr & Hlt & Hle & Oa & Pr).
  { destruct root as [r0|].
    - injection H1 as <- <-. split; [done|]. split; [by apply Hroot|]. done.
    - destruct (new_Injector_inv _ _ _ _ _ _ H1) as (-> & La & Pa & Oa).
      split; [done|]. split; [lia|]. split; [lia|]. done. }
  (* the application injector *)
  assert (length (injectors wa) ≤ a' ∧ a' < length (injectors wc) ∧
          length (injectors wb) ≤ length (injectors wc) ∧
          (_parent (the_injector wc a') = Some r' ∨
           ∃ c, c < length (injectors wc) ∧
                _parent (the_injector wc a') = Some c ∧
                _parent (the_injector wc c) = Some r') ∧
          (∀ J, J < length (injectors wb) → the_injector wc J = the_injector wb J))
    as (Hca & Hac & Hbc & Hchain & Oc).
  { destruct bs as [bindings|].
    - destruct (new_Injector_inv _ _ _ _ _ _ H3) as (-> & Lc & Pg & Oc).
      split; [lia|]. split; [lia|]. split; [lia|]. split; [|done].
      right. exists (length (injectors wa)). split; [lia|]. split; [done|].
      rewrite Oc by lia. done.
    - injection H3 as <- <-. split; [lia|]. split; [lia|]. split; [lia|]. split; [|done].
      by left. }
  assert (∀ J, _parent (the_injector wd J) = _parent (the_injector wc J)) as Pd' by done.
  split; [done|]. split; [lia|]. split; [lia|]. split; [|split].
  - destruct Hchain as [Hp|(c & Hc & Hp1 & Hp2)]; [left; by rewrite Pd|].
    right. exists c. rewrite !Pd. split; [lia|done].
  - intros J HJ. rewrite Pd, Bd, Oc, Ob, Oa by lia. done.
  - intros Hn. rewrite Pd, Oc, Ob by lia. by apply Pr.
Qed.

(** X22.  Applications share the root injector and nothing else.  When a
    first [bootstrap] has built the root and a second one is handed it, the
    second leaves the root as it is, with its bindings and without a
    parent, and builds an application injector of its own; both application
    injectors have the root on their parent chain, and neither is the root. *)
Theorem bootstrap_shares_the_root toClass rb ib cd n1 n2 t1 bs1 t2 bs2 w
    r1 a1 f1 w1 r2 a2 f2 w2 :
  bootstrap toClass rb ib cd n1 None t1 bs1 w = Some (Ok (r1, a1, f1), w1) →
  bootstrap toClass rb ib cd n2 (Some r1) t2 bs2 w1 = Some (Ok (r2, a2, f2), w2) →
  r2 = r1 ∧ a1 ≠ a2 ∧ a1 ≠ r1 ∧ a2 ≠ r1 ∧
  on_chain w2 a1 r1 ∧ on_chain w2 a2 r1 ∧
  _parent (the_injector w2 r1) = None ∧
  _bindings (the_injector w2 r1) = _bindings (the_injector w1 r1).
Proof.
  intros H1 H2.
  destruct (bootstrap_inv _ _ _ _ _ _ _ _ _ _ _ _ _ H1) as (-> & Hra & Ha & Hc1 & O1 & P1);
    [done|].
  destruct (bootstrap_inv _ _ _ _ _ _ _ _ _ _ _ _ _ H2) as (-> & Hra2 & Ha2 & Hc2 & O2 & _).
  { intros r0 [= <-]. lia. }
  split; [done|]. split; [lia|]. split; [lia|]. split; [lia|].
  split; [|split].
  - destruct Hc1 as [Hp|(c & Hc & Hp1 & Hp2)].
    + eapply on_chain_up; [|constructor]. destruct (O2 a1) as [-> _]; [lia|done].
    + eapply on_chain_up; [|eapply on_chain_up; [|constructor]].
      * destruct (O2 a1) as [-> _]; [lia|done].
      * destruct (O2 c) as [-> _]; [lia|done].
  - destruct Hc2 as [Hp|(c & Hc & Hp1 & Hp2)].
    + eapply on_chain_up; [done|constructor].
    + eapply on_chain_up; [done|]. eapply on_chain_up; [done|constructor].
  - destruct (O2 (length (injectors w))) as [-> ->]; [lia|]. split; [by apply P1|done].
Qed.

Lemma bootstrap_shares_the_root_witness :
  0 = 0 ∧ 1 ≠ 3 ∧ 1 ≠ 0 ∧ 3 ≠ 0 ∧
  on_chain Apps.second 1 0 ∧ on_chain Apps.second 3 0 ∧
  _parent (the_injector Apps.second 0) = None ∧
  _bindings (the_injector Apps.second 0) = _bindings (the_injector Apps.first 0).
Proof.
  apply (bootstrap_shares_the_root Sample.toClass [Sample.bind_to Sample.B Sample.fresh []]
           (λ _, [Sample.bind_to Sample.A Sample.fresh [Sample.eager Sample.B]]) (Tok 0)
           5 5 0 None 0 (Some []) Sample.start 0 1 (VFuture 7) Apps.first
           0 3 (VFuture 11) Apps.second).
  - vm_compute. reflexivity.
  - vm_compute. reflexivity.
Defined.
